(** * The Redis-backed cache handler of [src/app/lib/cache-handler.cjs]

    A shallow embedding of the handler's five public operations ([get],
    [set], [refreshTags], [getExpiration], [updateTags]) together with the
    library pieces they lean on (base64, JSON, a Redis key space, promises),
    and the properties claimed for them.

    What the embedding keeps and what it leaves out:
    - an [async] function is a tree of synchronous steps and awaits; one
      call can be run alone, or many can be interleaved at their awaits;
    - JavaScript numbers are the integers they hold here (milliseconds and
      seconds), with [NaN] apart where [parseInt] can give it; strings are
      sequences of 8-bit characters;
    - the handler is typed: an entry has its six fields, and a stored text
      that is JSON of another shape is read as an error;
    - spans and console output are not part of the state;
    - a round trip to the store that fails has changed nothing there. *)

From Stdlib Require Import Init.Byte Ascii NArith ZArith.
From Stdlib Require Strings.Byte String.
From stdpp Require Import gmap strings list.

Local Open Scope N_scope.

#[local] Arguments String.append !_ _ : simpl nomatch.

(** ** Base64, as [Buffer#toString("base64")] and [Buffer.from(s, "base64")] *)

Module Base64.

Definition alphabet : string :=
  "ABCDEFGHIJKLMNOPQRSTUVWXYZabcdefghijklmnopqrstuvwxyz0123456789+/".

(** The character of a 6-bit group; ['='] is never produced for a group
    below 64. *)
Definition char_of_sextet (n : N) : ascii :=
  match String.get (N.to_nat n) alphabet with
  | Some c => c
  | None => "="%char
  end.

(** The 6-bit group of a character, by code ranges as decoders do. *)
Definition sextet_of_char (c : ascii) : option N :=
  let n := N_of_ascii c in
  if (65 <=? n) && (n <=? 90) then Some (n - 65)
  else if (97 <=? n) && (n <=? 122) then Some (n - 97 + 26)
  else if (48 <=? n) && (n <=? 57) then Some (n - 48 + 52)
  else if n =? 43 then Some 62
  else if n =? 47 then Some 63
  else None.

Definition byte_of_N (n : N) : byte :=
  match Byte.of_N n with
  | Some b => b
  | None => x00
  end.

(** The four groups of a 3-byte block, and the three bytes of a 4-group
    block. *)
Definition group1 (a : N) : N := N.shiftr a 2.
Definition group2 (a b : N) : N := N.lor (N.shiftl (N.land a 3) 4) (N.shiftr b 4).
Definition group3 (b c : N) : N := N.lor (N.shiftl (N.land b 15) 2) (N.shiftr c 6).
Definition group4 (c : N) : N := N.land c 63.

Definition octet1 (s1 s2 : N) : N := N.lor (N.shiftl s1 2) (N.shiftr s2 4).
Definition octet2 (s2 s3 : N) : N := N.lor (N.shiftl (N.land s2 15) 4) (N.shiftr s3 2).
Definition octet3 (s3 s4 : N) : N := N.lor (N.shiftl (N.land s3 3) 6) s4.

Fixpoint encode (bs : list byte) : string :=
  match bs with
  | [] => ""
  | [a] =>
      let a := Byte.to_N a in
      String (char_of_sextet (group1 a))
        (String (char_of_sextet (group2 a 0)) "==")
  | [a; b] =>
      let a := Byte.to_N a in
      let b := Byte.to_N b in
      String (char_of_sextet (group1 a))
        (String (char_of_sextet (group2 a b))
           (String (char_of_sextet (group3 b 0)) "="))
  | a :: b :: c :: rest =>
      let a := Byte.to_N a in
      let b := Byte.to_N b in
      let c := Byte.to_N c in
      String (char_of_sextet (group1 a))
        (String (char_of_sextet (group2 a b))
           (String (char_of_sextet (group3 b c))
              (String (char_of_sextet (group4 c)) (encode rest))))
  end.

(** Decoding never fails on a string.  This is the decoder on the texts
    that [encode] writes, the only ones [set] stores: there it stops at the
    padding and keeps the bytes completed so far.  On other texts
    [Buffer.from] is more lenient than this definition (it passes over
    characters outside the alphabet and takes [-] and [_] for [+] and [/]);
    they are outside the model. *)
Fixpoint decode (s : string) : list byte :=
  match s with
  | String c1 (String c2 tl) =>
      match sextet_of_char c1, sextet_of_char c2 with
      | Some s1, Some s2 =>
          byte_of_N (octet1 s1 s2) ::
          match tl with
          | String c3 tl' =>
              match sextet_of_char c3 with
              | Some s3 =>
                  byte_of_N (octet2 s2 s3) ::
                  match tl' with
                  | String c4 rest =>
                      match sextet_of_char c4 with
                      | Some s4 => byte_of_N (octet3 s3 s4) :: decode rest
                      | None => []
                      end
                  | EmptyString => []
                  end
              | None => []
              end
          | EmptyString => []
          end
      | _, _ => []
      end
  | _ => []
  end.

End Base64.

(** ** Decimal integers, as [Number#toString()] prints them and
    [Number.parseInt(s, 10)] and [JSON.parse] read them

    JavaScript numbers are modelled by their integer values: timestamps in
    milliseconds and lifetimes in seconds.  The model is that of the
    integers a number holds exactly, up to [2 ^ 53] in absolute value:
    there [Number#toString()] prints all the digits and
    [Number.parseInt] reads them back; beyond, a number is rounded, and
    from [10 ^ 21] on it is printed with an exponent. *)

Module Decimal.

Definition digit_char (d : N) : ascii := ascii_of_N (48 + d).

Definition is_digit (c : ascii) : bool :=
  let n := N_of_ascii c in (48 <=? n) && (n <=? 57).

Definition digit_val (c : ascii) : N := N_of_ascii c - 48.

(** Least significant digit first, pushed in front of what is already
    printed; the fuel bounds the number of digits. *)
Fixpoint print_aux (fuel : nat) (n : N) (acc : string) : string :=
  match fuel with
  | O => acc
  | S fuel' =>
      if n <? 10 then String (digit_char n) acc
      else print_aux fuel' (n / 10) (String (digit_char (n mod 10)) acc)
  end.

Definition print_N (n : N) : string :=
  print_aux (S (N.to_nat (N.log2 n))) n "".

Definition print_Z (z : Z) : string :=
  match z with
  | Zneg p => String "-" (print_N (Npos p))
  | _ => print_N (Z.to_N z)
  end.

Definition starts_with_digit (s : string) : bool :=
  match s with
  | String c _ => is_digit c
  | EmptyString => false
  end.

(** The longest run of digits in front of [s], read in base ten on top of
    [acc], and what follows it. *)
Fixpoint read_digits (acc : N) (s : string) : N * string :=
  match s with
  | String c r =>
      if is_digit c then read_digits (acc * 10 + digit_val c) r else (acc, s)
  | EmptyString => (acc, s)
  end.

End Decimal.

(** ** JSON text, as [JSON.stringify] writes it and [JSON.parse] reads it *)

Module Json.

Import Decimal.

#[warnings="-register-all"]
Inductive json : Type :=
| JNull
| JBool (b : bool)
| JNum (z : Z)
| JStr (s : string)
| JArr (l : list json)
| JObj (m : list (string * json)).

(** The double quote character. *)
Definition dquote : ascii := "034"%char.

Definition hex_char (d : N) : ascii :=
  if d <? 10 then ascii_of_N (48 + d) else ascii_of_N (87 + d).

Definition hex_val (c : ascii) : option N :=
  let n := N_of_ascii c in
  if (48 <=? n) && (n <=? 57) then Some (n - 48)
  else if (97 <=? n) && (n <=? 102) then Some (n - 87)
  else if (65 <=? n) && (n <=? 70) then Some (n - 55)
  else None.

(** A character inside a quoted string: the quote, the backslash and the
    control characters are escaped, everything else stands for itself. *)
Definition escape_char (c : ascii) : string :=
  let n := N_of_ascii c in
  if n =? 34 then String "\" (String dquote "")
  else if n =? 92 then "\\"
  else if n =? 8 then "\b"
  else if n =? 12 then "\f"
  else if n =? 10 then "\n"
  else if n =? 13 then "\r"
  else if n =? 9 then "\t"
  else if n <? 32 then
    String "\" (String "u" (String "0" (String "0"
      (String (hex_char (n / 16)) (String (hex_char (n mod 16)) "")))))
  else String c "".

Fixpoint escape (s : string) : string :=
  match s with
  | EmptyString => ""
  | String c r => escape_char c +:+ escape r
  end.

Definition quote (s : string) : string :=
  String dquote (escape s +:+ String dquote "").

Fixpoint stringify (v : json) : string :=
  match v with
  | JNull => "null"
  | JBool true => "true"
  | JBool false => "false"
  | JNum z => print_Z z
  | JStr s => quote s
  | JArr l => "[" +:+ String.concat "," (map stringify l) +:+ "]"
  | JObj m =>
      "{" +:+ String.concat ","
                (map (fun kv => quote (fst kv) +:+ ":" +:+ stringify (snd kv)) m)
          +:+ "}"
  end.

Definition is_ws (c : ascii) : bool :=
  let n := N_of_ascii c in
  (n =? 32) || (n =? 9) || (n =? 10) || (n =? 13).

Fixpoint skip_ws (s : string) : string :=
  match s with
  | String c r => if is_ws c then skip_ws r else s
  | EmptyString => s
  end.

Fixpoint strip_prefix (p s : string) : option string :=
  match p, s with
  | EmptyString, _ => Some s
  | String a p', String b s' => if Ascii.eqb a b then strip_prefix p' s' else None
  | String _ _, EmptyString => None
  end.

(** The text after optional white space and the character [c], when that
    is what comes next. *)
Definition strip_char (c : ascii) (s : string) : option string :=
  match skip_ws s with
  | String c' t => if Ascii.eqb c c' then Some t else None
  | EmptyString => None
  end.

Definition unescape_char (e : ascii) : option ascii :=
  let n := N_of_ascii e in
  if n =? 34 then Some dquote
  else if n =? 92 then Some "\"%char
  else if n =? 47 then Some "/"%char
  else if n =? 98 then Some (ascii_of_N 8)
  else if n =? 102 then Some (ascii_of_N 12)
  else if n =? 110 then Some (ascii_of_N 10)
  else if n =? 114 then Some (ascii_of_N 13)
  else if n =? 116 then Some (ascii_of_N 9)
  else None.

Definition hex4 (a b c d : ascii) : option N :=
  match hex_val a, hex_val b, hex_val c, hex_val d with
  | Some a, Some b, Some c, Some d => Some (((a * 16 + b) * 16 + c) * 16 + d)
  | _, _, _, _ => None
  end.

(** The characters of a string literal after its opening quote, up to the
    closing one.  Strings are sequences of 8-bit characters here, so a
    [\u] escape above 255 is outside the model and read as an error. *)
Fixpoint parse_string (s : string) : option (string * string) :=
  match s with
  | EmptyString => None
  | String c r =>
      if Ascii.eqb c dquote then Some ("", r)
      else if Ascii.eqb c "\" then
        match r with
        | String e r' =>
            if Ascii.eqb e "u" then
              match r' with
              | String h1 (String h2 (String h3 (String h4 r''))) =>
                  match hex4 h1 h2 h3 h4 with
                  | Some n =>
                      if n <? 256 then
                        match parse_string r'' with
                        | Some (x, t) => Some (String (ascii_of_N n) x, t)
                        | None => None
                        end
                      else None
                  | None => None
                  end
              | _ => None
              end
            else
              match unescape_char e with
              | Some c' =>
                  match parse_string r' with
                  | Some (x, t) => Some (String c' x, t)
                  | None => None
                  end
              | None => None
              end
        | EmptyString => None
        end
      else if N_of_ascii c <? 32 then None
      else
        match parse_string r with
        | Some (x, t) => Some (String c x, t)
        | None => None
        end
  end.

Definition starts_with (P : ascii -> bool) (s : string) : bool :=
  match s with
  | String c _ => P c
  | EmptyString => false
  end.

Definition is_frac_start (c : ascii) : bool :=
  Ascii.eqb c "." || Ascii.eqb c "e" || Ascii.eqb c "E".

(** An integer literal: an optional minus sign, then [0] or a run of
    digits that does not start with [0].  Fractions and exponents are
    outside the integer model and read as an error. *)
Definition parse_unsigned (s : string) : option (N * string) :=
  match s with
  | String c r =>
      if is_digit c then
        if Ascii.eqb c "0" && starts_with_digit r then None
        else
          let '(n, t) := read_digits 0 s in
          if starts_with is_frac_start t then None else Some (n, t)
      else None
  | EmptyString => None
  end.

Definition parse_number (s : string) : option (Z * string) :=
  match s with
  | String c r =>
      if Ascii.eqb c "-" then
        match parse_unsigned r with
        | Some (n, t) => Some (Z.opp (Z.of_N n), t)
        | None => None
        end
      else
        match parse_unsigned s with
        | Some (n, t) => Some (Z.of_N n, t)
        | None => None
        end
  | EmptyString => None
  end.

Fixpoint parse_value (fuel : nat) (s : string) : option (json * string) :=
  match fuel with
  | O => None
  | S fuel' =>
      match skip_ws s with
      | EmptyString => None
      | String c r =>
          if Ascii.eqb c dquote then
            match parse_string r with
            | Some (x, t) => Some (JStr x, t)
            | None => None
            end
          else if Ascii.eqb c "[" then
            match strip_char "]" r with
            | Some t => Some (JArr [], t)
            | None =>
                match parse_elems fuel' r with
                | Some (l, t) => Some (JArr l, t)
                | None => None
                end
            end
          else if Ascii.eqb c "{" then
            match strip_char "}" r with
            | Some t => Some (JObj [], t)
            | None =>
                match parse_members fuel' r with
                | Some (m, t) => Some (JObj m, t)
                | None => None
                end
            end
          else
            match strip_prefix "null" (String c r) with
            | Some t => Some (JNull, t)
            | None =>
            match strip_prefix "true" (String c r) with
            | Some t => Some (JBool true, t)
            | None =>
            match strip_prefix "false" (String c r) with
            | Some t => Some (JBool false, t)
            | None =>
            match parse_number (String c r) with
            | Some (z, t) => Some (JNum z, t)
            | None => None
            end end end end
      end
  end
with parse_elems (fuel : nat) (s : string) : option (list json * string) :=
  match fuel with
  | O => None
  | S fuel' =>
      match parse_value fuel' s with
      | Some (v, r) =>
          match skip_ws r with
          | String c t =>
              if Ascii.eqb c "," then
                match parse_elems fuel' t with
                | Some (l, u) => Some (v :: l, u)
                | None => None
                end
              else if Ascii.eqb c "]" then Some ([v], t)
              else None
          | EmptyString => None
          end
      | None => None
      end
  end
with parse_members (fuel : nat) (s : string)
    : option (list (string * json) * string) :=
  match fuel with
  | O => None
  | S fuel' =>
      match skip_ws s with
      | String q r =>
          if Ascii.eqb q dquote then
            match parse_string r with
            | Some (k, r1) =>
                match skip_ws r1 with
                | String colon r2 =>
                    if Ascii.eqb colon ":" then
                      match parse_value fuel' r2 with
                      | Some (v, r3) =>
                          match skip_ws r3 with
                          | String c t =>
                              if Ascii.eqb c "," then
                                match parse_members fuel' t with
                                | Some (m, u) => Some ((k, v) :: m, u)
                                | None => None
                                end
                              else if Ascii.eqb c "}" then Some ([(k, v)], t)
                              else None
                          | EmptyString => None
                          end
                      | None => None
                      end
                    else None
                | EmptyString => None
                end
            | None => None
            end
          else None
      | EmptyString => None
      end
  end.

(** [JSON.parse]: one value, surrounded by optional white space, and
    nothing else; [None] stands for the [SyntaxError] it throws. *)
Definition parse (s : string) : option json :=
  match parse_value (S (String.length s)) s with
  | Some (v, t) =>
      match skip_ws t with
      | EmptyString => Some v
      | String _ _ => None
      end
  | None => None
  end.

(** Property access [o.k] on a parsed object: the last member named [k]
    wins, as in JavaScript. *)
Fixpoint field (k : string) (m : list (string * json)) : option json :=
  match m with
  | [] => None
  | (k', v) :: m' =>
      match field k m' with
      | Some w => Some w
      | None => if String.eqb k k' then Some v else None
      end
  end.

End Json.

(** ** The remote key-value store, as the handler's two clients see it

    A key holds a string or a set of strings and may carry a deadline
    (milliseconds) after which it is gone. *)

Module Redis.

Inductive value : Type :=
| VString (s : string)
| VSet (members : gset string).

Record slot : Type := Slot { val : value; deadline : option Z }.

Inductive command : Type :=
| SETEX (key : string) (seconds : Z) (v : string)
| SADD (key member : string)
| EXPIRE (key : string) (seconds : Z)
| DEL (key : string)
| SET (key v : string).

(** The reply to a command that read a key of the wrong kind. *)
Inductive reply (A : Type) : Type :=
| Ok (a : A)
| WrongType.

Arguments Ok {A} a.
Arguments WrongType {A}.

(** What a key holds at time [now]: a key past its deadline holds
    nothing. *)
Definition live (now : Z) (st : gmap string slot) (k : string) : option slot :=
  match st !! k with
  | Some sl =>
      match deadline sl with
      | Some d => if (d <=? now)%Z then None else Some sl
      | None => Some sl
      end
  | None => None
  end.

Definition get (now : Z) (st : gmap string slot) (k : string) : reply (option string) :=
  match live now st k with
  | None => Ok None
  | Some (Slot (VString s) _) => Ok (Some s)
  | Some (Slot (VSet _) _) => WrongType
  end.

Definition smembers (now : Z) (st : gmap string slot) (k : string) : reply (list string) :=
  match live now st k with
  | None => Ok []
  | Some (Slot (VSet s) _) => Ok (elements s)
  | Some (Slot (VString _) _) => WrongType
  end.

(** Glob patterns with [*] as the only special character. *)
Fixpoint glob (p s : string) : bool :=
  match p with
  | EmptyString => match s with EmptyString => true | String _ _ => false end
  | String c p' =>
      if Ascii.eqb c "*" then
        (fix star (s : string) : bool :=
           glob p' s || match s with
                        | String _ s' => star s'
                        | EmptyString => false
                        end) s
      else
        match s with
        | String d s' => Ascii.eqb c d && glob p' s'
        | EmptyString => false
        end
  end.

Definition keys (now : Z) (st : gmap string slot) (pattern : string) : list string :=
  filter (fun k => bool_decide (is_Some (live now st k)) && glob pattern k = true)
         (elements (dom st)).

(** One command of a batch.  A command the store rejects (a wrong kind of
    key, a lifetime that is not positive) changes nothing; its error is one
    entry of the batch's reply, which the handler does not look at. *)
Definition apply (now : Z) (c : command) (st : gmap string slot) : gmap string slot :=
  match c with
  | SETEX k seconds v =>
      if (seconds <=? 0)%Z then st
      else <[k := Slot (VString v) (Some (now + seconds * 1000)%Z)]> st
  | SADD k m =>
      match live now st k with
      | None => <[k := Slot (VSet {[m]}) None]> st
      | Some (Slot (VSet s) d) => <[k := Slot (VSet ({[m]} ∪ s)) d]> st
      | Some (Slot (VString _) _) => st
      end
  | EXPIRE k seconds =>
      match live now st k with
      | None => st
      | Some (Slot v _) =>
          if (seconds <=? 0)%Z then delete k st
          else <[k := Slot v (Some (now + seconds * 1000)%Z)]> st
      end
  | DEL k => delete k st
  | SET k v => <[k := Slot (VString v) None]> st
  end.

(** A batch is applied in order, with nothing in between. *)
Definition exec (now : Z) (cs : list command) (st : gmap string slot) : gmap string slot :=
  fold_left (fun st c => apply now c st) cs st.

End Redis.

(** ** The handler's process: its state, its awaits, its programs *)

Module Handler.

Import Decimal Json.

Local Open Scope Z_scope.

(** A JavaScript number that is an integer, or [NaN]. *)
Inductive num : Type :=
| NaN
| Int (z : Z).

(** What a rejected promise or a throw carries: a connection that could
    not be opened, a round trip that failed, an error reply of the store,
    a text that [JSON.parse] refuses, a stream that errors, a producer of
    the entry that rejects. *)
Inductive error : Type :=
| ConnectError
| StoreError
| ReplyError
| SyntaxError
| StreamError
| ProducerError.

(** A [ReadableStream]: the chunks it yields, and whether it then closes
    or errors. *)
Record stream : Type := Stream { chunks : list (list byte); errored : bool }.

Record entry : Type := Entry {
  value : stream;
  tags : list string;
  stale : bool;
  timestamp : Z;
  expire : Z;
  revalidate : Z
}.

(** The module-level state of [cache-handler.cjs] (lines 69-73:
    [connected], [tagTimestamps], [pendingSets]), the promises its [set]
    creates, the store behind its two clients and the wall clock.  The last
    two fields record what was asked of the clients: the number of
    [connect()] rounds and the batches handed to [exec()]. *)
Record World : Type := MkWorld {
  connected : bool;
  tagTimestamps : gmap string num;
  pendingSets : gmap string positive;
  settled : gset positive;
  next_promise : positive;
  store : gmap string Redis.slot;
  clock : Z;
  connects : nat;
  batches : list (list Redis.command)
}.

Definition with_connected (b : bool) (w : World) : World :=
  MkWorld b (tagTimestamps w) (pendingSets w) (settled w) (next_promise w)
          (store w) (clock w) (connects w) (batches w).

Definition with_tagTimestamps (m : gmap string num) (w : World) : World :=
  MkWorld (connected w) m (pendingSets w) (settled w) (next_promise w)
          (store w) (clock w) (connects w) (batches w).

Definition with_pendingSets (m : gmap string positive) (w : World) : World :=
  MkWorld (connected w) (tagTimestamps w) m (settled w) (next_promise w)
          (store w) (clock w) (connects w) (batches w).

Definition with_settled (s : gset positive) (w : World) : World :=
  MkWorld (connected w) (tagTimestamps w) (pendingSets w) s (next_promise w)
          (store w) (clock w) (connects w) (batches w).

Definition with_next_promise (p : positive) (w : World) : World :=
  MkWorld (connected w) (tagTimestamps w) (pendingSets w) (settled w) p
          (store w) (clock w) (connects w) (batches w).

Definition with_store (st : gmap string Redis.slot) (w : World) : World :=
  MkWorld (connected w) (tagTimestamps w) (pendingSets w) (settled w)
          (next_promise w) st (clock w) (connects w) (batches w).

Definition with_clock (t : Z) (w : World) : World :=
  MkWorld (connected w) (tagTimestamps w) (pendingSets w) (settled w)
          (next_promise w) (store w) t (connects w) (batches w).

Definition with_connects (n : nat) (w : World) : World :=
  MkWorld (connected w) (tagTimestamps w) (pendingSets w) (settled w)
          (next_promise w) (store w) (clock w) n (batches w).

Definition with_batches (bs : list (list Redis.command)) (w : World) : World :=
  MkWorld (connected w) (tagTimestamps w) (pendingSets w) (settled w)
          (next_promise w) (store w) (clock w) (connects w) bs.

(** The process at start: [connected = false] and two empty maps. *)
Definition initial (st : gmap string Redis.slot) (t : Z) : World :=
  MkWorld false ∅ ∅ ∅ 1%positive st t 0 [].

(** *** Awaits

    What an [await] waits for.  [Tick] is an await on a promise that the
    caller or an [async] function of the handler itself settles (one turn
    of the microtask queue); the others are round trips to the store and
    the wait for a promise of [pendingSets]. *)
Inductive io : Type -> Type :=
| Tick : io unit
| Connect : io unit
| StoreGet (key : string) : io (option string)
| StoreSmembers (key : string) : io (list string)
| StoreKeys (pattern : string) : io (list string)
| StoreExec (cs : list Redis.command) : io unit
| AwaitPromise (p : positive) : io unit.

(** An asynchronous function body: synchronous steps on the state, and
    awaits, each followed by the rest of the body. *)
Inductive prog (A : Type) : Type :=
| Ret (a : A)
| Throw (e : error)
| Do {X : Type} (f : World -> X * World) (k : X -> prog A)
| Await {X : Type} (op : io X) (k : error + X -> prog A).

Arguments Ret {A} a.
Arguments Throw {A} e.
Arguments Do {A X} f k.
Arguments Await {A X} op k.

Fixpoint bind {A B} (p : prog A) (f : A -> prog B) : prog B :=
  match p with
  | Ret a => f a
  | Throw e => Throw e
  | Do g k => Do g (fun x => bind (k x) f)
  | Await op k => Await op (fun r => bind (k r) f)
  end.

#[global] Instance prog_ret : MRet prog := @Ret.
#[global] Instance prog_bind : MBind prog := fun A B f p => bind p f.

(** [try { p } catch (e) { h e }]. *)
Fixpoint try_catch {A} (p : prog A) (h : error -> prog A) : prog A :=
  match p with
  | Ret a => Ret a
  | Throw e => h e
  | Do g k => Do g (fun x => try_catch (k x) h)
  | Await op k => Await op (fun r => try_catch (k r) h)
  end.

(** [try { p } finally { c }], for a clean-up [c] that neither awaits nor
    throws. *)
Fixpoint finally {A} (p : prog A) (c : World -> World) : prog A :=
  match p with
  | Ret a => Do (fun w => (tt, c w)) (fun _ => Ret a)
  | Throw e => Do (fun w => (tt, c w)) (fun _ => Throw e)
  | Do g k => Do g (fun x => finally (k x) c)
  | Await op k => Await op (fun r => finally (k r) c)
  end.

(** [await f()] for an [async] function [f] of the handler: the caller
    goes on one turn after the body has returned or thrown. *)
Fixpoint settle {A} (p : prog A) : prog A :=
  match p with
  | Ret a => Await Tick (fun _ => Ret a)
  | Throw e => Await Tick (fun _ => Throw e)
  | Do g k => Do g (fun x => settle (k x))
  | Await op k => Await op (fun r => settle (k r))
  end.

(** [await op]: the reply, or a throw when the promise rejects. *)
Definition await {X} (op : io X) : prog X :=
  Await op (fun r => match r with inl e => Throw e | inr x => Ret x end).

Definition read {X} (f : World -> X) : prog X :=
  Do (fun w => (f w, w)) Ret.

Definition write (f : World -> World) : prog unit :=
  Do (fun w => (tt, f w)) Ret.

(** *** The handler *)

(** Lines 7-8. *)
Definition CACHE_PREFIX : string := "nextjs:cache:".
Definition TAGS_PREFIX : string := "nextjs:tags:".

(** [withSpan(name, attributes, fn)], lines 21-33: [return await fn(span)]
    inside a [try] whose [catch] rethrows.  What it tells the tracer is not
    part of the state. *)
Definition withSpan {A} (name : string) (fn : prog A) : prog A :=
  try_catch (settle fn) (fun e => Throw e).

(** [ensureConnected()], lines 75-84.  Both branches of its [try]/[catch]
    set the flag. *)
Definition ensureConnected : prog unit :=
  c ← read connected;
  if c : bool then mret tt
  else
    write (fun w => with_connects (S (connects w)) w);;
    Await Connect (fun r =>
      match r with
      | inr _ => write (with_connected true)
      | inl _ => write (with_connected true)
      end).

(** The record [set] stores and [get] reads back. *)
Record data : Type := Data {
  d_value : string;
  d_tags : list string;
  d_stale : bool;
  d_timestamp : Z;
  d_expire : Z;
  d_revalidate : Z
}.

Definition to_json (d : data) : json :=
  JObj [("value", JStr (d_value d));
        ("tags", JArr (map JStr (d_tags d)));
        ("stale", JBool (d_stale d));
        ("timestamp", JNum (d_timestamp d));
        ("expire", JNum (d_expire d));
        ("revalidate", JNum (d_revalidate d))].

Fixpoint strings_of (l : list json) : option (list string) :=
  match l with
  | [] => Some []
  | JStr s :: l' =>
      match strings_of l' with
      | Some ss => Some (s :: ss)
      | None => None
      end
  | _ :: _ => None
  end.

(** The fields [get] reads off the parsed record.  The handler is typed
    here: a text that parses as JSON but is not a record of the shape
    [set] writes is read as an error, like a text that does not parse. *)
Definition of_json (j : json) : option data :=
  match j with
  | JObj m =>
      match field "value" m, field "tags" m, field "stale" m,
            field "timestamp" m, field "expire" m, field "revalidate" m with
      | Some (JStr v), Some (JArr ts), Some (JBool st),
        Some (JNum t), Some (JNum e), Some (JNum r) =>
          match strings_of ts with
          | Some ss => Some (Data v ss st t e r)
          | None => None
          end
      | _, _, _, _, _, _ => None
      end
  | _ => None
  end.

(** [JSON.stringify({value, tags, stale, timestamp, expire, revalidate})]
    and [JSON.parse(stored)]. *)
Definition serialize (d : data) : string := stringify (to_json d).

Definition deserialize (stored : string) : option data :=
  match parse stored with
  | Some j => of_json j
  | None => None
  end.

(** The object [get] returns: a stream of one chunk, the decoded value,
    and the stored fields as they are. *)
Definition entry_of (d : data) : entry :=
  Entry (Stream [Base64.decode (d_value d)] false)
        (d_tags d) (d_stale d) (d_timestamp d) (d_expire d) (d_revalidate d).

(** [get(cacheKey, softTags)], lines 92-147: the body of its [try], then
    the function. *)
Definition get_try (cacheKey : string) (softTags : list string)
    : prog (option entry) :=
  settle (withSpan "cache.get" (
    settle ensureConnected;;
    pendingPromise ← read (fun w => pendingSets w !! cacheKey);
    match pendingPromise with
    | Some p => await (AwaitPromise p)
    | None => mret tt
    end;;
    let key := CACHE_PREFIX +:+ cacheKey in
    stored ← await (StoreGet key);
    match stored with
    | None => mret None
    | Some EmptyString => mret None
    | Some stored =>
        match deserialize stored with
        | None => Throw SyntaxError
        | Some d =>
            now ← read clock;
            if now >? d_timestamp d + d_revalidate d * 1000 then mret None
            else mret (Some (entry_of d))
        end
    end)).

Definition get (cacheKey : string) (softTags : list string)
    : prog (option entry) :=
  try_catch (get_try cacheKey softTags) (fun _ => mret None).

(** The [while (true)] loop of [set] over [reader.read()]. *)
Fixpoint read_chunks (cs : list (list byte)) (bad : bool)
    (acc : list (list byte)) : prog (list (list byte)) :=
  match cs with
  | [] => Await Tick (fun _ => if bad then Throw StreamError else Ret acc)
  | c :: cs' => Await Tick (fun _ => read_chunks cs' bad (acc ++ [c]))
  end.

(** [await pipeline.exec()], lines 218 and 319.  The promise of [exec()]
    resolves whatever becomes of the commands, so nothing is thrown here;
    the handler drops the array it resolves with. *)
Definition exec (pipeline : list Redis.command) : prog unit :=
  write (fun w => with_batches (batches w ++ [pipeline]) w);;
  await (StoreExec pipeline).

(** The batch [set] builds: the entry, then two commands per tag. *)
Definition set_pipeline (key serialized : string) (e : entry)
    : list Redis.command :=
  fold_left
    (fun pipeline tag =>
       let tagKey := TAGS_PREFIX +:+ tag in
       pipeline ++ [Redis.SADD tagKey key; Redis.EXPIRE tagKey (expire e + 60)])
    (tags e)
    [Redis.SETEX key (expire e) serialized].

Definition data_of (e : entry) (bytes : list byte) : data :=
  Data (Base64.encode bytes) (tags e) (stale e) (timestamp e) (expire e)
       (revalidate e).

(** [set(cacheKey, pendingEntry)], lines 155-227: the body of its [try],
    the registration before it, the [finally] after it.  The promise
    [pendingEntry] is given by what it settles to. *)
Definition set_try (cacheKey : string) (pendingEntry : error + entry)
    : prog unit :=
  settle (withSpan "cache.set" (
    settle ensureConnected;;
    e ← Await Tick (fun _ =>
          match pendingEntry with inl err => Throw err | inr e => Ret e end);
    chunks ← read_chunks (chunks (value e)) (errored (value e)) [];
    let bytes := concat chunks in
    let key := CACHE_PREFIX +:+ cacheKey in
    let serialized := serialize (data_of e bytes) in
    exec (set_pipeline key serialized e))).

Definition register (cacheKey : string) (w : World) : positive * World :=
  let p := next_promise w in
  (p, with_pendingSets (<[cacheKey := p]> (pendingSets w))
        (with_next_promise (Pos.succ p) w)).

Definition release (cacheKey : string) (p : positive) (w : World) : World :=
  with_pendingSets (delete cacheKey (pendingSets w))
    (with_settled ({[p]} ∪ settled w) w).

Definition set (cacheKey : string) (pendingEntry : error + entry) : prog unit :=
  pendingPromise ← Do (register cacheKey) Ret;
  finally
    (try_catch (set_try cacheKey pendingEntry) (fun _ => mret tt))
    (release cacheKey pendingPromise).

(** [s.replace(pat, EmptyString)]: the first occurrence of [pat] goes. *)
Fixpoint remove_first (pat s : string) : string :=
  match strip_prefix pat s with
  | Some rest => rest
  | None =>
      match s with
      | String c s' => String c (remove_first pat s')
      | EmptyString => EmptyString
      end
  end.

Definition is_space (c : ascii) : bool :=
  let n := N_of_ascii c in
  ((9 <=? n) && (n <=? 13) || (n =? 32))%N.

Fixpoint trim_left (s : string) : string :=
  match s with
  | String c r => if is_space c then trim_left r else s
  | EmptyString => s
  end.

Definition read_int (s : string) : option N :=
  if starts_with_digit s then Some (fst (read_digits 0 s)) else None.

(** [Number.parseInt(s, 10)]. *)
Definition parseInt (s : string) : num :=
  match trim_left s with
  | String c r =>
      if Ascii.eqb c "-" then
        match read_int r with Some n => Int (- Z.of_N n) | None => NaN end
      else if Ascii.eqb c "+" then
        match read_int r with Some n => Int (Z.of_N n) | None => NaN end
      else
        match read_int (String c r) with Some n => Int (Z.of_N n) | None => NaN end
  | EmptyString => NaN
  end.

(** [refreshTags()], lines 233-251: its [for] loop, the body of its [try],
    the function. *)
Fixpoint refresh_loop (tagKeys : list string) : prog unit :=
  match tagKeys with
  | [] => mret tt
  | tagKey :: rest =>
      let tag := remove_first ":timestamp" (remove_first TAGS_PREFIX tagKey) in
      timestamp ← await (StoreGet tagKey);
      match timestamp with
      | None => mret tt
      | Some EmptyString => mret tt
      | Some ts =>
          write (fun w =>
            with_tagTimestamps (<[tag := parseInt ts]> (tagTimestamps w)) w)
      end;;
      refresh_loop rest
  end.

Definition refreshTags_try : prog unit :=
  settle (withSpan "cache.refreshTags" (
    settle ensureConnected;;
    tagKeys ← await (StoreKeys (TAGS_PREFIX +:+ "*:timestamp"));
    refresh_loop tagKeys)).

Definition refreshTags : prog unit :=
  try_catch refreshTags_try (fun _ => mret tt).

(** [timestamp > maxTimestamp], false when [timestamp] is [NaN]. *)
Definition gt (timestamp : num) (maxTimestamp : Z) : bool :=
  match timestamp with
  | Int z => z >? maxTimestamp
  | NaN => false
  end.

(** [getExpiration(tags)], lines 258-277: its [for] loop, then the
    function. *)
Definition max_timestamp (m : gmap string num) (tags : list string) : Z :=
  fold_left
    (fun maxTimestamp tag =>
       let timestamp := default (Int 0) (m !! tag) in
       if gt timestamp maxTimestamp then
         match timestamp with Int z => z | NaN => maxTimestamp end
       else maxTimestamp)
    tags 0.

Definition getExpiration (tags : list string) : prog Z :=
  match tags with
  | [] => mret 0
  | _ :: _ =>
      withSpan "cache.getExpiration"
        (read (fun w => max_timestamp (tagTimestamps w) tags))
  end.

(** [updateTags(tags, durations)], lines 285-327: its [for] loop with the
    batch it fills, the body of its [try], the function. *)
Fixpoint update_loop (now : Z) (tags : list string)
    (pipeline : list Redis.command) : prog (list Redis.command) :=
  match tags with
  | [] => mret pipeline
  | tag :: rest =>
      let tagKey := TAGS_PREFIX +:+ tag in
      cacheKeys ← await (StoreSmembers tagKey);
      let pipeline :=
        pipeline ++ map Redis.DEL cacheKeys
                 ++ [Redis.DEL tagKey;
                     Redis.SET (tagKey +:+ ":timestamp") (print_Z now)] in
      write (fun w =>
        with_tagTimestamps (<[tag := Int now]> (tagTimestamps w)) w);;
      update_loop now rest pipeline
  end.

Definition updateTags_try (tags : list string) (durations : option Z)
    : prog unit :=
  settle (withSpan "cache.updateTags" (
    settle ensureConnected;;
    now ← read clock;
    pipeline ← update_loop now tags [];
    exec pipeline)).

Definition updateTags (tags : list string) (durations : option Z) : prog unit :=
  try_catch (updateTags_try tags durations) (fun _ => mret tt).

End Handler.

(** ** Running the handler

    An await ends with what the outside world decides: whether the round
    trip fails and how long it took.  A program run alone gives the
    sequential behaviour of one call; the scheduler interleaves the calls
    in flight at their awaits, as the event loop does. *)

Module Sched.

Import Handler.

Local Open Scope Z_scope.

Record label : Type := Label { fails : bool; elapsed : N }.

Definition quiet : label := Label false 0.

Inductive outcome (X : Type) : Type :=
| Blocked
| Settled (r : error + X) (w : World).

Arguments Blocked {X}.
Arguments Settled {X} r w.

Definition later (l : label) (w : World) : World :=
  with_clock (clock w + Z.of_N (elapsed l)) w.

Definition of_reply {X} (r : Redis.reply X) : error + X :=
  match r with
  | Redis.Ok a => inr a
  | Redis.WrongType => inl ReplyError
  end.

(** The end of an await.  A round trip that fails leaves the store as it
    was; a turn of the microtask queue takes no time; a promise of
    [pendingSets] that is not settled yet keeps its waiter blocked.  The
    promise of a command rejects when its round trip fails; the promise of
    [exec()] does not: it resolves with one pair of error and result for
    each command of the batch, which the handler does not look at. *)
Definition perform {X} (op : io X) (l : label) (w : World) : outcome X :=
  match op in io X return outcome X with
  | Tick => Settled (inr tt) w
  | AwaitPromise p =>
      if bool_decide (p ∈ settled w) then Settled (inr tt) w else Blocked
  | Connect =>
      Settled (if fails l then inl ConnectError else inr tt) (later l w)
  | StoreGet k =>
      let w := later l w in
      Settled (if fails l then inl StoreError
               else of_reply (Redis.get (clock w) (store w) k)) w
  | StoreSmembers k =>
      let w := later l w in
      Settled (if fails l then inl StoreError
               else of_reply (Redis.smembers (clock w) (store w) k)) w
  | StoreKeys pattern =>
      let w := later l w in
      Settled (if fails l then inl StoreError
               else inr (Redis.keys (clock w) (store w) pattern)) w
  | StoreExec cs =>
      let w := later l w in
      Settled (inr tt)
        (if fails l then w
         else with_store (Redis.exec (clock w) cs (store w)) w)
  end.

(** One call run alone, each await ended by the next label (a quiet one
    when the list is used up): the result or the error thrown, the final
    state and the labels left.  [None]: the call waits for ever. *)
Fixpoint run {A} (p : prog A) (ls : list label) (w : World)
    : option ((error + A) * World * list label) :=
  match p with
  | Ret a => Some (inr a, w, ls)
  | Throw e => Some (inl e, w, ls)
  | Do f k => let '(x, w') := f w in run (k x) ls w'
  | Await op k =>
      match perform op (hd quiet ls) w with
      | Blocked => None
      | Settled r w' => run (k r) (tl ls) w'
      end
  end.

(** The same with the rest of the process free to change the state in any
    way before each await ends. *)
Fixpoint run_among {A} (p : prog A) (ls : list (label * (World -> World)))
    (w : World) : option ((error + A) * World) :=
  match p with
  | Ret a => Some (inr a, w)
  | Throw e => Some (inl e, w)
  | Do f k => let '(x, w') := f w in run_among (k x) ls w'
  | Await op k =>
      let '(l, others) := hd (quiet, id) ls in
      match perform op l (others w) with
      | Blocked => None
      | Settled r w' => run_among (k r) (tl ls) w'
      end
  end.

(** *** The event loop *)

Inductive call : Type :=
| CallGet (cacheKey : string) (softTags : list string)
| CallSet (cacheKey : string) (pendingEntry : error + entry)
| CallRefreshTags
| CallGetExpiration (tags : list string)
| CallUpdateTags (tags : list string) (durations : option Z).

Inductive answer : Type :=
| AEntry (o : option entry)
| AUnit
| ANum (z : Z).

Definition body (c : call) : prog answer :=
  match c with
  | CallGet k ts => o ← get k ts; mret (AEntry o)
  | CallSet k pe => set k pe;; mret AUnit
  | CallRefreshTags => refreshTags;; mret AUnit
  | CallGetExpiration ts => z ← getExpiration ts; mret (ANum z)
  | CallUpdateTags ts d => updateTags ts d;; mret AUnit
  end.

(** The synchronous steps up to the next await. *)
Fixpoint start {A} (p : prog A) (w : World) : prog A * World :=
  match p with
  | Do f k => let '(x, w') := f w in start (k x) w'
  | _ => (p, w)
  end.

Definition resume {A} (p : prog A) (l : label) (w : World)
    : option (prog A * World) :=
  match p with
  | Await op k =>
      match perform op l w with
      | Blocked => None
      | Settled r w' => Some (start (k r) w')
      end
  | _ => None
  end.

Record config : Type := Config { world : World; tasks : list (prog answer) }.

Inductive event : Type :=
| Invoke (c : call)
| Resume (i : nat) (l : label).

(** A call runs up to its first await when it is made; a task goes on
    when the await it is at ends.  An event that cannot happen (no such
    task, a task that is done or still blocked) changes nothing. *)
Definition step (c : config) (ev : event) : config :=
  match ev with
  | Invoke cl =>
      let '(p, w) := start (body cl) (world c) in
      Config w (tasks c ++ [p])
  | Resume i l =>
      match tasks c !! i with
      | Some p =>
          match resume p l (world c) with
          | Some (p', w) => Config w (<[i := p']> (tasks c))
          | None => c
          end
      | None => c
      end
  end.

Definition steps (c : config) (evs : list event) : config :=
  fold_left step evs c.

(** Where a task stands. *)
Inductive status : Type :=
| Returned (a : answer)
| Threw (e : error)
| Waiting.

Definition status_of (p : prog answer) : status :=
  match p with
  | Ret a => Returned a
  | Throw e => Threw e
  | _ => Waiting
  end.

End Sched.

(** ** Measures and character classes used in the proofs about texts *)

Module Measures.

Import Decimal Json.

(** Bounded checks over all values below a bound, run by computation. *)
Definition below (n : nat) (P : N -> bool) : bool :=
  forallb (fun i => P (N.of_nat i)) (seq 0 n).

(** What may follow a number in a text: no digit, and no fraction or
    exponent. *)
Definition tail_ok (s : string) : bool :=
  negb (starts_with_digit s) && negb (starts_with is_frac_start s).

Definition num_start (c : ascii) : bool := is_digit c || Ascii.eqb c "-".

Definition value_start (c : ascii) : bool :=
  num_start c || Ascii.eqb c dquote || Ascii.eqb c "[" || Ascii.eqb c "{" ||
  Ascii.eqb c "n" || Ascii.eqb c "t" || Ascii.eqb c "f".

Fixpoint size (v : json) : nat :=
  match v with
  | JArr l => S (list_sum (map (fun x => S (size x)) l))
  | JObj m => S (list_sum (map (fun kv => S (size (snd kv))) m))
  | _ => 1
  end.

Definition member_text (kv : string * json) : string :=
  quote (fst kv) +:+ ":" +:+ stringify (snd kv).

Definition sizes (l : list json) : nat := list_sum (map (fun x => S (size x)) l).

Definition msizes (m : list (string * json)) : nat :=
  list_sum (map (fun kv => S (size (snd kv))) m).

End Measures.

(** ** Notions in which the properties of runs are stated *)

Module Notions.

Import Handler Sched.

Local Open Scope Z_scope.

(** The one await that can last for ever: on a promise of [pendingSets]. *)
Definition waits {X} (op : io X) : bool :=
  match op with
  | AwaitPromise _ => true
  | _ => false
  end.

(** A program with no such await on any path. *)
Fixpoint nonblocking {A} (p : prog A) : Prop :=
  match p with
  | Ret _ => True
  | Throw _ => True
  | Do f k => forall x, nonblocking (k x)
  | Await op k => waits op = false /\ forall r, nonblocking (k r)
  end.

(** The state and the labels left once [await ensureConnected()] is over. *)
Definition after_connect (ls : list label) (w : World) : World * list label :=
  if connected w then (w, tl ls)
  else (with_connected true
          (later (hd quiet ls) (with_connects (S (connects w)) w)),
        tl (tl ls)).

(** What [get] makes of the store's reply at time [now]. *)
Definition get_outcome (reply : error + option string) (now : Z) : option entry :=
  match reply with
  | inr (Some EmptyString) => None
  | inr (Some stored) =>
      match deserialize stored with
      | Some d =>
          if now >? d_timestamp d + d_revalidate d * 1000 then None
          else Some (entry_of d)
      | None => None
      end
  | _ => None
  end.

(** What [await readClient.get(key)] gives in the state [w], the clock
    of [w] being the time of the reply. *)
Definition store_get (l : label) (w : World) (key : string)
    : error + option string :=
  if fails l then inl StoreError
  else of_reply (Redis.get (clock w) (store w) key).

(** A run of [p] from a state in [I] ends in [I]. *)
Definition keeps (I : World -> Prop) {A} (p : prog A) : Prop :=
  forall ls w r w' ls', I w -> run p ls w = Some (r, w', ls') -> I w'.

(** The end of no await leaves [I]. *)
Definition steady (I : World -> Prop) : Prop :=
  forall X (op : io X) l w r w', I w -> perform op l w = Settled r w' -> I w'.

(** The connection flag is set and [n] rounds of [connect()] were made. *)
Definition linked (n : nat) (w : World) : Prop :=
  connected w = true /\ connects w = n.

(** No round of [connect()] yet, or one and the flag is set. *)
Definition connected_once (w : World) : Prop :=
  connects w = O \/ (connects w = 1%nat /\ connected w = true).

(** The map of timestamps once the tags [done] got the timestamp [now]. *)
Definition stamp (now : Z) (done : list string) (m : gmap string num)
    : gmap string num :=
  fold_left (fun m tag => <[tag := Int now]> m) done m.

(** The tags of [tags] whose member set [updateTags] has read when a read
    fails (all of them when none does), the reads being made one after the
    other from the state [w], with the labels [ls]. *)
Fixpoint read_before_failure (tags : list string) (ls : list label) (w : World)
    : list string :=
  match tags with
  | [] => []
  | tag :: rest =>
      match perform (StoreSmembers (TAGS_PREFIX +:+ tag)) (hd quiet ls) w with
      | Settled (inr _) w' => tag :: read_before_failure rest (tl ls) w'
      | _ => []
      end
  end.

(** What a call other than [set] leaves as it was; time only goes on. *)
Definition unchanged (w w' : World) : Prop :=
  pendingSets w' = pendingSets w /\ settled w' = settled w /\
  next_promise w' = next_promise w /\ clock w <= clock w'.

(** What [getExpiration([t])] answers. *)
Definition expiration (w : World) (tags : list string) : Z :=
  max_timestamp (tagTimestamps w) tags.

(** A program none of whose steps calls [connect()] or unsets the flag. *)
Fixpoint calm {A} (p : prog A) : Prop :=
  match p with
  | Ret _ => True
  | Throw _ => True
  | Do f k =>
      (forall w, connects (f w).2 = connects w /\
                 (connected w = true -> connected (f w).2 = true)) /\
      forall x, calm (k x)
  | Await op k => forall r, calm (k r)
  end.

(** A call made in the state [w] leaves a calm task at its first await,
    after [n] rounds of [connect()] in all. *)
Definition good_start {A} (p : prog A) (w : World) (n : nat) : Prop :=
  calm (start p w).1 /\ connects (start p w).2 = n /\
  (connected w = true -> connected (start p w).2 = true).

(** [await ensureConnected()] at the start of a call: one more round of
    [connect()] when the flag is not set, none when it is. *)
Definition rounds_after (w : World) : nat :=
  if connected w then connects w else S (connects w).

(** Calls made one after another, each when the one before is over, with
    some idle time in between. *)
Fixpoint session (calls : list (call * list label * N)) (w : World) : option World :=
  match calls with
  | [] => Some w
  | (c, ls, idle) :: rest =>
      match run (body c) ls (later (Label false idle) w) with
      | Some (_, w', _) => session rest w'
      | None => None
      end
  end.

(** The state a run ends in. *)
Definition final {A} (r : option ((error + A) * World * list label)) (w : World)
    : World :=
  match r with
  | Some (_, w', _) => w'
  | None => w
  end.

(** *** Notions for the further properties *)

(** No round trip fails. *)
Definition smooth (ls : list label) : Prop := Forall (fun l => fails l = false) ls.

(** Whether the producer of the entry and its stream deliver. *)
Definition delivers (pendingEntry : error + entry) : bool :=
  match pendingEntry with
  | inr e => negb (errored (value e))
  | inl _ => false
  end.

(** The key a command of a batch acts on. *)
Definition target (c : Redis.command) : string :=
  match c with
  | Redis.SETEX k _ _ => k
  | Redis.SADD k _ => k
  | Redis.EXPIRE k _ => k
  | Redis.DEL k => k
  | Redis.SET k _ => k
  end.

(** The two commands [set] adds to its batch for a tag (lines 212-216). *)
Definition tag_commands (key : string) (x : Z) (tag : string)
    : list Redis.command :=
  [Redis.SADD (TAGS_PREFIX +:+ tag) key; Redis.EXPIRE (TAGS_PREFIX +:+ tag) x].

(** The set of the tag [t] holds [key] and lives until [now + x * 1000]. *)
Definition listed (now x : Z) (key t : string) (st : gmap string Redis.slot)
    : Prop :=
  exists s,
    st !! (TAGS_PREFIX +:+ t)
    = Some (Redis.Slot (Redis.VSet s) (Some (now + x * 1000))) /\ key ∈ s.

(** The key of the set of the tag [t] does not hold a string at [now]. *)
Definition no_text (now : Z) (t : string) (st : gmap string Redis.slot) : Prop :=
  forall s d,
    Redis.live now st (TAGS_PREFIX +:+ t) <> Some (Redis.Slot (Redis.VString s) d).

(** The commands [updateTags] adds to its batch for a tag whose member set
    is [cacheKeys] (lines 307-314). *)
Definition invalidation (now : Z) (tag : string) (cacheKeys : list string)
    : list Redis.command :=
  map Redis.DEL cacheKeys
  ++ [Redis.DEL (TAGS_PREFIX +:+ tag);
      Redis.SET ((TAGS_PREFIX +:+ tag) +:+ ":timestamp") (Decimal.print_Z now)].

(** The timestamp [getExpiration] takes for a tag: [0] for a tag that has
    none, and for one whose timestamp is [NaN]. *)
Definition stamp_of (m : gmap string num) (tag : string) : Z :=
  match m !! tag with
  | Some (Int z) => z
  | _ => 0
  end.

(** [s.includes(pat)]. *)
Fixpoint has (pat s : string) : bool :=
  match Json.strip_prefix pat s with
  | Some _ => true
  | None =>
      match s with
      | String _ s' => has pat s'
      | EmptyString => false
      end
  end.

(** The tag [refreshTags] takes from the key of a timestamp (line 241). *)
Definition tag_of (tagKey : string) : string :=
  remove_first ":timestamp" (remove_first TAGS_PREFIX tagKey).

(** What a call that does not write to the store leaves as it was. *)
Definition untouched (w w' : World) : Prop :=
  store w' = store w /\ batches w' = batches w /\ unchanged w w'.

(** The labels left when [get] has awaited the promise it found. *)
Definition after_promise (o : option positive) (ls : list label) : list label :=
  match o with
  | Some _ => tl ls
  | None => ls
  end.

(** The write registered for [k] under the promise [p] is not over. *)
Definition held (k : string) (p : positive) (w : World) : Prop :=
  pendingSets w !! k = Some p /\ p ∉ settled w.

(** The same, [p] being a promise that was handed out. *)
Definition pending (k : string) (p : positive) (w : World) : Prop :=
  held k p w /\ (p < next_promise w)%positive.

(** An await on the promise [p]. *)
Definition awaits_on (p : positive) {X} (op : io X) : Prop :=
  match op with
  | AwaitPromise p' => p' = p
  | _ => False
  end.

(** A task that is over. *)
Definition over {A} (q : prog A) : Prop :=
  match q with
  | Ret _ => True
  | Throw _ => True
  | _ => False
  end.

(** No step of the program leaves [J], from any state in [J] it may be
    in. *)
Fixpoint safe (J : World -> Prop) {A} (q : prog A) : Prop :=
  match q with
  | Ret _ => True
  | Throw _ => True
  | Do f k => forall w, J w -> J (f w).2 /\ safe J (k (f w).1)
  | Await op k => forall r, safe J (k r)
  end.

(** An await that asks nothing of the key space of the store. *)
Definition off_store {X} (op : io X) : bool :=
  match op with
  | Tick => true
  | Connect => true
  | AwaitPromise _ => true
  | _ => false
  end.

(** A task at an await that asks nothing of the key space of the store. *)
Definition at_off_store {A} (q : prog A) : Prop :=
  match q with
  | Await op _ => off_store op = true
  | _ => False
  end.

(** The same for a program that does not throw and asks the store
    nothing. *)
Fixpoint passes (J : World -> Prop) {A} (q : prog A) : Prop :=
  match q with
  | Ret _ => True
  | Throw _ => False
  | Do f k => forall w, J w -> J (f w).2 /\ passes J (k (f w).1)
  | Await op k => off_store op = true /\ forall r, passes J (k r)
  end.

(** On every path the program comes to an await on the promise [p]
    before it is over; it asks the store nothing before that, and no step
    before that leaves [J]. *)
Fixpoint blocks (J : World -> Prop) (p : positive) {A} (q : prog A) : Prop :=
  match q with
  | Ret _ => False
  | Throw _ => False
  | Do f k => forall w, J w -> J (f w).2 /\ blocks J p (k (f w).1)
  | Await op k =>
      awaits_on p op \/ (off_store op = true /\ forall r, blocks J p (k r))
  end.

(** The only steps that leave [J] are last steps: the program is over
    right after them. *)
Fixpoint closing (J : World -> Prop) {A} (q : prog A) : Prop :=
  match q with
  | Ret _ => True
  | Throw _ => True
  | Do f k =>
      forall w, J w -> (J (f w).2 /\ closing J (k (f w).1)) \/ over (k (f w).1)
  | Await op k => forall r, closing J (k r)
  end.

(** An event that is not a call of [set] for the key [k]. *)
Definition no_write_to (k : string) (ev : event) : Prop :=
  match ev with
  | Invoke (CallSet k' _) => k' <> k
  | _ => True
  end.

(** The first task is a write to [k] and the second a read of [k] that
    cannot go on before the write is over; the other tasks leave the
    promise of the write alone. *)
Definition read_behind_write (k : string) (p : positive) (c : config) : Prop :=
  exists q0 q1 rest,
    tasks c = q0 :: q1 :: rest /\
    (over q0 \/
     (pending k p (world c) /\ closing (pending k p) q0 /\
      blocks (pending k p) p q1 /\ Forall (safe (pending k p)) rest)).

(** The store holds the text [text] under [key], or nothing. *)
Definition recorded_in (key text : string) (st : gmap string Redis.slot)
    : Prop :=
  st !! key = None \/
  exists dl, st !! key = Some (Redis.Slot (Redis.VString text) dl).

Definition recorded (key text : string) (w : World) : Prop :=
  recorded_in key text (store w).

(** A command that leaves what is under [key], or deletes it. *)
Definition spares (key : string) (c : Redis.command) : Prop :=
  match c with
  | Redis.DEL _ => True
  | _ => target c <> key
  end.

Definition batch_spares (key : string) {X} (op : io X) : Prop :=
  match op with
  | StoreExec cs => Forall (spares key) cs
  | _ => True
  end.

(** A program whose batches leave what is under [key], or delete it. *)
Fixpoint onlooker (key : string) {A} (q : prog A) : Prop :=
  match q with
  | Ret _ => True
  | Throw _ => True
  | Do f k => forall w, store (f w).2 = store w /\ onlooker key (k (f w).1)
  | Await op k => batch_spares key op /\ forall r, onlooker key (k r)
  end.

(** A program that writes nothing to the store and whose outcome is in
    [post] when its round trips to the store are made in states of [R]. *)
Fixpoint reader (R : World -> Prop) {A} (post : error + A -> Prop) (q : prog A)
    : Prop :=
  match q with
  | Ret a => post (inr a)
  | Throw e => post (inl e)
  | Do f k => forall w, store (f w).2 = store w /\ reader R post (k (f w).1)
  | Await op k =>
      if off_store op then forall r, reader R post (k r)
      else forall l w r w',
             R w -> perform op l w = Settled r w' ->
             store w' = store w /\ reader R post (k r)
  end.

(** A program that goes on by turns of the microtask queue only, writes
    nothing to the store and does not leave [J]. *)
Fixpoint ticking (J : World -> Prop) {A} (q : prog A) : Prop :=
  match q with
  | Ret _ => True
  | Throw _ => True
  | Do f k =>
      forall w, store (f w).2 = store w /\ (J w -> J (f w).2) /\
                ticking J (k (f w).1)
  | Await op k => off_store op = true /\ forall r, ticking J (k r)
  end.

(** The same, but for last steps, which may leave [J]: the program is over
    right after them. *)
Fixpoint finisher (J : World -> Prop) {A} (q : prog A) : Prop :=
  match q with
  | Ret _ => True
  | Throw _ => True
  | Do f k =>
      forall w, store (f w).2 = store w /\
                (J w -> J (f w).2 \/ over (k (f w).1)) /\
                finisher J (k (f w).1)
  | Await op k => off_store op = true /\ forall r, finisher J (k r)
  end.

(** A batch that leaves [text] under [key]. *)
Definition records (key text : string) (cs : list Redis.command) : Prop :=
  forall now (st : gmap string Redis.slot),
    exists dl, Redis.exec now cs st !! key
               = Some (Redis.Slot (Redis.VString text) dl).

(** A write on its way to its batch: it is not over before the batch went
    through, the batch leaves [text] under [key], and what is left of the
    write then is in [fin]. *)
Fixpoint writer (J : World -> Prop) (key text : string)
    (fin : forall A, prog A -> Prop) {A} (q : prog A) : Prop :=
  match q with
  | Ret _ => False
  | Throw _ => False
  | Do f k => forall w, J w -> J (f w).2 /\ writer J key text fin (k (f w).1)
  | Await op k =>
      match op in io X return ((error + X -> prog A) -> Prop) with
      | StoreExec cs => fun k => records key text cs /\ fin A (k (inr tt))
      | StoreGet _ => fun _ => False
      | StoreSmembers _ => fun _ => False
      | StoreKeys _ => fun _ => False
      | _ => fun k => forall r, writer J key text fin (k r)
      end k
  end.

(** An event that is not the failure of a round trip of the first
    task. *)
Definition first_unfailed (ev : event) : Prop :=
  match ev with
  | Resume O l => fails l = false
  | _ => True
  end.

(** What a read behind the write of [ent] may answer. *)
Definition answers (ent : entry) (r : error + answer) : Prop :=
  r = inr (AEntry None) \/ r = inr (AEntry (Some ent)).

(** The first task is a write of [text] under [key], registered under the
    promise [p] for the key [k], the second a read behind it, and the
    others leave the promise and the record alone: the read has not asked
    the store anything while the write is on its way, and the record is
    there, or nothing, from the batch of the write on. *)
Definition read_sees_write (k : string) (p : positive) (key text : string)
    (ent : entry) (c : config) : Prop :=
  exists q0 q1 rest,
    tasks c = q0 :: q1 :: rest /\
    reader (recorded key text) (answers ent) q1 /\
    Forall (onlooker key) rest /\
    ((pending k p (world c) /\
      writer (pending k p) key text (fun A => @finisher (pending k p) A) q0 /\
      blocks (pending k p) p q1 /\ Forall (safe (pending k p)) rest) \/
     (pending k p (world c) /\ recorded key text (world c) /\
      finisher (pending k p) q0 /\ blocks (pending k p) p q1 /\
      Forall (safe (pending k p)) rest) \/
     (over q0 /\ recorded key text (world c))).

End Notions.

(** ** The states and inputs at which the claims are tried *)

Module Samples.

Import Handler Sched Notions.

Local Open Scope Z_scope.

(** A connected process with nothing cached, at time 100. *)
Definition w_idle : World := MkWorld true ∅ ∅ ∅ 1%positive ∅ 100 1 [].

(** The labels of an [updateTags] of one tag whose batch fails: the turn
    after [ensureConnected], the read of the member set, the batch. *)
Definition ls_batch_fails : list label := [quiet; quiet; Label true 0].

(** The labels of an [updateTags] of two tags whose second read fails:
    the turn after [ensureConnected], the read of the first member set,
    the read of the second. *)
Definition ls_read_fails : list label := [quiet; quiet; Label true 0].

(** A record written at time 0 with ten seconds to live and a soft window
    of one second, and a process that holds it at time 5000. *)
Definition d_soft : data := Data "YWJj" ["wines"] false 0 10 1.

Definition w_soft : World :=
  MkWorld true ∅ ∅ ∅ 1%positive
    {[ "nextjs:cache:k" :=
         Redis.Slot (Redis.VString (serialize d_soft)) (Some 10000) ]}
    5000 1 [].

(** A process that holds the record [w1] and has it in the set of the tag
    [wines]. *)
Definition w_tagged : World :=
  MkWorld true ∅ ∅ ∅ 1%positive
    (<[ "nextjs:tags:wines" :=
          Redis.Slot (Redis.VSet {[ "nextjs:cache:w1" ]}) (Some 3661000) ]>
       {[ "nextjs:cache:w1" :=
            Redis.Slot (Redis.VString (serialize d_soft)) (Some 3601000) ]})
    1000 1 [].

(** A process whose store holds a text that is not JSON under the key
    [k]. *)
Definition w_garbled : World :=
  MkWorld true ∅ ∅ ∅ 1%positive
    {[ "nextjs:cache:k" := Redis.Slot (Redis.VString "{value:") None ]}
    100 1 [].

(** Two entries for one key. *)
Definition e_first : entry := Entry (Stream [[x61]] false) [] false 100 60 60.
Definition e_second : entry := Entry (Stream [[x62]] false) [] false 100 60 60.

(** Two calls of [set] for the key [k], the first of which runs to its
    end (seven awaits) while the second stays at its first await. *)
Definition two_writers : list event :=
  [Invoke (CallSet "k" (inr e_first)); Invoke (CallSet "k" (inr e_second))]
  ++ repeat (Resume 0 quiet) 7.

(** An entry whose two chunks hold bytes that are no printable characters,
    written at time 1000. *)
Definition e_binary : entry :=
  Entry (Stream [[x00; xff; x80]; [x0a; xfe]] false) [] false 1000 3600 3600.

(** An entry of two chunks, tagged [wines], written at time 1000. *)
Definition e_wine : entry :=
  Entry (Stream [[x61]; [x62; x63]] false) ["wines"] false 1000 3600 3600.

(** A fresh process after [set("w1", e_wine)] at time 1000. *)
Definition w_wine : World :=
  final (run (set "w1" (inr e_wine)) [] (initial ∅ 1000)) (initial ∅ 1000).

(** The same process after [updateTags(["wines"])]. *)
Definition w_wine_gone : World :=
  final (run (updateTags_try ["wines"] None) [] (later (Label false 0) w_wine))
        w_wine.

(** A fresh process after [updateTags(["wines"])] at time 1234. *)
Definition w_invalidated : World :=
  final (run (updateTags_try ["wines"] None) [] (initial ∅ 1234)) (initial ∅ 1234).

(** Another process on the same store, at time 5000, before and after
    [refreshTags()]. *)
Definition w_other : World := initial (store w_invalidated) 5000.

Definition w_refreshed : World := final (run refreshTags_try [] w_other) w_other.

(** The process [w_tagged] after [updateTags(["wines"])]. *)
Definition w_untagged : World :=
  final (run (updateTags_try ["wines"] None) [] w_tagged) w_tagged.

(** A process in which a write to the key [k] is in flight, under the
    promise 1. *)
Definition w_writing : World :=
  MkWorld true ∅ {[ "k" := 1%positive ]} ∅ 2%positive ∅ 100 1 [].

End Samples.

(** ** Base64: decoding undoes encoding *)

Module Base64Facts.

Import Base64 Measures.

Lemma below_spec n P : below n P = true -> forall x, x < N.of_nat n -> P x = true.
Proof.
  unfold below. rewrite forallb_forall. intros H x Hx.
  rewrite <- (N2Nat.id x). apply H. apply in_seq. lia.
Qed.

Lemma to_N_lt (b : byte) : Byte.to_N b < 256.
Proof. pose proof (Byte.to_N_bounded b). lia. Qed.

Lemma byte_of_to_N (b : byte) : byte_of_N (Byte.to_N b) = b.
Proof. unfold byte_of_N. now rewrite Byte.of_to_N. Qed.

Lemma sextet_char_inv n : n < 64 -> sextet_of_char (char_of_sextet n) = Some n.
Proof.
  intros Hn.
  assert (H : below 64 (fun n =>
            match sextet_of_char (char_of_sextet n) with
            | Some m => m =? n
            | None => false
            end) = true) by (vm_compute; reflexivity).
  pose proof (below_spec _ _ H n Hn) as Hs. simpl in Hs.
  destruct (sextet_of_char (char_of_sextet n)); [|discriminate].
  apply N.eqb_eq in Hs. now subst.
Qed.

Lemma groups_lt a b :
  a < 256 -> b < 256 ->
  group1 a < 64 /\ group2 a b < 64 /\ group3 a b < 64 /\ group4 a < 64.
Proof.
  intros Ha Hb.
  assert (H : below 256 (fun a => below 256 (fun b =>
            (group1 a <? 64) && (group2 a b <? 64) &&
            (group3 a b <? 64) && (group4 a <? 64))) = true)
    by (vm_compute; reflexivity).
  pose proof (below_spec _ _ (below_spec _ _ H a Ha) b Hb) as Hs.
  simpl in Hs. repeat (apply andb_prop in Hs as [Hs ?]).
  repeat split; now apply N.ltb_lt.
Qed.

Lemma octets_inv a b :
  a < 256 -> b < 256 ->
  octet1 (group1 a) (group2 a b) = a /\
  N.land (group2 a b) 15 = N.shiftr b 4 /\
  N.lor (N.shiftl (N.shiftr a 4) 4) (N.shiftr (group3 a b) 2) = a /\
  octet3 (group3 a b) (group4 b) = b.
Proof.
  intros Ha Hb.
  assert (H : below 256 (fun a => below 256 (fun b =>
            (octet1 (group1 a) (group2 a b) =? a) &&
            (N.land (group2 a b) 15 =? N.shiftr b 4) &&
            (N.lor (N.shiftl (N.shiftr a 4) 4) (N.shiftr (group3 a b) 2) =? a) &&
            (octet3 (group3 a b) (group4 b) =? b))) = true)
    by (vm_compute; reflexivity).
  pose proof (below_spec _ _ (below_spec _ _ H a Ha) b Hb) as Hs.
  simpl in Hs. repeat (apply andb_prop in Hs as [Hs ?]).
  repeat split; now apply N.eqb_eq.
Qed.

Lemma octet2_inv a b c :
  a < 256 -> b < 256 -> c < 256 ->
  octet2 (group2 a b) (group3 b c) = b.
Proof.
  intros Ha Hb Hc. unfold octet2.
  destruct (octets_inv a b Ha Hb) as (_ & -> & _).
  now destruct (octets_inv b c Hb Hc) as (_ & _ & -> & _).
Qed.

Lemma list_ind3 {A} (P : list A -> Prop) :
  P [] -> (forall a, P [a]) -> (forall a b, P [a; b]) ->
  (forall a b c l, P l -> P (a :: b :: c :: l)) ->
  forall l, P l.
Proof.
  intros H0 H1 H2 H3.
  fix IH 1. intros [|a [|b [|c l]]]; [exact H0|apply H1|apply H2|].
  apply H3, IH.
Qed.

(** Decoding an encoded buffer gives the buffer back. *)
Lemma decode_encode (bs : list byte) : decode (encode bs) = bs.
Proof.
  induction bs as [|a|a b|a b c l IH] using list_ind3; [reflexivity| | |].
  - pose proof (to_N_lt a) as Ha.
    destruct (groups_lt (Byte.to_N a) 0 Ha eq_refl) as (G1 & G2 & _).
    cbn [encode decode]. rewrite !sextet_char_inv by assumption.
    destruct (octets_inv (Byte.to_N a) 0 Ha eq_refl) as (-> & _).
    now rewrite byte_of_to_N.
  - pose proof (to_N_lt a) as Ha. pose proof (to_N_lt b) as Hb.
    destruct (groups_lt (Byte.to_N a) (Byte.to_N b) Ha Hb) as (G1 & G2 & _).
    destruct (groups_lt (Byte.to_N b) 0 Hb eq_refl) as (_ & _ & G3 & _).
    cbn [encode decode]. rewrite !sextet_char_inv by assumption.
    destruct (octets_inv (Byte.to_N a) (Byte.to_N b) Ha Hb) as (-> & _).
    rewrite (octet2_inv _ _ 0 Ha Hb eq_refl).
    now rewrite !byte_of_to_N.
  - pose proof (to_N_lt a) as Ha. pose proof (to_N_lt b) as Hb.
    pose proof (to_N_lt c) as Hc.
    destruct (groups_lt (Byte.to_N a) (Byte.to_N b) Ha Hb) as (G1 & G2 & _).
    destruct (groups_lt (Byte.to_N b) (Byte.to_N c) Hb Hc) as (_ & _ & G3 & _).
    destruct (groups_lt (Byte.to_N c) 0 Hc eq_refl) as (_ & _ & _ & G4).
    cbn [encode decode]. rewrite !sextet_char_inv by assumption.
    destruct (octets_inv (Byte.to_N a) (Byte.to_N b) Ha Hb) as (-> & _).
    rewrite (octet2_inv _ _ _ Ha Hb Hc).
    destruct (octets_inv (Byte.to_N b) (Byte.to_N c) Hb Hc) as (_ & _ & _ & ->).
    now rewrite !byte_of_to_N, IH.
Qed.

End Base64Facts.

(** ** Decimal integers: reading undoes printing *)

Module DecimalFacts.

Import Decimal Measures.

Lemma digit_char_ok d : d < 10 -> is_digit (digit_char d) = true /\ digit_val (digit_char d) = d.
Proof.
  intros Hd.
  assert (H : below 10 (fun d =>
            is_digit (digit_char d) && (digit_val (digit_char d) =? d)) = true)
    by (vm_compute; reflexivity).
  pose proof (Base64Facts.below_spec _ _ H d Hd) as Hs. simpl in Hs.
  apply andb_prop in Hs as [? ?%N.eqb_eq]. now split.
Qed.

Lemma digit_char_nonzero d : 0 < d -> d < 10 -> Ascii.eqb (digit_char d) "0" = false.
Proof.
  intros Hp Hd.
  assert (H : below 10 (fun d =>
            (d =? 0) || negb (Ascii.eqb (digit_char d) "0")) = true)
    by (vm_compute; reflexivity).
  pose proof (Base64Facts.below_spec _ _ H d Hd) as Hs. simpl in Hs.
  apply orb_prop in Hs as [Hs%N.eqb_eq|Hs]; [lia|].
  now apply negb_true_iff in Hs.
Qed.

Lemma print_aux_app fuel : forall n acc rest,
  print_aux fuel n acc +:+ rest = print_aux fuel n (acc +:+ rest).
Proof.
  induction fuel as [|fuel IH]; intros n acc rest; simpl; [reflexivity|].
  destruct (n <? 10); [reflexivity|]. now rewrite IH.
Qed.

Lemma read_digits_print fuel : forall n,
  n < 10 ^ N.of_nat fuel ->
  exists k, forall a s,
    read_digits a (print_aux fuel n s) = read_digits (a * 10 ^ k + n) s.
Proof.
  induction fuel as [|fuel IH]; intros n Hn.
  - exists 0. intros a s. simpl in Hn.
    replace (a * 10 ^ 0 + n) with a by lia. reflexivity.
  - cbn [print_aux]. destruct (N.ltb_spec n 10) as [Hlt|Hge].
    + exists 1. intros a s. destruct (digit_char_ok n Hlt) as [Hd Hv].
      cbn [read_digits]. rewrite Hd, Hv. f_equal; lia.
    + assert (Hq : n / 10 < 10 ^ N.of_nat fuel).
      { apply N.Div0.div_lt_upper_bound.
        replace (10 * 10 ^ N.of_nat fuel) with (10 ^ N.of_nat (S fuel)); [assumption|].
        rewrite Nat2N.inj_succ, N.pow_succ_r'. reflexivity. }
      destruct (IH _ Hq) as [k Hk]. exists (N.succ k). intros a s.
      rewrite Hk. cbn [read_digits].
      assert (Hm : n mod 10 < 10) by (apply N.mod_lt; lia).
      destruct (digit_char_ok _ Hm) as [Hd Hv]. rewrite Hd, Hv. f_equal.
      rewrite N.pow_succ_r'. pose proof (N.div_mod n 10). lia.
Qed.

Lemma print_aux_head fuel : forall n acc,
  0 < n -> n < 10 ^ N.of_nat fuel ->
  exists c r, print_aux fuel n acc = String c r /\
              is_digit c = true /\ Ascii.eqb c "0" = false.
Proof.
  induction fuel as [|fuel IH]; intros n acc Hp Hn.
  - simpl in Hn. lia.
  - cbn [print_aux]. destruct (N.ltb_spec n 10) as [Hlt|Hge].
    + exists (digit_char n), acc. split; [reflexivity|]. split.
      * now apply digit_char_ok.
      * now apply digit_char_nonzero.
    + apply IH.
      * apply N.div_str_pos. lia.
      * apply N.Div0.div_lt_upper_bound.
        replace (10 * 10 ^ N.of_nat fuel) with (10 ^ N.of_nat (S fuel)); [assumption|].
        rewrite Nat2N.inj_succ, N.pow_succ_r'. reflexivity.
Qed.

Lemma print_N_fuel n : n < 10 ^ N.of_nat (S (N.to_nat (N.log2 n))).
Proof.
  rewrite Nat2N.inj_succ, N2Nat.id.
  destruct (N.eq_dec n 0) as [->|Hz]; [reflexivity|].
  apply N.lt_le_trans with (2 ^ N.succ (N.log2 n)).
  - apply N.log2_spec. lia.
  - apply N.pow_le_mono_l. lia.
Qed.

Lemma read_digits_stop a s : starts_with_digit s = false -> read_digits a s = (a, s).
Proof. destruct s as [|c r]; simpl; [reflexivity|]. now intros ->. Qed.

Lemma print_N_app n rest :
  print_N n +:+ rest = print_aux (S (N.to_nat (N.log2 n))) n rest.
Proof. unfold print_N. now rewrite print_aux_app. Qed.

Lemma read_digits_print_N n rest :
  starts_with_digit rest = false ->
  read_digits 0 (print_N n +:+ rest) = (n, rest).
Proof.
  intros Hr. rewrite print_N_app.
  destruct (read_digits_print _ n (print_N_fuel n)) as [k Hk].
  rewrite Hk. now apply read_digits_stop.
Qed.

Lemma print_N_head n rest :
  exists c r, print_N n +:+ rest = String c r /\ is_digit c = true /\
              (Ascii.eqb c "0" = true -> r = rest).
Proof.
  rewrite print_N_app. destruct (N.eq_dec n 0) as [->|Hz].
  - exists "0"%char, rest. repeat split; reflexivity.
  - destruct (print_aux_head _ n rest ltac:(lia) (print_N_fuel n))
      as (c & r & -> & Hd & Hnz).
    exists c, r. repeat split; [assumption|]. intros H. congruence.
Qed.

End DecimalFacts.

(** ** JSON: parsing undoes printing *)

Module JsonFacts.

Import Decimal DecimalFacts Json Measures.

Ltac ascii_cases c := destruct c as [[|] [|] [|] [|] [|] [|] [|] [|]].

Lemma append_assoc (a b c : string) : (a +:+ b) +:+ c = a +:+ (b +:+ c).
Proof. induction a as [|x a IH]; cbn [String.append]; [reflexivity|]. now rewrite IH. Qed.

Lemma append_nil_r (a : string) : a +:+ "" = a.
Proof. induction a as [|x a IH]; cbn [String.append]; [reflexivity|]. now rewrite IH. Qed.

Lemma length_append (a b : string) :
  String.length (a +:+ b) = (String.length a + String.length b)%nat.
Proof.
  induction a as [|x a IH]; cbn [String.append String.length]; [reflexivity|].
  now rewrite IH.
Qed.

Lemma digit_not_minus c : is_digit c = true -> Ascii.eqb c "-" = false.
Proof. ascii_cases c; vm_compute; intros H; (discriminate H || reflexivity). Qed.

Lemma digit_num_start c : is_digit c = true -> num_start c = true.
Proof. unfold num_start. now intros ->. Qed.

Lemma num_start_value c : num_start c = true -> value_start c = true.
Proof. unfold value_start. now intros ->. Qed.

Lemma num_start_tests c :
  num_start c = true ->
  Ascii.eqb c dquote = false /\ Ascii.eqb c "[" = false /\
  Ascii.eqb c "{" = false /\ Ascii.eqb "n" c = false /\
  Ascii.eqb "t" c = false /\ Ascii.eqb "f" c = false.
Proof.
  ascii_cases c; vm_compute; intros H;
    (discriminate H || (repeat split; reflexivity)).
Qed.

Lemma value_start_tests c :
  value_start c = true ->
  is_ws c = false /\ Ascii.eqb "]" c = false /\ Ascii.eqb "}" c = false.
Proof.
  ascii_cases c; vm_compute; intros H;
    (discriminate H || (repeat split; reflexivity)).
Qed.

Lemma parse_unsigned_print n rest :
  tail_ok rest = true -> parse_unsigned (print_N n +:+ rest) = Some (n, rest).
Proof.
  intros [Hd Hf]%andb_prop.
  apply negb_true_iff in Hd. apply negb_true_iff in Hf.
  pose proof (read_digits_print_N n rest Hd) as Hr.
  destruct (print_N_head n rest) as (c & r & E & Hc & Hz).
  rewrite E in *. unfold parse_unsigned. rewrite Hc.
  destruct (Ascii.eqb c "0") eqn:Ez.
  - rewrite (Hz eq_refl), Hd. cbn [andb]. rewrite (Hz eq_refl) in Hr.
    now rewrite Hr, Hf.
  - cbn [andb]. now rewrite Hr, Hf.
Qed.

Lemma parse_number_print z rest :
  tail_ok rest = true -> parse_number (print_Z z +:+ rest) = Some (z, rest).
Proof.
  intros Hr. destruct z as [|p|p].
  - change (print_Z 0) with (print_N 0).
    pose proof (parse_unsigned_print 0 rest Hr) as Hu.
    destruct (print_N_head 0 rest) as (c & r & E & Hc & _).
    rewrite E in *. unfold parse_number.
    now rewrite (digit_not_minus c Hc), Hu.
  - change (print_Z (Z.pos p)) with (print_N (N.pos p)).
    pose proof (parse_unsigned_print (N.pos p) rest Hr) as Hu.
    destruct (print_N_head (N.pos p) rest) as (c & r & E & Hc & _).
    rewrite E in *. unfold parse_number.
    now rewrite (digit_not_minus c Hc), Hu.
  - cbn [print_Z String.append parse_number].
    change (Ascii.eqb "-" "-") with true. cbv iota.
    now rewrite (parse_unsigned_print (N.pos p) rest Hr).
Qed.

Lemma print_Z_head z rest :
  exists c r, print_Z z +:+ rest = String c r /\ num_start c = true.
Proof.
  destruct z as [|p|p].
  - destruct (print_N_head 0 rest) as (c & r & E & Hc & _).
    exists c, r. split; [exact E|now apply digit_num_start].
  - destruct (print_N_head (N.pos p) rest) as (c & r & E & Hc & _).
    exists c, r. split; [exact E|now apply digit_num_start].
  - eexists _, _. split; [reflexivity|reflexivity].
Qed.

Lemma parse_string_escape_char c t x rest :
  parse_string t = Some (x, rest) ->
  parse_string (escape_char c +:+ t) = Some (String c x, rest).
Proof.
  intros H.
  ascii_cases c;
    match goal with
    | |- context [escape_char ?c] =>
        let e := eval vm_compute in (escape_char c) in
        change (escape_char c) with e
    end;
    simpl; rewrite H; reflexivity.
Qed.

Lemma parse_string_escape x rest :
  parse_string (escape x +:+ String dquote rest) = Some (x, rest).
Proof.
  induction x as [|c x IH]; [reflexivity|].
  cbn [escape]. rewrite append_assoc. now apply parse_string_escape_char.
Qed.

Lemma quote_app s rest :
  quote s +:+ rest = String dquote (escape s +:+ String dquote rest).
Proof. unfold quote. cbn [String.append]. now rewrite append_assoc. Qed.

Lemma arr_text l rest :
  stringify (JArr l) +:+ rest =
  String "[" (String.concat "," (map stringify l) +:+ String "]" rest).
Proof. cbn [stringify]. simpl. now rewrite append_assoc. Qed.

Lemma obj_text m rest :
  stringify (JObj m) +:+ rest =
  String "{" (String.concat "," (map member_text m) +:+ String "}" rest).
Proof. cbn [stringify]. simpl. now rewrite append_assoc. Qed.

Lemma concat_cons2 (x y : string) l rest :
  String.concat "," (x :: y :: l) +:+ rest =
  x +:+ String "," (String.concat "," (y :: l) +:+ rest).
Proof.
  change (String.concat "," (x :: y :: l))
    with (x +:+ "," +:+ String.concat "," (y :: l)).
  now rewrite append_assoc.
Qed.

Lemma stringify_head v rest :
  exists c r, stringify v +:+ rest = String c r /\ value_start c = true.
Proof.
  destruct v as [|[|]|z|s|l|m].
  - now eexists _, _.
  - now eexists _, _.
  - now eexists _, _.
  - destruct (print_Z_head z rest) as (c & r & E & H).
    exists c, r. split; [exact E|now apply num_start_value].
  - cbn [stringify]. rewrite quote_app. now eexists _, _.
  - rewrite arr_text. now eexists _, _.
  - rewrite obj_text. now eexists _, _.
Qed.

Lemma size_pos v : (1 <= size v)%nat.
Proof. destruct v; simpl; lia. Qed.

Lemma skip_ws_head c r : is_ws c = false -> skip_ws (String c r) = String c r.
Proof. intros H. cbn [skip_ws]. now rewrite H. Qed.

Lemma tail_ok_sep c r :
  Ascii.eqb c "," || Ascii.eqb c "]" || Ascii.eqb c "}" = true ->
  tail_ok (String c r) = true.
Proof. ascii_cases c; vm_compute; intros H; (discriminate H || reflexivity). Qed.

Lemma parse_stringify_fuel fuel :
  (forall v rest, (size v <= fuel)%nat -> tail_ok rest = true ->
     parse_value fuel (stringify v +:+ rest) = Some (v, rest)) /\
  (forall v l rest, (S (size v) + sizes l <= fuel)%nat ->
     parse_elems fuel
       (String.concat "," (map stringify (v :: l)) +:+ String "]" rest)
     = Some (v :: l, rest)) /\
  (forall kv m rest, (S (size (snd kv)) + msizes m <= fuel)%nat ->
     parse_members fuel
       (String.concat "," (map member_text (kv :: m)) +:+ String "}" rest)
     = Some (kv :: m, rest)).
Proof.
  induction fuel as [|f (IHv & IHe & IHm)].
  { repeat split; intros; exfalso; [pose proof (size_pos v)|..]; lia. }
  repeat split.
  - intros v rest Hs Ht. destruct v as [|[|]|z|s|l|m].
    + reflexivity.
    + reflexivity.
    + reflexivity.
    + destruct (print_Z_head z rest) as (c & r & E & Hc).
      pose proof (parse_number_print z rest Ht) as Hn.
      cbn [stringify]. rewrite E in *.
      destruct (num_start_tests c Hc) as (T1 & T2 & T3 & T4 & T5 & T6).
      destruct (value_start_tests c (num_start_value c Hc)) as (Hws & _).
      cbn [parse_value]. rewrite (skip_ws_head c r Hws), T1, T2, T3.
      cbn [strip_prefix]. now rewrite T4, T5, T6, Hn.
    + cbn [stringify]. rewrite quote_app. cbn [parse_value].
      rewrite skip_ws_head by reflexivity.
      change (Ascii.eqb dquote dquote) with true. cbv iota.
      now rewrite parse_string_escape.
    + rewrite arr_text. cbn [parse_value].
      rewrite skip_ws_head by reflexivity.
      change (Ascii.eqb "[" dquote) with false.
      change (Ascii.eqb "[" "[") with true. cbv iota.
      destruct l as [|v l]; [reflexivity|].
      destruct (stringify_head v
                  (match l with
                   | [] => String "]" rest
                   | _ => String "," (String.concat "," (map stringify l) +:+ String "]" rest)
                   end)) as (c & r & E & Hc).
      destruct (value_start_tests c Hc) as (Hws & T1 & _).
      assert (Et : String.concat "," (map stringify (v :: l)) +:+ String "]" rest
                   = String c r).
      { rewrite <- E. destruct l; [reflexivity|]. cbn [map]. apply concat_cons2. }
      unfold strip_char at 1. rewrite Et, (skip_ws_head c r Hws), T1, <- Et.
      rewrite IHe; [reflexivity|]. cbn [size] in Hs. fold (sizes (v :: l)) in Hs.
      unfold sizes, list_sum in *. cbn [map fold_right] in Hs. lia.
    + rewrite obj_text. cbn [parse_value].
      rewrite skip_ws_head by reflexivity.
      change (Ascii.eqb "{" dquote) with false.
      change (Ascii.eqb "{" "[") with false.
      change (Ascii.eqb "{" "{") with true. cbv iota.
      destruct m as [|kv m]; [reflexivity|].
      assert (Et : exists r,
                 String.concat "," (map member_text (kv :: m)) +:+ String "}" rest
                 = String dquote r).
      { destruct m; cbn [map]; [|rewrite concat_cons2];
          unfold member_text at 1; rewrite quote_app; now eexists. }
      destruct Et as [r Et].
      unfold strip_char at 1. rewrite Et. rewrite skip_ws_head by reflexivity.
      change (Ascii.eqb "}" dquote) with false. cbv iota. rewrite <- Et.
      rewrite IHm; [reflexivity|]. cbn [size] in Hs. fold (msizes (kv :: m)) in Hs.
      unfold msizes, list_sum in *. cbn [map fold_right] in Hs. lia.
  - intros v l rest Hs. cbn [parse_elems].
    destruct l as [|v' l].
    + cbn [map String.concat]. rewrite IHv.
      * reflexivity.
      * unfold sizes, list_sum in Hs. cbn in Hs. lia.
      * reflexivity.
    + cbn [map]. rewrite concat_cons2. rewrite IHv.
      * rewrite skip_ws_head by reflexivity.
        change (Ascii.eqb "," ",") with true. cbv iota.
        change (String.concat "," (stringify v' :: map stringify l))
          with (String.concat "," (map stringify (v' :: l))).
        rewrite IHe; [reflexivity|].
        unfold sizes, list_sum in *. cbn [map fold_right] in Hs. lia.
      * unfold sizes, list_sum in Hs. cbn [map fold_right] in Hs. lia.
      * reflexivity.
  - intros [k v] m rest Hs. cbn [snd] in Hs.
    assert (Hm : forall tl, tail_ok tl = true ->
              (size v <= f)%nat ->
              parse_members (S f) (member_text (k, v) +:+ tl) =
              match skip_ws tl with
              | String c t =>
                  if Ascii.eqb c "," then
                    match parse_members f t with
                    | Some (m, u) => Some ((k, v) :: m, u)
                    | None => None
                    end
                  else if Ascii.eqb c "}" then Some ([(k, v)], t)
                  else None
              | EmptyString => None
              end).
    { intros tl Htl Hv. unfold member_text. cbn [fst snd].
      rewrite !append_assoc, quote_app. cbn [parse_members String.append].
      rewrite skip_ws_head by reflexivity.
      change (Ascii.eqb dquote dquote) with true. cbv iota.
      rewrite parse_string_escape.
      rewrite skip_ws_head by reflexivity.
      change (Ascii.eqb ":" ":") with true. cbv iota.
      now rewrite IHv. }
    destruct m as [|kv' m].
    + cbn [map String.concat]. rewrite Hm.
      * reflexivity.
      * reflexivity.
      * unfold msizes, list_sum in Hs. cbn in Hs. lia.
    + cbn [map]. rewrite concat_cons2. rewrite Hm.
      * rewrite skip_ws_head by reflexivity.
        change (Ascii.eqb "," ",") with true. cbv iota.
        change (String.concat "," (member_text kv' :: map member_text m))
          with (String.concat "," (map member_text (kv' :: m))).
        rewrite IHm; [reflexivity|].
        unfold msizes, list_sum in *. cbn [map fold_right] in Hs. lia.
      * reflexivity.
      * unfold msizes, list_sum in Hs. cbn [map fold_right] in Hs. lia.
Qed.

Lemma json_ind' (P : json -> Prop) :
  P JNull -> (forall b, P (JBool b)) -> (forall z, P (JNum z)) ->
  (forall s, P (JStr s)) ->
  (forall l, Forall P l -> P (JArr l)) ->
  (forall m, Forall (fun kv => P (snd kv)) m -> P (JObj m)) ->
  forall v, P v.
Proof.
  intros Hn Hb Hz Hs Ha Ho. fix IH 1. intros [|b|z|s|l|m].
  - exact Hn.
  - apply Hb.
  - apply Hz.
  - apply Hs.
  - apply Ha. induction l as [|x l IHl]; constructor; [apply IH|exact IHl].
  - apply Ho. induction m as [|[k x] m IHm]; constructor; [apply IH|exact IHm].
Qed.

Lemma size_le_length v : (size v <= String.length (stringify v))%nat.
Proof.
  induction v as [|b|z|s|l IH|m IH] using json_ind'.
  - simpl. lia.
  - destruct b; simpl; lia.
  - destruct (print_Z_head z "") as (c & r & E & _).
    rewrite append_nil_r in E. cbn [stringify size]. rewrite E. simpl. lia.
  - simpl. lia.
  - cbn [size stringify]. rewrite !length_append. cbn [String.length].
    fold (sizes l).
    enough (sizes l <= String.length (String.concat "," (map stringify l)) + 1)%nat by lia.
    induction IH as [|x l Hx Hl IHl]; [unfold sizes; simpl; lia|].
    unfold sizes, list_sum in *. cbn [map fold_right]. destruct l as [|y l].
    + simpl. lia.
    + change (String.concat "," (stringify x :: map stringify (y :: l)))
        with (stringify x +:+ "," +:+ String.concat "," (map stringify (y :: l))).
      rewrite !length_append. cbn [String.length]. lia.
  - cbn [size stringify]. rewrite !length_append. cbn [String.length].
    fold (msizes m). fold member_text.
    enough (msizes m <= String.length (String.concat "," (map member_text m)) + 1)%nat by lia.
    assert (Hmem : forall kv, (String.length (stringify (snd kv)) <=
                               String.length (member_text kv))%nat).
    { intros kv. unfold member_text. rewrite !length_append. lia. }
    induction IH as [|x l Hx Hl IHl]; [unfold msizes; simpl; lia|].
    pose proof (Hmem x).
    unfold msizes, list_sum in *. cbn [map fold_right]. destruct l as [|y l].
    + cbn [map String.concat fold_right]. lia.
    + change (String.concat "," (member_text x :: map member_text (y :: l)))
        with (member_text x +:+ "," +:+ String.concat "," (map member_text (y :: l))).
      rewrite !length_append. cbn [String.length]. lia.
Qed.

(** Parsing the text of a value gives the value back. *)
Lemma parse_stringify v : parse (stringify v) = Some v.
Proof.
  unfold parse.
  destruct (parse_stringify_fuel (S (String.length (stringify v)))) as (H & _).
  specialize (H v "" ltac:(pose proof (size_le_length v); lia) eq_refl).
  rewrite append_nil_r in H. now rewrite H.
Qed.

End JsonFacts.

(** ** How runs compose *)

Module RunFacts.

Import Handler Sched Notions.

Local Open Scope Z_scope.

Ltac unmonad := unfold mbind, prog_bind, mret, prog_ret in *.

Lemma run_bind {A B} (p : prog A) (f : A -> prog B) : forall ls w,
  run (p ≫= f) ls w =
  match run p ls w with
  | Some (inr a, w', ls') => run (f a) ls' w'
  | Some (inl e, w', ls') => Some (inl e, w', ls')
  | None => None
  end.
Proof.
  unmonad. induction p as [a|e|X g k IH|X op k IH]; intros ls w; cbn [bind run].
  - reflexivity.
  - reflexivity.
  - destruct (g w) as [x w']. apply IH.
  - destruct (perform op (hd quiet ls) w) as [|r w']; [reflexivity|apply IH].
Qed.

Lemma run_try_catch {A} (p : prog A) (h : error -> prog A) : forall ls w,
  run (try_catch p h) ls w =
  match run p ls w with
  | Some (inl e, w', ls') => run (h e) ls' w'
  | other => other
  end.
Proof.
  induction p as [a|e|X g k IH|X op k IH]; intros ls w; cbn [try_catch run].
  - reflexivity.
  - reflexivity.
  - destruct (g w) as [x w']. apply IH.
  - destruct (perform op (hd quiet ls) w) as [|r w']; [reflexivity|apply IH].
Qed.

Lemma run_finally {A} (p : prog A) (c : World -> World) : forall ls w,
  run (finally p c) ls w =
  match run p ls w with
  | Some (r, w', ls') => Some (r, c w', ls')
  | None => None
  end.
Proof.
  induction p as [a|e|X g k IH|X op k IH]; intros ls w; cbn [finally run].
  - reflexivity.
  - reflexivity.
  - destruct (g w) as [x w']. apply IH.
  - destruct (perform op (hd quiet ls) w) as [|r w']; [reflexivity|apply IH].
Qed.

Lemma run_settle {A} (p : prog A) : forall ls w,
  run (settle p) ls w =
  match run p ls w with
  | Some (r, w', ls') => Some (r, w', tl ls')
  | None => None
  end.
Proof.
  induction p as [a|e|X g k IH|X op k IH]; intros ls w; cbn [settle run].
  - reflexivity.
  - reflexivity.
  - destruct (g w) as [x w']. apply IH.
  - destruct (perform op (hd quiet ls) w) as [|r w']; [reflexivity|apply IH].
Qed.

Lemma run_withSpan {A} name (p : prog A) ls w :
  run (withSpan name p) ls w =
  match run p ls w with
  | Some (r, w', ls') => Some (r, w', tl ls')
  | None => None
  end.
Proof.
  unfold withSpan. rewrite run_try_catch, run_settle.
  destruct (run p ls w) as [[[[e|a] w'] ls']|]; reflexivity.
Qed.

Lemma run_read {X} (f : World -> X) ls w : run (read f) ls w = Some (inr (f w), w, ls).
Proof. reflexivity. Qed.

Lemma run_write (f : World -> World) ls w : run (write f) ls w = Some (inr tt, f w, ls).
Proof. reflexivity. Qed.

Lemma run_await {X} (op : io X) ls w :
  run (await op) ls w =
  match perform op (hd quiet ls) w with
  | Blocked => None
  | Settled r w' => Some (r, w', tl ls)
  end.
Proof.
  unfold await. cbn [run].
  destruct (perform op (hd quiet ls) w) as [|[e|x] w']; reflexivity.
Qed.

Lemma run_ensureConnected ls w :
  run ensureConnected ls w =
  if connected w then Some (inr tt, w, ls)
  else Some (inr tt,
             with_connected true
               (later (hd quiet ls) (with_connects (S (connects w)) w)),
             tl ls).
Proof.
  unfold ensureConnected. rewrite run_bind, run_read.
  destruct (connected w); [reflexivity|].
  rewrite run_bind, run_write. cbn [run perform].
  destruct (fails (hd quiet ls)); reflexivity.
Qed.

(** Runs among others. *)

Lemma run_among_try_catch {A} (p : prog A) (h : error -> prog A) : forall ls w,
  (forall e ls w, exists a, run_among (h e) ls w = Some (inr a, w)) ->
  forall r w', run_among (try_catch p h) ls w = Some (r, w') ->
  exists a, r = inr a.
Proof.
  induction p as [a|e|X g k IH|X op k IH]; intros ls w Hh r w';
    cbn [try_catch run_among].
  - intros [= <- _]. eauto.
  - destruct (Hh e ls w) as [a ->]. intros [= <- _]. eauto.
  - destruct (g w) as [x w1]. now apply IH.
  - destruct (hd (quiet, id) ls) as [l others].
    destruct (perform op l (others w)) as [|r1 w1]; [discriminate|].
    now apply IH.
Qed.

Lemma run_among_finally {A} (p : prog A) (c : World -> World) : forall ls w,
  run_among (finally p c) ls w =
  match run_among p ls w with
  | Some (r, w') => Some (r, c w')
  | None => None
  end.
Proof.
  induction p as [a|e|X g k IH|X op k IH]; intros ls w; cbn [finally run_among].
  - reflexivity.
  - reflexivity.
  - destruct (g w) as [x w']. apply IH.
  - destruct (hd (quiet, id) ls) as [l others].
    destruct (perform op l (others w)) as [|r w']; [reflexivity|apply IH].
Qed.

(** Programs that never wait for a promise of [pendingSets] always come
    to an end. *)

Lemma perform_nonblocking {X} (op : io X) l w :
  waits op = false -> exists r w', perform op l w = Settled r w'.
Proof.
  destruct op; cbn [waits perform]; intros H; try discriminate H; eauto.
Qed.

Lemma nonblocking_run_among {A} (p : prog A) :
  nonblocking p -> forall ls w, exists r w', run_among p ls w = Some (r, w').
Proof.
  induction p as [a|e|X g k IH|X op k IH]; cbn [nonblocking run_among].
  - eauto.
  - eauto.
  - intros H ls w. destruct (g w) as [x w1]. now apply IH.
  - intros [Hop H] ls w. destruct (hd (quiet, id) ls) as [l others].
    destruct (perform_nonblocking op l (others w) Hop) as (r & w1 & ->).
    now apply IH.
Qed.

Lemma nonblocking_run {A} (p : prog A) :
  nonblocking p -> forall ls w, exists r w' ls', run p ls w = Some (r, w', ls').
Proof.
  induction p as [a|e|X g k IH|X op k IH]; cbn [nonblocking run].
  - eauto.
  - eauto.
  - intros H ls w. destruct (g w) as [x w1]. now apply IH.
  - intros [Hop H] ls w.
    destruct (perform_nonblocking op (hd quiet ls) w Hop) as (r & w1 & ->).
    now apply IH.
Qed.

Lemma nonblocking_bind {A B} (p : prog A) (f : A -> prog B) :
  nonblocking p -> (forall a, nonblocking (f a)) -> nonblocking (p ≫= f).
Proof.
  unmonad. intros Hp Hf.
  induction p as [a|e|X g k IH|X op k IH]; cbn [bind nonblocking] in *; auto.
  destruct Hp as [Hop Hk]. auto.
Qed.

Lemma nonblocking_try_catch {A} (p : prog A) h :
  nonblocking p -> (forall e, nonblocking (h e)) -> nonblocking (try_catch p h).
Proof.
  intros Hp Hh.
  induction p as [a|e|X g k IH|X op k IH]; cbn [try_catch nonblocking] in *; auto.
  destruct Hp as [Hop Hk]. auto.
Qed.

Lemma nonblocking_finally {A} (p : prog A) c :
  nonblocking p -> nonblocking (finally p c).
Proof.
  intros Hp.
  induction p as [a|e|X g k IH|X op k IH]; cbn [finally nonblocking] in *; auto.
  destruct Hp as [Hop Hk]. auto.
Qed.

Lemma nonblocking_settle {A} (p : prog A) : nonblocking p -> nonblocking (settle p).
Proof.
  intros Hp.
  induction p as [a|e|X g k IH|X op k IH]; cbn [settle nonblocking] in *; auto.
  destruct Hp as [Hop Hk]. auto.
Qed.

Lemma nonblocking_withSpan {A} name (p : prog A) :
  nonblocking p -> nonblocking (withSpan name p).
Proof.
  intros Hp. unfold withSpan.
  apply nonblocking_try_catch; [now apply nonblocking_settle|exact (fun _ => I)].
Qed.

Lemma nonblocking_await {X} (op : io X) : waits op = false -> nonblocking (await op).
Proof. intros H. split; [exact H|]. intros [e|x]; exact I. Qed.

Lemma nonblocking_ensureConnected : nonblocking ensureConnected.
Proof.
  unfold ensureConnected. apply nonblocking_bind; [exact (fun _ => I)|].
  intros [|]; [exact I|].
  apply nonblocking_bind; [exact (fun _ => I)|]. intros _.
  split; [reflexivity|]. intros [e|x]; exact (fun _ => I).
Qed.

Lemma nonblocking_read_chunks cs bad : forall acc, nonblocking (read_chunks cs bad acc).
Proof.
  induction cs as [|c cs IH]; intros acc; cbn [read_chunks nonblocking].
  - split; [reflexivity|]. intros _. now destruct bad.
  - split; [reflexivity|]. intros _. apply IH.
Qed.

Lemma nonblocking_exec pipeline : nonblocking (exec pipeline).
Proof.
  unfold exec. apply nonblocking_bind; [exact (fun _ => I)|].
  intros _. now apply nonblocking_await.
Qed.

Lemma nonblocking_set_try k pe : nonblocking (set_try k pe).
Proof.
  unfold set_try. apply nonblocking_settle, nonblocking_withSpan.
  apply nonblocking_bind; [apply nonblocking_settle, nonblocking_ensureConnected|].
  intros _. apply nonblocking_bind.
  { split; [reflexivity|]. intros _. now destruct pe. }
  intros e. apply nonblocking_bind; [apply nonblocking_read_chunks|].
  intros chunks. apply nonblocking_exec.
Qed.

Lemma nonblocking_refresh_loop tagKeys : nonblocking (refresh_loop tagKeys).
Proof.
  induction tagKeys as [|tagKey rest IH]; [exact I|].
  cbn [refresh_loop]. apply nonblocking_bind; [now apply nonblocking_await|].
  intros ts. apply nonblocking_bind; [|intros _; exact IH].
  destruct ts as [[|c s]|]; first [exact I | exact (fun _ => I)].
Qed.

Lemma nonblocking_refreshTags_try : nonblocking refreshTags_try.
Proof.
  unfold refreshTags_try. apply nonblocking_settle, nonblocking_withSpan.
  apply nonblocking_bind; [apply nonblocking_settle, nonblocking_ensureConnected|].
  intros _. apply nonblocking_bind; [now apply nonblocking_await|].
  apply nonblocking_refresh_loop.
Qed.

Lemma nonblocking_update_loop now tags : forall pipeline,
  nonblocking (update_loop now tags pipeline).
Proof.
  induction tags as [|tag rest IH]; intros pipeline; [exact I|].
  cbn [update_loop]. apply nonblocking_bind; [now apply nonblocking_await|].
  intros cacheKeys. apply nonblocking_bind; [exact (fun _ => I)|].
  intros _. apply IH.
Qed.

Lemma nonblocking_updateTags_try tags d : nonblocking (updateTags_try tags d).
Proof.
  unfold updateTags_try. apply nonblocking_settle, nonblocking_withSpan.
  apply nonblocking_bind; [apply nonblocking_settle, nonblocking_ensureConnected|].
  intros _. apply nonblocking_bind; [exact (fun _ => I)|].
  intros now. apply nonblocking_bind; [apply nonblocking_update_loop|].
  apply nonblocking_exec.
Qed.

(** A function whose whole body is a [try] with a [catch] that returns:
    it comes to an end without throwing, whatever the rest of the process
    does meanwhile. *)
Lemma guarded_returns {A} (p : prog A) (d : A) ls w :
  nonblocking p ->
  exists a w', run_among (try_catch p (fun _ => mret d)) ls w = Some (inr a, w').
Proof.
  intros Hp. unmonad.
  assert (Hn : nonblocking (try_catch p (fun _ => Ret d)))
    by (apply nonblocking_try_catch; [exact Hp|exact (fun _ => I)]).
  destruct (nonblocking_run_among _ Hn ls w) as (r & w' & Hr).
  destruct (run_among_try_catch p (fun _ => Ret d) ls w
              (fun e ls w => ex_intro _ d eq_refl) r w' Hr) as [a ->].
  eauto.
Qed.

(** *** The calls, run alone *)

Lemma run_connect ls w :
  run (settle ensureConnected) ls w =
  Some (inr tt, (after_connect ls w).1, (after_connect ls w).2).
Proof.
  rewrite run_settle, run_ensureConnected. unfold after_connect.
  destruct (connected w); reflexivity.
Qed.

Lemma after_connect_connected ls w : connected (after_connect ls w).1 = true.
Proof. unfold after_connect. destruct (connected w) eqn:E; [exact E|reflexivity]. Qed.

Lemma after_connect_frame ls w :
  let w1 := (after_connect ls w).1 in
  tagTimestamps w1 = tagTimestamps w /\ pendingSets w1 = pendingSets w /\
  settled w1 = settled w /\ next_promise w1 = next_promise w /\
  store w1 = store w /\ batches w1 = batches w /\ clock w <= clock w1.
Proof.
  unfold after_connect. destruct (connected w); cbn; repeat split; lia.
Qed.

Lemma run_get k tags ls w :
  pendingSets w !! k = None ->
  let w1 := (after_connect ls w).1 in
  let ls1 := (after_connect ls w).2 in
  let w2 := later (hd quiet ls1) w1 in
  run (get k tags) ls w =
  Some (inr (get_outcome (store_get (hd quiet ls1) w2 (CACHE_PREFIX +:+ k)) (clock w2)),
        w2, tl (tl (tl ls1))).
Proof.
  intros Hp. cbv zeta. unfold get, get_try.
  rewrite run_try_catch, run_settle, run_withSpan, run_bind, run_connect.
  destruct (after_connect_frame ls w) as (_ & Hpend & _).
  set (w1 := (after_connect ls w).1) in *.
  set (ls1 := (after_connect ls w).2) in *.
  rewrite run_bind, run_read, Hpend, Hp, run_bind. cbn [run mret prog_ret].
  rewrite run_bind, run_await. cbn [perform]. unfold store_get.
  destruct (fails (hd quiet ls1)); [reflexivity|].
  destruct (Redis.get _ _ _) as [[[|c s]|]|]; cbn [of_reply get_outcome];
    try reflexivity.
  destruct (deserialize (String c s)) as [d|]; [|reflexivity].
  rewrite run_bind, run_read.
  destruct (_ >? _); reflexivity.
Qed.

(** *** Properties of the state that a call keeps

    [keeps I p]: a run of [p] from a state in [I] ends in [I].  The first
    rules are the program constructors; an await keeps [I] when the end of
    no await can leave it. *)

Section Keeps.

Variable I : World -> Prop.
Hypothesis I_steady : steady I.

Lemma keeps_ret {A} (a : A) : keeps I (mret a).
Proof. intros ls w r w' ls' Hw [= _ <- _]. exact Hw. Qed.

Lemma keeps_throw {A} e : keeps I (@Throw A e).
Proof. intros ls w r w' ls' Hw [= _ <- _]. exact Hw. Qed.

Lemma keeps_bind {A B} (p : prog A) (f : A -> prog B) :
  keeps I p -> (forall a, keeps I (f a)) -> keeps I (p ≫= f).
Proof.
  intros Hp Hf ls w r w' ls' Hw. rewrite run_bind.
  destruct (run p ls w) as [[[[e|a] w1] ls1]|] eqn:E; [| |discriminate].
  - intros [= _ <- _]. exact (Hp _ _ _ _ _ Hw E).
  - apply Hf. exact (Hp _ _ _ _ _ Hw E).
Qed.

Lemma keeps_try_catch {A} (p : prog A) h :
  keeps I p -> (forall e, keeps I (h e)) -> keeps I (try_catch p h).
Proof.
  intros Hp Hh ls w r w' ls' Hw. rewrite run_try_catch.
  destruct (run p ls w) as [[[[e|a] w1] ls1]|] eqn:E; [| |discriminate].
  - apply Hh. exact (Hp _ _ _ _ _ Hw E).
  - intros [= _ <- _]. exact (Hp _ _ _ _ _ Hw E).
Qed.

Lemma keeps_finally {A} (p : prog A) c :
  keeps I p -> (forall w, I w -> I (c w)) -> keeps I (finally p c).
Proof.
  intros Hp Hc ls w r w' ls' Hw. rewrite run_finally.
  destruct (run p ls w) as [[[r1 w1] ls1]|] eqn:E; [|discriminate].
  intros [= _ <- _]. apply Hc. exact (Hp _ _ _ _ _ Hw E).
Qed.

Lemma keeps_settle {A} (p : prog A) : keeps I p -> keeps I (settle p).
Proof.
  intros Hp ls w r w' ls' Hw. rewrite run_settle.
  destruct (run p ls w) as [[[r1 w1] ls1]|] eqn:E; [|discriminate].
  intros [= _ <- _]. exact (Hp _ _ _ _ _ Hw E).
Qed.

Lemma keeps_withSpan {A} name (p : prog A) : keeps I p -> keeps I (withSpan name p).
Proof.
  intros Hp. apply keeps_try_catch; [now apply keeps_settle|].
  intros e. apply keeps_throw.
Qed.

Lemma keeps_read {X} (f : World -> X) : keeps I (read f).
Proof. intros ls w r w' ls' Hw [= _ <- _]. exact Hw. Qed.

Lemma keeps_write (f : World -> World) :
  (forall w, I w -> I (f w)) -> keeps I (write f).
Proof. intros Hf ls w r w' ls' Hw [= _ <- _]. now apply Hf. Qed.

Lemma keeps_do {X} (f : World -> X * World) :
  (forall w, I w -> I (f w).2) -> keeps I (Do f Ret).
Proof.
  intros Hf ls w r w' ls' Hw. cbn [run]. specialize (Hf w Hw).
  destruct (f w) as [x w1]. intros [= _ <- _]. exact Hf.
Qed.

Lemma keeps_await {X} (op : io X) : keeps I (await op).
Proof.
  intros ls w r w' ls' Hw. rewrite run_await.
  destruct (perform op (hd quiet ls) w) as [|r1 w1] eqn:E; [discriminate|].
  intros [= _ <- _]. exact (I_steady _ _ _ _ _ _ Hw E).
Qed.

Lemma keeps_tick {A} (p : prog A) : keeps I p -> keeps I (Await Tick (fun _ => p)).
Proof. intros Hp ls w r w' ls' Hw. cbn [run perform]. now apply Hp. Qed.

Lemma keeps_read_chunks cs bad : forall acc, keeps I (read_chunks cs bad acc).
Proof.
  induction cs as [|c cs IH]; intros acc; cbn [read_chunks]; apply keeps_tick.
  - destruct bad; [apply keeps_throw|apply (keeps_ret acc)].
  - apply IH.
Qed.

End Keeps.

(** Breaks a [keeps] goal down along the program. *)
Ltac keeps_step :=
  match goal with
  | |- keeps _ (match ?x with _ => _ end) => destruct x
  | |- keeps _ (if ?x then _ else _) => destruct x
  | |- keeps _ (_ ≫= _) => apply keeps_bind
  | |- keeps _ (try_catch _ _) => apply keeps_try_catch
  | |- keeps _ (finally _ _) => apply keeps_finally
  | |- keeps _ (settle _) => apply keeps_settle
  | |- keeps _ (withSpan _ _) => apply keeps_withSpan
  | |- keeps _ (read _) => apply keeps_read
  | |- keeps _ (write _) => apply keeps_write
  | |- keeps _ (await _) => apply keeps_await
  | |- keeps _ (mret _) => apply keeps_ret
  | |- keeps _ (Ret _) => apply keeps_ret
  | |- keeps _ (Throw _) => apply keeps_throw
  | |- keeps _ (Await Tick _) => apply keeps_tick
  | |- keeps _ (read_chunks _ _ _) => apply keeps_read_chunks
  | |- keeps _ (Do _ Ret) => apply keeps_do
  | |- forall _, _ => intro
  end.

(** A property of the connection flag and of the count of [connect()]
    rounds only, kept by [ensureConnected], is kept by every call. *)
Section ConnectionOnly.

Variable I : World -> Prop.
Hypothesis I_fields : forall w w',
  connected w' = connected w -> connects w' = connects w -> I w -> I w'.
Hypothesis I_ensureConnected : keeps I ensureConnected.

Lemma fields_steady : steady I.
Proof.
  intros X op l w r w' Hw.
  destruct op; cbn [perform]; try destruct (fails l); try case_bool_decide;
    intros [= <- <-] || discriminate; exact Hw || (revert Hw; now apply I_fields).
Qed.

Lemma keeps_refresh_loop tagKeys : keeps I (refresh_loop tagKeys).
Proof.
  pose proof fields_steady.
  induction tagKeys as [|tagKey rest IH]; cbn [refresh_loop];
    repeat keeps_step; auto.
  revert H0. now apply I_fields.
Qed.

Lemma keeps_update_loop now tags : forall pipeline,
  keeps I (update_loop now tags pipeline).
Proof.
  pose proof fields_steady.
  induction tags as [|tag rest IH]; intros pipeline; cbn [update_loop];
    repeat keeps_step; auto.
  revert H0. now apply I_fields.
Qed.

Lemma keeps_body c : keeps I (body c).
Proof.
  pose proof fields_steady. pose proof keeps_refresh_loop.
  pose proof keeps_update_loop.
  destruct c; cbn [body];
    unfold get, get_try, set, set_try, refreshTags, refreshTags_try,
      getExpiration, updateTags, updateTags_try, exec;
    repeat keeps_step; auto;
    match goal with H : I _ |- I _ => revert H; now apply I_fields end.
Qed.

End ConnectionOnly.

Lemma keeps_linked_body n c : keeps (linked n) (body c).
Proof.
  apply keeps_body.
  - intros w w' Hc Hn [H1 H2]. split; congruence.
  - intros ls w r w' ls' [Hc Hn]. rewrite run_ensureConnected, Hc.
    intros [= _ <- _]. now split.
Qed.

Lemma keeps_connected_once_body c : keeps connected_once (body c).
Proof.
  apply keeps_body.
  - intros w w' Hc Hn [H|[H1 H2]]; [left|right; split]; congruence.
  - intros ls w r w' ls' Hw. rewrite run_ensureConnected.
    destruct (connected w) eqn:Hc.
    + intros [= _ <- _]. exact Hw.
    + intros [= _ <- _]. right. cbn. destruct Hw as [->|[_ ?]]; [auto|congruence].
Qed.

(** *** The entry codec *)

Lemma strings_of_map tags : strings_of (map Json.JStr tags) = Some tags.
Proof. induction tags as [|t tags IH]; cbn; [reflexivity|now rewrite IH]. Qed.

Lemma of_to_json d : of_json (to_json d) = Some d.
Proof.
  destruct d as [v ts st t e r]. unfold to_json, of_json. cbn.
  now rewrite strings_of_map.
Qed.

Lemma deserialize_serialize d : deserialize (serialize d) = Some d.
Proof.
  unfold deserialize, serialize. rewrite JsonFacts.parse_stringify.
  apply of_to_json.
Qed.

Lemma deserialize_empty : deserialize EmptyString = None.
Proof. reflexivity. Qed.

(** *** [set], run alone *)

Lemma run_read_chunks cs bad : forall acc ls w,
  run (read_chunks cs bad acc) ls w =
  Some (if bad then inl StreamError else inr (acc ++ cs), w,
        drop (S (length cs)) ls).
Proof.
  induction cs as [|c cs IH]; intros acc ls w; cbn [read_chunks run perform].
  - rewrite app_nil_r. destruct bad; cbn [run]; now destruct ls.
  - rewrite IH, <- app_assoc. cbn [length]. now destruct ls.
Qed.

Lemma run_exec pipeline ls w :
  let l := hd quiet ls in
  let w1 := later l (with_batches (batches w ++ [pipeline]) w) in
  run (exec pipeline) ls w =
  Some (inr tt,
        if fails l then w1
        else with_store (Redis.exec (clock w1) pipeline (store w1)) w1,
        tl ls).
Proof.
  cbv zeta. unfold exec. rewrite run_bind, run_write, run_await.
  cbn [perform]. reflexivity.
Qed.

Lemma fold_left_app_flat_map {A B} (g : A -> list B) l : forall acc,
  fold_left (fun pl x => pl ++ g x) l acc = acc ++ flat_map g l.
Proof.
  induction l as [|x l IH]; intros acc; cbn [fold_left flat_map].
  - now rewrite app_nil_r.
  - now rewrite IH, <- app_assoc.
Qed.

Lemma set_pipeline_eq key serialized e :
  set_pipeline key serialized e =
  Redis.SETEX key (expire e) serialized ::
  flat_map (fun tag => [Redis.SADD (TAGS_PREFIX +:+ tag) key;
                        Redis.EXPIRE (TAGS_PREFIX +:+ tag) (expire e + 60)])
           (tags e).
Proof.
  unfold set_pipeline.
  exact (fold_left_app_flat_map
           (fun tag => [Redis.SADD (TAGS_PREFIX +:+ tag) key;
                        Redis.EXPIRE (TAGS_PREFIX +:+ tag) (expire e + 60)])
           (tags e) [Redis.SETEX key (expire e) serialized]).
Qed.

(** [set] run alone, for an entry whose producer and stream deliver. *)
Lemma run_set k e ls w :
  errored (value e) = false ->
  let wr := (register k w).2 in
  let w1 := (after_connect ls wr).1 in
  let ls3 := drop (S (length (chunks (value e)))) (tl (after_connect ls wr).2) in
  let l := hd quiet ls3 in
  let pipeline :=
    set_pipeline (CACHE_PREFIX +:+ k)
      (serialize (data_of e (concat (chunks (value e))))) e in
  let w2 := later l (with_batches (batches w1 ++ [pipeline]) w1) in
  run (set k (inr e)) ls w =
  Some (inr tt,
        release k (next_promise w)
          (if fails l then w2
           else with_store (Redis.exec (clock w2) pipeline (store w2)) w2),
        tl (tl (tl ls3))).
Proof.
  intros He. cbv zeta. unfold set. rewrite run_bind. cbn [run].
  destruct (register k w) as [p wr] eqn:Er.
  assert (Hp : p = next_promise w) by (now injection Er).
  subst p. cbn [snd].
  rewrite run_finally, run_try_catch. unfold set_try.
  rewrite run_settle, run_withSpan, run_bind, run_connect, run_bind.
  cbn [run perform]. rewrite run_bind, run_read_chunks, He. cbn [app].
  pose proof (run_exec
    (set_pipeline (CACHE_PREFIX +:+ k)
       (serialize (data_of e (concat (chunks (value e))))) e)
    (drop (S (length (chunks (value e)))) (tl (after_connect ls wr).2))
    (after_connect ls wr).1) as Hx.
  cbv zeta in Hx. rewrite Hx.
  destruct (fails _); reflexivity.
Qed.

(** *** The store under a batch of deletions *)

Lemma exec_app now a b st :
  Redis.exec now (a ++ b) st = Redis.exec now b (Redis.exec now a st).
Proof. unfold Redis.exec. apply fold_left_app. Qed.

Lemma exec_dels_keep now ms : forall (st : gmap string Redis.slot) key,
  st !! key = None -> Redis.exec now (map Redis.DEL ms) st !! key = None.
Proof.
  induction ms as [|m ms IH]; intros st key Hk; [exact Hk|].
  cbn [map]. unfold Redis.exec. cbn [fold_left Redis.apply].
  apply IH. rewrite lookup_delete. case_decide; [reflexivity|exact Hk].
Qed.

Lemma exec_dels_gone now ms : forall (st : gmap string Redis.slot) key,
  key ∈ ms -> Redis.exec now (map Redis.DEL ms) st !! key = None.
Proof.
  induction ms as [|m ms IH]; intros st key Hk; [now apply elem_of_nil in Hk|].
  cbn [map]. unfold Redis.exec. cbn [fold_left Redis.apply].
  apply elem_of_cons in Hk as [->|Hk].
  - apply exec_dels_keep, lookup_delete_eq.
  - now apply IH.
Qed.

Lemma prefixed_key_not_timestamp k t :
  CACHE_PREFIX +:+ k <> (TAGS_PREFIX +:+ t) +:+ ":timestamp".
Proof. unfold CACHE_PREFIX, TAGS_PREFIX. simpl. discriminate. Qed.

(** The batch of [updateTags] for one tag leaves nothing under a key that
    was a member of the tag's set. *)
Lemma invalidation_deletes now ms t v (st : gmap string Redis.slot) k :
  CACHE_PREFIX +:+ k ∈ ms ->
  Redis.exec now
    (map Redis.DEL ms ++
     [Redis.DEL (TAGS_PREFIX +:+ t);
      Redis.SET ((TAGS_PREFIX +:+ t) +:+ ":timestamp") v]) st
  !! (CACHE_PREFIX +:+ k) = None.
Proof.
  intros Hk. rewrite exec_app. unfold Redis.exec at 1.
  cbn [fold_left Redis.apply].
  rewrite lookup_insert_ne by (apply not_eq_sym, prefixed_key_not_timestamp).
  rewrite lookup_delete. case_decide; [reflexivity|].
  now apply exec_dels_gone.
Qed.

(** What was in a set at some time was in it before. *)
Lemma smembers_earlier t1 t2 (st : gmap string Redis.slot) key m1 m2 x :
  t1 <= t2 ->
  Redis.smembers t1 st key = Redis.Ok m1 ->
  Redis.smembers t2 st key = Redis.Ok m2 ->
  x ∈ m2 -> x ∈ m1.
Proof.
  unfold Redis.smembers, Redis.live. intros Ht.
  destruct (st !! key) as [[v [d|]]|]; cbn [Redis.deadline].
  - destruct (Z.leb_spec d t2), (Z.leb_spec d t1); try lia.
    + intros _ [= <-] Hx. now apply elem_of_nil in Hx.
    + intros _ [= <-] Hx. now apply elem_of_nil in Hx.
    + destruct v; [discriminate|]. now intros [= <-] [= <-].
  - destruct v; [discriminate|]. now intros [= <-] [= <-].
  - intros _ [= <-] Hx. now apply elem_of_nil in Hx.
Qed.

(** *** [updateTags], run alone *)

Lemma unchanged_refl w : unchanged w w.
Proof. unfold unchanged. repeat split; lia. Qed.

Lemma unchanged_trans w1 w2 w3 : unchanged w1 w2 -> unchanged w2 w3 -> unchanged w1 w3.
Proof. unfold unchanged. intuition (congruence || lia). Qed.

Lemma unchanged_later l w : unchanged w (later l w).
Proof. unfold unchanged, later. cbn. repeat split; lia. Qed.

Lemma stamp_lookup now done : forall m t,
  stamp now done m !! t = if bool_decide (t ∈ done) then Some (Int now) else m !! t.
Proof.
  induction done as [|x done IH]; intros m t; cbn [stamp fold_left].
  - now rewrite bool_decide_eq_false_2 by apply not_elem_of_nil.
  - fold (stamp now done (<[x:=Int now]> m)). rewrite IH.
    destruct (bool_decide_reflect (t ∈ done)) as [Hin|Hnin].
    + rewrite bool_decide_eq_true_2; [reflexivity|]. now apply elem_of_cons; right.
    + destruct (decide (t = x)) as [->|Hne].
      * rewrite bool_decide_eq_true_2 by (apply elem_of_cons; now left).
        apply lookup_insert_eq.
      * rewrite bool_decide_eq_false_2.
        -- now apply lookup_insert_ne.
        -- intros [?|?]%elem_of_cons; congruence.
Qed.

Lemma run_update_loop now tags : forall pipeline ls w r w' ls',
  run (update_loop now tags pipeline) ls w = Some (r, w', ls') ->
  exists done,
    done `prefix_of` tags /\
    (forall p, r = inr p -> done = tags) /\
    tagTimestamps w' = stamp now done (tagTimestamps w) /\
    unchanged w w' /\ store w' = store w /\ batches w' = batches w.
Proof.
  induction tags as [|tag rest IH]; intros pipeline ls w r w' ls'.
  - intros [= <- <- _]. exists []. split; [reflexivity|].
    repeat split; auto using unchanged_refl; apply unchanged_refl.
  - cbn [update_loop]. rewrite run_bind, run_await. cbn [perform].
    set (wa := later (hd quiet ls) w).
    destruct (if fails (hd quiet ls) then _ else _) as [e|ms].
    + intros [= <- <- _]. exists []. split; [apply prefix_nil|].
      split; [discriminate|]. split; [reflexivity|].
      split; [apply unchanged_later|]. now split.
    + rewrite run_bind, run_write. intros Hr.
      destruct (IH _ _ _ _ _ _ Hr) as (done & Hpre & Hall & Hts & Hun & Hst & Hb).
      exists (tag :: done). split; [now apply prefix_cons|].
      split; [intros p Hp; f_equal; eauto|].
      split; [exact Hts|]. split; [|now split].
      eapply unchanged_trans; [apply (unchanged_later (hd quiet ls) w)|exact Hun].
Qed.

(** Which tags the loop has stamped: those read before a read failed. *)
Lemma read_before_failure_ext tags : forall ls w wr,
  clock wr = clock w -> store wr = store w ->
  read_before_failure tags ls wr = read_before_failure tags ls w.
Proof.
  induction tags as [|tag rest IH]; intros ls w wr Hc Hs; [reflexivity|].
  cbn [read_before_failure perform]. cbn [later with_clock store clock].
  rewrite Hc, Hs.
  destruct (if fails (hd quiet ls) then _ else _) as [e|ms]; [reflexivity|].
  f_equal. apply IH; cbn; congruence.
Qed.

Lemma run_update_loop_stamps now tags : forall pipeline ls w r w' ls',
  run (update_loop now tags pipeline) ls w = Some (r, w', ls') ->
  tagTimestamps w' = stamp now (read_before_failure tags ls w) (tagTimestamps w) /\
  (forall e, r = inl e ->
     exists tag rest, tags = read_before_failure tags ls w ++ tag :: rest) /\
  (forall p, r = inr p -> read_before_failure tags ls w = tags).
Proof.
  induction tags as [|tag rest IH]; intros pipeline ls w r w' ls'.
  - intros [= <- <- _]. split; [reflexivity|]. split; [discriminate|reflexivity].
  - cbn [update_loop read_before_failure]. rewrite run_bind, run_await.
    cbn [perform].
    destruct (if fails (hd quiet ls) then _ else _) as [e|ms].
    + intros [= <- <- _]. split; [reflexivity|]. split; [|discriminate].
      intros _ _. exists tag, rest. reflexivity.
    + rewrite run_bind, run_write. intros Hr.
      destruct (IH _ _ _ _ _ _ Hr) as (Hts & Hsplit & Hall).
      rewrite (read_before_failure_ext rest (tl ls) (later (hd quiet ls) w))
        in Hts, Hsplit, Hall by reflexivity.
      split; [exact Hts|]. split.
      * intros e He. destruct (Hsplit e He) as (t0 & rest' & Heq).
        exists t0, rest'. cbn [app]. now f_equal.
      * intros p Hp. f_equal. now apply (Hall p).
Qed.

(** The effect of the body of [updateTags]: the tags whose member set was
    read have the timestamp [now], the time at which the loop began; on a
    throw the store is as it was. *)
Lemma run_updateTags_try tags d ls w r w' ls' :
  run (updateTags_try tags d) ls w = Some (r, w', ls') ->
  exists now done,
    clock w <= now /\ now <= clock w' /\
    done `prefix_of` tags /\
    (forall u, r = inr u -> done = tags) /\
    tagTimestamps w' = stamp now done (tagTimestamps w) /\
    unchanged w w' /\
    (forall e, r = inl e -> store w' = store w).
Proof.
  unfold updateTags_try.
  rewrite run_settle, run_withSpan, run_bind, run_connect, run_bind, run_read.
  destruct (after_connect_frame ls w) as (Hts & Hp & Hs & Hn & Hst & Hb & Hc).
  set (w1 := (after_connect ls w).1) in *.
  set (ls1 := (after_connect ls w).2) in *.
  assert (Hun : unchanged w w1) by (unfold unchanged; auto).
  rewrite run_bind.
  destruct (run (update_loop (clock w1) tags []) ls1 w1)
    as [[[[e|pipeline] w2] ls2]|] eqn:El; [| |discriminate].
  - destruct (run_update_loop _ _ _ _ _ _ _ _ El)
      as (done & Hpre & Hall & Hts2 & Hun2 & Hst2 & Hb2).
    intros [= <- <- _]. exists (clock w1), done.
    split; [exact Hc|]. split; [apply Hun2|]. split; [exact Hpre|].
    split; [discriminate|]. split; [now rewrite Hts2, Hts|].
    split; [eapply unchanged_trans; eassumption|].
    intros _ _. congruence.
  - destruct (run_update_loop _ _ _ _ _ _ _ _ El)
      as (done & Hpre & Hall & Hts2 & Hun2 & Hst2 & Hb2).
    pose proof (run_exec pipeline ls2 w2) as Hx. cbv zeta in Hx. rewrite Hx.
    assert (Hun3 : unchanged w (later (hd quiet ls2)
                     (with_batches (batches w2 ++ [pipeline]) w2))).
    { eapply unchanged_trans; [exact Hun|].
      eapply unchanged_trans; [exact Hun2|].
      unfold unchanged, later. cbn. repeat split; lia. }
    intros [= <- <- _]. exists (clock w1), done.
    split; [exact Hc|]. split.
    { destruct Hun2 as (_ & _ & _ & ?). destruct (fails _); cbn; lia. }
    split; [exact Hpre|]. split; [intros _ _; now apply (Hall pipeline)|].
    split; [destruct (fails _); cbn; now rewrite Hts2, Hts|].
    split; [destruct (fails _); exact Hun3|]. discriminate.
Qed.

(** The body of [updateTags] for one tag, when it comes to its end: the
    store it leaves, the batch having gone through or not. *)
Lemma run_updateTags_one t d ls w w1 ls1 :
  run (updateTags_try [t] d) ls w = Some (inr tt, w1, ls1) ->
  exists ts ms v,
    ts <= clock w1 /\
    Redis.smembers ts (store w) (TAGS_PREFIX +:+ t) = Redis.Ok ms /\
    store w1 =
    (if fails (hd quiet (tl (after_connect ls w).2)) then store w
     else Redis.exec (clock w1)
            (map Redis.DEL ms ++
             [Redis.DEL (TAGS_PREFIX +:+ t);
              Redis.SET ((TAGS_PREFIX +:+ t) +:+ ":timestamp") v]) (store w)) /\
    pendingSets w1 = pendingSets w.
Proof.
  unfold updateTags_try.
  rewrite run_settle, run_withSpan, run_bind, run_connect, run_bind, run_read.
  destruct (after_connect_frame ls w) as (_ & Hp & _ & _ & Hst & _).
  set (wa := (after_connect ls w).1) in *.
  set (lsa := (after_connect ls w).2) in *.
  rewrite run_bind. cbn [update_loop].
  rewrite run_bind, run_await. cbn [perform].
  destruct (fails (hd quiet lsa)); [discriminate|].
  destruct (Redis.smembers _ _ _) as [ms|] eqn:Es; cbn [of_reply]; [|discriminate].
  rewrite run_bind, run_write. cbn [run mret prog_ret].
  match goal with
  | |- context [run (exec ?pl) ?ls0 ?w0] =>
      pose proof (run_exec pl ls0 w0) as Hx; cbv zeta in Hx; rewrite Hx
  end.
  intros [= <- _]. eexists _, ms, _. split; [|split; [|split]].
  2: { rewrite <- Hst. exact Es. }
  - destruct (fails _); cbn; lia.
  - destruct (fails _); cbn; now rewrite Hst.
  - destruct (fails _); cbn; exact Hp.
Qed.

Lemma run_updateTags tags d ls w :
  exists r0 w' ls',
    run (updateTags_try tags d) ls w = Some (r0, w', ls') /\
    run (updateTags tags d) ls w = Some (inr tt, w', ls').
Proof.
  destruct (nonblocking_run _ (nonblocking_updateTags_try tags d) ls w)
    as (r0 & w' & ls' & Hr).
  exists r0, w', ls'. split; [exact Hr|].
  unfold updateTags. rewrite run_try_catch, Hr. now destruct r0 as [e|[]].
Qed.

(** *** [getExpiration] *)

Lemma run_getExpiration tags ls w :
  exists ls', run (getExpiration tags) ls w = Some (inr (expiration w tags), w, ls').
Proof.
  destruct tags as [|t tags]; [now eexists|].
  unfold getExpiration. rewrite run_withSpan, run_read. now eexists.
Qed.

Lemma expiration_one w t :
  expiration w [t] =
  match tagTimestamps w !! t with
  | Some (Int z) => Z.max 0 z
  | _ => 0
  end.
Proof.
  unfold expiration, max_timestamp. cbn [fold_left].
  destruct (tagTimestamps w !! t) as [[|z]|]; cbn; try reflexivity.
  destruct (Z.gtb_spec z 0); lia.
Qed.

(** *** [get] and the promise of a write in flight *)

(** With a promise registered for the key and not settled, [get] does not
    reach the store: run alone, it waits for ever. *)
Lemma get_waits k tags ls w p :
  pendingSets w !! k = Some p -> p ∉ settled w -> run (get k tags) ls w = None.
Proof.
  intros Hp Hs. unfold get, get_try.
  rewrite run_try_catch, run_settle, run_withSpan, run_bind, run_connect.
  destruct (after_connect_frame ls w) as (_ & Hpend & Hset & _).
  rewrite run_bind, run_read, Hpend, Hp, run_bind, run_await.
  cbn [perform]. rewrite Hset. now rewrite bool_decide_eq_false_2.
Qed.

Lemma run_among_set key pendingEntry ls w :
  exists w1,
    run_among (set key pendingEntry) ls w =
    Some (inr tt, release key (next_promise w) w1).
Proof.
  unfold set. unmonad. cbn [bind run_among register].
  rewrite run_among_finally.
  destruct (guarded_returns (set_try key pendingEntry) tt ls
              (register key w).2 (nonblocking_set_try key pendingEntry))
    as ([] & w1 & Hr).
  unmonad. cbn [register snd] in Hr. rewrite Hr. eauto.
Qed.

(** *** Labels *)

Lemma smooth_hd ls : smooth ls -> fails (hd quiet ls) = false.
Proof. intros [|l ls' H _]; [reflexivity|exact H]. Qed.

Lemma smooth_tl ls : smooth ls -> smooth (tl ls).
Proof. intros [|l ls' _ H]; [constructor|exact H]. Qed.

Lemma smooth_drop n ls : smooth ls -> smooth (drop n ls).
Proof. apply Forall_drop. Qed.

Lemma smooth_after_connect ls w : smooth ls -> smooth (after_connect ls w).2.
Proof.
  intros H. unfold after_connect.
  destruct (connected w); cbn [snd]; auto using smooth_tl.
Qed.

End RunFacts.

(** ** The event loop and the connection *)

Module LoopFacts.

Import Handler Sched Notions RunFacts.

Lemma calm_bind {A B} (p : prog A) (f : A -> prog B) :
  calm p -> (forall a, calm (f a)) -> calm (p ≫= f).
Proof.
  unmonad. intros Hp Hf.
  induction p as [a|e|X g k IH|X op k IH]; cbn [bind calm] in *; auto.
  destruct Hp as [Hg Hk]. auto.
Qed.

Lemma calm_try_catch {A} (p : prog A) h :
  calm p -> (forall e, calm (h e)) -> calm (try_catch p h).
Proof.
  intros Hp Hh.
  induction p as [a|e|X g k IH|X op k IH]; cbn [try_catch calm] in *; auto.
  destruct Hp as [Hg Hk]. auto.
Qed.

Lemma calm_finally {A} (p : prog A) c :
  calm p ->
  (forall w, connects (c w) = connects w /\
             (connected w = true -> connected (c w) = true)) ->
  calm (finally p c).
Proof.
  intros Hp Hc.
  induction p as [a|e|X g k IH|X op k IH]; cbn [finally calm] in *; auto.
  destruct Hp as [Hg Hk]. auto.
Qed.

Lemma calm_settle {A} (p : prog A) : calm p -> calm (settle p).
Proof.
  intros Hp.
  induction p as [a|e|X g k IH|X op k IH]; cbn [settle calm] in *; auto.
  destruct Hp as [Hg Hk]. auto.
Qed.

Lemma calm_withSpan {A} name (p : prog A) : calm p -> calm (withSpan name p).
Proof.
  intros Hp. apply calm_try_catch; [now apply calm_settle|exact (fun _ => I)].
Qed.

Lemma calm_await {X} (op : io X) : calm (await op).
Proof. intros [e|x]; exact I. Qed.

Lemma calm_read_chunks cs bad : forall acc, calm (read_chunks cs bad acc).
Proof.
  induction cs as [|c cs IH]; intros acc; cbn [read_chunks calm]; intros _.
  - now destruct bad.
  - apply IH.
Qed.

Lemma calm_exec pipeline : calm (exec pipeline).
Proof.
  unfold exec. apply calm_bind; [|intros _; apply calm_await].
  split; [now intros w|exact (fun _ => I)].
Qed.

Lemma calm_refresh_loop tagKeys : calm (refresh_loop tagKeys).
Proof.
  induction tagKeys as [|tagKey rest IH]; [exact I|].
  cbn [refresh_loop]. apply calm_bind; [apply calm_await|].
  intros ts. apply calm_bind; [|intros _; exact IH].
  destruct ts as [[|c s]|]; try exact I.
  split; [now intros w|exact (fun _ => I)].
Qed.

Lemma calm_update_loop now tags : forall pipeline, calm (update_loop now tags pipeline).
Proof.
  induction tags as [|tag rest IH]; intros pipeline; [exact I|].
  cbn [update_loop]. apply calm_bind; [apply calm_await|].
  intros cacheKeys. apply calm_bind; [|intros _; apply IH].
  split; [now intros w|exact (fun _ => I)].
Qed.

(** The synchronous steps of a calm program, and the end of an await. *)
Lemma calm_start {A} (p : prog A) : calm p -> forall w,
  calm (start p w).1 /\ connects (start p w).2 = connects w /\
  (connected w = true -> connected (start p w).2 = true).
Proof.
  induction p as [a|e|X g k IH|X op k IH]; intros Hp w; cbn [start].
  - now split.
  - now split.
  - destruct Hp as [Hg Hk]. specialize (Hg w). destruct (g w) as [x w1].
    cbn [snd] in Hg. destruct Hg as [Hn Hc].
    destruct (IH x (Hk x) w1) as (H1 & H2 & H3).
    split; [exact H1|]. split; [congruence|auto].
  - now split.
Qed.

Lemma perform_connection {X} (op : io X) l w r w' :
  perform op l w = Settled r w' ->
  connects w' = connects w /\ connected w' = connected w.
Proof.
  destruct op; cbn [perform]; try destruct (fails l); try case_bool_decide;
    intros [= <- <-] || discriminate; now split.
Qed.

Lemma calm_resume {A} (p p' : prog A) l w w' :
  calm p -> resume p l w = Some (p', w') ->
  calm p' /\ connects w' = connects w /\
  (connected w = true -> connected w' = true).
Proof.
  destruct p as [a|e|X g k|X op k]; cbn [resume]; try discriminate.
  intros Hk. destruct (perform op l w) as [|r w1] eqn:E; [discriminate|].
  destruct (perform_connection _ _ _ _ _ E) as [Hn Hc].
  destruct (calm_start (k r) (Hk r) w1) as (H1 & H2 & H3).
  intros [= Hs]. rewrite Hs in H1, H2, H3. cbn [fst snd] in H1, H2, H3.
  split; [exact H1|]. split; [congruence|]. intros Hw. apply H3. congruence.
Qed.

(** How [start] goes through the program constructors. *)
Lemma start_bind {A B} (p : prog A) (f : A -> prog B) : forall w,
  start (p ≫= f) w =
  match (start p w).1 with
  | Ret a => start (f a) (start p w).2
  | p' => (p' ≫= f, (start p w).2)
  end.
Proof.
  unmonad. induction p as [a|e|X g k IH|X op k IH]; intros w; cbn [bind start fst snd].
  - reflexivity.
  - reflexivity.
  - destruct (g w) as [x w1]. apply IH.
  - reflexivity.
Qed.

Lemma start_try_catch {A} (p : prog A) h : forall w,
  start (try_catch p h) w =
  match (start p w).1 with
  | Throw e => start (h e) (start p w).2
  | p' => (try_catch p' h, (start p w).2)
  end.
Proof.
  induction p as [a|e|X g k IH|X op k IH]; intros w; cbn [try_catch start fst snd].
  - reflexivity.
  - reflexivity.
  - destruct (g w) as [x w1]. apply IH.
  - reflexivity.
Qed.

Lemma start_settle {A} (p : prog A) : forall w,
  start (settle p) w = (settle (start p w).1, (start p w).2).
Proof.
  induction p as [a|e|X g k IH|X op k IH]; intros w; cbn [settle start fst snd].
  - reflexivity.
  - reflexivity.
  - destruct (g w) as [x w1]. apply IH.
  - reflexivity.
Qed.

Lemma start_not_do {A} (p : prog A) : forall w X (g : World -> X * World) k,
  (start p w).1 <> Do g k.
Proof.
  induction p as [a|e|Y g0 k0 IH|Y op k0 IH]; intros w X g k; cbn [start].
  - discriminate.
  - discriminate.
  - destruct (g0 w) as [x w1]. apply IH.
  - discriminate.
Qed.

Lemma start_finally {A} (p : prog A) c : forall w,
  start (finally p c) w =
  match (start p w).1 with
  | Ret a => (Ret a, c (start p w).2)
  | Throw e => (Throw e, c (start p w).2)
  | p' => (finally p' c, (start p w).2)
  end.
Proof.
  induction p as [a|e|X g k IH|X op k IH]; intros w; cbn [finally start fst snd].
  - reflexivity.
  - reflexivity.
  - destruct (g w) as [x w1]. apply IH.
  - reflexivity.
Qed.

Lemma good_calm {A} (p : prog A) w : calm p -> good_start p w (connects w).
Proof. intros Hp. exact (calm_start p Hp w). Qed.

Lemma good_bind {A B} (p : prog A) (f : A -> prog B) w n :
  good_start p w n -> (forall a, calm (f a)) -> good_start (p ≫= f) w n.
Proof.
  unfold good_start. intros (Hp & Hn & Hc) Hf. rewrite start_bind.
  destruct (start p w) as [p1 w1]. cbn [fst snd] in *.
  destruct p1 as [a|e|X g k|X op k]; cbn [fst snd].
  - destruct (calm_start (f a) (Hf a) w1) as (H1 & H2 & H3).
    split; [exact H1|]. split; [congruence|auto].
  - split; [exact I|]. now split.
  - split; [now apply calm_bind|]. now split.
  - split; [now apply calm_bind|]. now split.
Qed.

Lemma good_try_catch {A} (p : prog A) h w n :
  good_start p w n -> (forall e, calm (h e)) -> good_start (try_catch p h) w n.
Proof.
  unfold good_start. intros (Hp & Hn & Hc) Hh. rewrite start_try_catch.
  destruct (start p w) as [p1 w1]. cbn [fst snd] in *.
  destruct p1 as [a|e|X g k|X op k]; cbn [fst snd].
  - split; [exact I|]. now split.
  - destruct (calm_start (h e) (Hh e) w1) as (H1 & H2 & H3).
    split; [exact H1|]. split; [congruence|auto].
  - split; [now apply calm_try_catch|]. now split.
  - split; [now apply calm_try_catch|]. now split.
Qed.

Lemma good_settle {A} (p : prog A) w n : good_start p w n -> good_start (settle p) w n.
Proof.
  unfold good_start. intros (Hp & Hn & Hc). rewrite start_settle. cbn [fst snd].
  split; [now apply calm_settle|]. now split.
Qed.

Lemma good_withSpan {A} name (p : prog A) w n :
  good_start p w n -> good_start (withSpan name p) w n.
Proof.
  intros Hp. apply good_try_catch; [now apply good_settle|exact (fun _ => I)].
Qed.

Lemma good_finally {A} (p : prog A) c w n :
  good_start p w n ->
  (forall w, connects (c w) = connects w /\
             (connected w = true -> connected (c w) = true)) ->
  good_start (finally p c) w n.
Proof.
  unfold good_start. intros (Hp & Hn & Hc) Hcl. rewrite start_finally.
  destruct (start p w) as [p1 w1]. cbn [fst snd] in *.
  destruct (Hcl w1) as [Hc1 Hc2].
  destruct p1 as [a|e|X g k|X op k]; cbn [fst snd].
  - split; [exact I|]. split; [congruence|auto].
  - split; [exact I|]. split; [congruence|auto].
  - split; [now apply calm_finally|]. now split.
  - split; [now apply calm_finally|]. now split.
Qed.

Lemma good_connect w : good_start (settle ensureConnected) w (rounds_after w).
Proof.
  unfold good_start, rounds_after, ensureConnected. unmonad.
  cbn [bind read settle start fst snd]. destruct (connected w) eqn:Hc.
  - cbn [bind settle start fst snd calm]. repeat split; auto.
  - cbn [bind write settle start fst snd calm with_connects connects].
    split; [|split; [reflexivity|discriminate]].
    intros [e|x]; cbn [bind settle calm]; (split; [now intros w0|]);
      intros; cbn [settle calm]; auto.
Qed.

Lemma good_body c w : good_start (body c) w (rounds_after w) \/
                      good_start (body c) w (connects w).
Proof.
  destruct c as [k ts|k pe| |ts|ts d]; cbn [body].
  - left. apply good_bind; [|exact (fun _ => I)].
    unfold get, get_try. apply good_try_catch; [|exact (fun _ => I)].
    apply good_settle, good_withSpan, good_bind; [apply good_connect|].
    intros _. apply calm_bind; [split; [now intros w0|exact (fun _ => I)]|].
    intros p. apply calm_bind; [destruct p; [apply calm_await|exact I]|].
    intros _. apply calm_bind; [apply calm_await|].
    intros [[|c s]|]; try exact I.
    destruct (deserialize (String c s)); [|exact I].
    apply calm_bind; [split; [now intros w0|exact (fun _ => I)]|].
    intros now. now destruct (_ >? _)%Z.
  - left. apply good_bind; [|exact (fun _ => I)].
    unfold set. unmonad. cbn [bind start].
    unfold good_start. cbn [start register fst snd].
    change (good_start
              (finally (try_catch (set_try k pe) (fun _ => Ret tt))
                       (release k (next_promise w)))
              (register k w).2 (rounds_after w)).
    apply good_finally; [|now intros w0].
    apply good_try_catch; [|exact (fun _ => I)].
    unfold set_try.
    apply good_settle, good_withSpan, good_bind;
      [exact (good_connect (register k w).2)|].
    intros _. apply calm_bind; [intros _; now destruct pe|].
    intros e. apply calm_bind; [apply calm_read_chunks|].
    intros chunks. apply calm_exec.
  - left. apply good_bind; [|exact (fun _ => I)].
    unfold refreshTags, refreshTags_try.
    apply good_try_catch; [|exact (fun _ => I)].
    apply good_settle, good_withSpan, good_bind; [apply good_connect|].
    intros _. apply calm_bind; [apply calm_await|]. apply calm_refresh_loop.
  - right. apply good_calm. apply calm_bind; [|exact (fun _ => I)].
    unfold getExpiration. destruct ts; [exact I|].
    apply calm_withSpan. split; [now intros w0|exact (fun _ => I)].
  - left. apply good_bind; [|exact (fun _ => I)].
    unfold updateTags, updateTags_try.
    apply good_try_catch; [|exact (fun _ => I)].
    apply good_settle, good_withSpan, good_bind; [apply good_connect|].
    intros _. apply calm_bind; [split; [now intros w0|exact (fun _ => I)]|].
    intros now. apply calm_bind; [apply calm_update_loop|]. apply calm_exec.
Qed.

(** One event of the loop: the tasks stay calm; the count of rounds grows
    by one at most, and not at all once the flag is set, which stays set. *)
Lemma step_connection c ev :
  Forall calm (tasks c) ->
  Forall calm (tasks (step c ev)) /\
  (connects (world (step c ev)) <= S (connects (world c)))%nat /\
  (connected (world c) = true ->
   connected (world (step c ev)) = true /\
   connects (world (step c ev)) = connects (world c)).
Proof.
  intros Hc. destruct ev as [cl|i l]; cbn [step].
  - assert (H : exists n, good_start (body cl) (world c) n /\
                          (n <= S (connects (world c)))%nat /\
                          (connected (world c) = true -> n = connects (world c))).
    { destruct (good_body cl (world c)) as [H|H]; eexists; (split; [exact H|]).
      - unfold rounds_after. destruct (connected (world c)); split; auto; lia.
      - split; [lia|auto]. }
    destruct H as (n & (H1 & H2 & H3) & Hn & Hn').
    destruct (start (body cl) (world c)) as [p w]. cbn [fst snd world tasks] in *.
    split; [apply Forall_app; split; [exact Hc|now constructor]|].
    split; [lia|]. intros Hw. split; [auto|]. rewrite H2. auto.
  - destruct (tasks c !! i) as [p|] eqn:Ep.
    + destruct (resume p l (world c)) as [[p' w']|] eqn:Er.
      * assert (Hp : calm p).
        { rewrite Forall_forall in Hc. apply Hc.
          eapply list_elem_of_lookup_2. exact Ep. }
        destruct (calm_resume _ _ _ _ _ Hp Er) as (H1 & H2 & H3).
        cbn [world tasks]. split; [|split; [lia|auto]].
        apply Forall_forall. intros q Hq.
        apply list_elem_of_lookup in Hq as [j Hj].
        destruct (decide (i = j)) as [->|Hne].
        -- rewrite list_lookup_insert_eq in Hj
             by (eapply lookup_lt_Some; exact Ep).
           now injection Hj as <-.
        -- rewrite list_lookup_insert_ne in Hj by exact Hne.
           rewrite Forall_forall in Hc. apply Hc.
           eapply list_elem_of_lookup_2. exact Hj.
      * split; [exact Hc|]. split; [lia|auto].
    + split; [exact Hc|]. split; [lia|auto].
Qed.

(** Any run of the loop from a state with the flag set: the flag stays set
    and no further round of [connect()] is made, by the calls in flight or
    by the calls made meanwhile. *)
Lemma steps_connection evs : forall c,
  Forall calm (tasks c) -> connected (world c) = true ->
  Forall calm (tasks (steps c evs)) /\
  connected (world (steps c evs)) = true /\
  connects (world (steps c evs)) = connects (world c).
Proof.
  induction evs as [|ev evs IH]; intros c Hc Hw; [now split|].
  unfold steps. cbn [fold_left]. fold (steps (step c ev) evs).
  destruct (step_connection c ev Hc) as (H1 & _ & H3).
  destruct (H3 Hw) as [H4 H5].
  destruct (IH _ H1 H4) as (H6 & H7 & H8).
  split; [exact H6|]. split; [exact H7|]. congruence.
Qed.

(** From the start of the process the tasks are calm at all times. *)
Lemma steps_calm evs : forall c,
  Forall calm (tasks c) -> Forall calm (tasks (steps c evs)).
Proof.
  induction evs as [|ev evs IH]; intros c Hc; [exact Hc|].
  unfold steps. cbn [fold_left]. fold (steps (step c ev) evs).
  apply IH. apply (step_connection c ev Hc).
Qed.

End LoopFacts.

(** ** The store under the batches of [set] and [updateTags] *)

Module StoreFacts.

Import Handler Sched Notions RunFacts.

Local Open Scope Z_scope.

Lemma cache_key_not_tag_key k t : CACHE_PREFIX +:+ k <> TAGS_PREFIX +:+ t.
Proof. unfold CACHE_PREFIX, TAGS_PREFIX. simpl. discriminate. Qed.

Lemma cache_key_inj k1 k2 : CACHE_PREFIX +:+ k1 = CACHE_PREFIX +:+ k2 -> k1 = k2.
Proof. unfold CACHE_PREFIX. simpl. now intros [= ->]. Qed.

Lemma tag_key_inj t1 t2 : TAGS_PREFIX +:+ t1 = TAGS_PREFIX +:+ t2 -> t1 = t2.
Proof. unfold TAGS_PREFIX. simpl. now intros [= ->]. Qed.

Lemma apply_lookup_ne now c (st : gmap string Redis.slot) key :
  target c <> key -> Redis.apply now c st !! key = st !! key.
Proof.
  intros Hne. destruct c as [k s v|k m|k s|k|k v]; cbn [target Redis.apply] in *.
  - destruct (s <=? 0); [reflexivity|now apply lookup_insert_ne].
  - destruct (Redis.live now st k) as [[[v|ms] d]|];
      [reflexivity|now apply lookup_insert_ne|now apply lookup_insert_ne].
  - destruct (Redis.live now st k) as [[v d]|]; [|reflexivity].
    destruct (s <=? 0); [now apply lookup_delete_ne|now apply lookup_insert_ne].
  - now apply lookup_delete_ne.
  - now apply lookup_insert_ne.
Qed.

Lemma exec_lookup_ne now cs : forall (st : gmap string Redis.slot) key,
  Forall (fun c => target c <> key) cs ->
  Redis.exec now cs st !! key = st !! key.
Proof.
  induction cs as [|c cs IH]; intros st key Hcs; [reflexivity|].
  apply Forall_cons in Hcs as [Hc Hcs].
  change (Redis.exec now (c :: cs) st) with (Redis.exec now cs (Redis.apply now c st)).
  rewrite IH by exact Hcs. now apply apply_lookup_ne.
Qed.


(** *** What the batch of [set] leaves in the store *)

Lemma set_pipeline_targets key serialized e k' :
  key <> CACHE_PREFIX +:+ k' ->
  Forall (fun c => target c <> CACHE_PREFIX +:+ k') (set_pipeline key serialized e).
Proof.
  intros Hne. rewrite set_pipeline_eq. constructor; [exact Hne|].
  induction (tags e) as [|t ts IH]; cbn [flat_map app]; [constructor|].
  repeat constructor; cbn [target]; auto using not_eq_sym, cache_key_not_tag_key.
Qed.

Lemma exec_set_pipeline_entry now k serialized e (st : gmap string Redis.slot) :
  0 < expire e ->
  Redis.exec now (set_pipeline (CACHE_PREFIX +:+ k) serialized e) st
    !! (CACHE_PREFIX +:+ k)
  = Some (Redis.Slot (Redis.VString serialized) (Some (now + expire e * 1000))).
Proof.
  intros He. rewrite set_pipeline_eq.
  match goal with
  | |- Redis.exec _ (?c :: ?cs) _ !! _ = _ =>
      change (Redis.exec now (c :: cs) st)
        with (Redis.exec now cs (Redis.apply now c st))
  end.
  rewrite exec_lookup_ne.
  - cbn [Redis.apply]. destruct (Z.leb_spec (expire e) 0); [lia|].
    apply lookup_insert_eq.
  - induction (tags e) as [|t ts IH]; cbn [flat_map app]; [constructor|].
    repeat constructor; cbn [target]; auto using not_eq_sym, cache_key_not_tag_key.
Qed.

Lemma serialize_nonempty d : exists c s, serialize d = String c s.
Proof. unfold serialize, to_json. cbn [Json.stringify]. simpl. eauto. Qed.

(** [set] run alone with no failure: the state it leaves. *)
Lemma run_set_smooth k e ls w :
  errored (value e) = false -> smooth ls ->
  exists w1 ls1,
    run (set k (inr e)) ls w = Some (inr tt, w1, ls1) /\
    store w1 =
      Redis.exec (clock w1)
        (set_pipeline (CACHE_PREFIX +:+ k)
           (serialize (data_of e (concat (chunks (value e))))) e) (store w) /\
    clock w <= clock w1 /\ pendingSets w1 !! k = None /\
    tagTimestamps w1 = tagTimestamps w.
Proof.
  intros He Hls. pose proof (run_set k e ls w He) as Hr. cbv zeta in Hr.
  eexists _, _. split; [exact Hr|].
  destruct (after_connect_frame ls (register k w).2)
    as (Hts & _ & _ & _ & Hst & _ & Hc).
  rewrite (smooth_hd _ (smooth_drop _ _ (smooth_tl _ (smooth_after_connect _ _ Hls)))).
  cbn [store clock pendingSets tagTimestamps release with_pendingSets with_settled
       with_store later with_clock with_batches].
  rewrite Hst, Hts. cbn [register snd store tagTimestamps with_pendingSets
                         with_next_promise clock] in *.
  split; [reflexivity|]. split; [lia|]. split; [apply lookup_delete_eq|reflexivity].
Qed.

(** [get] for a key with no write in flight, in terms of what the store
    holds when the reply is made. *)
Lemma run_get_store k tags ls w :
  pendingSets w !! k = None ->
  exists w' ls',
    run (get k tags) ls w =
    Some (inr (get_outcome (store_get (hd quiet (after_connect ls w).2) w'
                              (CACHE_PREFIX +:+ k)) (clock w')), w', ls') /\
    store w' = store w /\ clock w <= clock w' /\
    tagTimestamps w' = tagTimestamps w /\ pendingSets w' = pendingSets w /\
    settled w' = settled w /\ batches w' = batches w.
Proof.
  intros Hp. pose proof (run_get k tags ls w Hp) as Hr. cbv zeta in Hr.
  eexists _, _. split; [exact Hr|].
  destruct (after_connect_frame ls w) as (Hts & Hpe & Hse & _ & Hst & Hb & Hc).
  cbn [store clock later with_clock tagTimestamps pendingSets settled batches].
  repeat split; try assumption. lia.
Qed.


(** *** What the batch of [set] leaves in the set of a tag *)

Lemma live_lookup now (st st' : gmap string Redis.slot) k :
  st' !! k = st !! k -> Redis.live now st' k = Redis.live now st k.
Proof. unfold Redis.live. now intros ->. Qed.

Section TagSet.

Variables (now x : Z) (key t : string).
Hypothesis x_pos : 0 < x.

Let tk := TAGS_PREFIX +:+ t.

Lemma pair_other tag st :
  tag <> t -> Redis.exec now (tag_commands key x tag) st !! tk = st !! tk.
Proof.
  intros Hne. apply exec_lookup_ne.
  repeat constructor; cbn [target]; intros H%tag_key_inj; contradiction.
Qed.

Lemma pair_establishes st :
  no_text now t st -> listed now x key t (Redis.exec now (tag_commands key x t) st).
Proof.
  intros Hq. unfold Redis.exec, tag_commands, listed. cbn [fold_left]. fold tk.
  assert (Hx : (x <=? 0) = false) by (apply Z.leb_gt; exact x_pos).
  cbn [Redis.apply]. destruct (Redis.live now st tk) as [[[v|s] d]|] eqn:El.
  - now destruct (Hq v d).
  - assert (Hl : Redis.live now (<[tk:=Redis.Slot (Redis.VSet ({[key]} ∪ s)) d]> st) tk
                 = Some (Redis.Slot (Redis.VSet ({[key]} ∪ s)) d)).
    { unfold Redis.live in *. rewrite lookup_insert_eq. cbn [Redis.deadline].
      destruct (st !! tk) as [[v' d']|]; [|discriminate].
      cbn [Redis.deadline] in El. destruct d' as [d'|].
      - destruct (d' <=? now) eqn:Ed; [discriminate|].
        injection El as _ <-. now rewrite Ed.
      - now injection El as _ <-. }
    rewrite Hl, Hx. exists ({[key]} ∪ s). rewrite lookup_insert_eq.
    split; [reflexivity|set_solver].
  - assert (Hl : Redis.live now (<[tk:=Redis.Slot (Redis.VSet {[key]}) None]> st) tk
                 = Some (Redis.Slot (Redis.VSet {[key]}) None)).
    { unfold Redis.live. now rewrite lookup_insert_eq. }
    rewrite Hl, Hx. exists {[key]}. rewrite lookup_insert_eq.
    split; [reflexivity|set_solver].
Qed.

Lemma listed_no_text st : listed now x key t st -> no_text now t st.
Proof.
  intros (s & Hs & _) v d. unfold Redis.live. rewrite Hs. cbn [Redis.deadline].
  destruct (_ <=? _); discriminate.
Qed.

Lemma pair_keeps tag st :
  listed now x key t st -> listed now x key t (Redis.exec now (tag_commands key x tag) st).
Proof.
  intros Hl. destruct (decide (tag = t)) as [->|Hne].
  - apply pair_establishes, listed_no_text, Hl.
  - destruct Hl as (s & Hs & Hin). exists s. fold tk. now rewrite pair_other.
Qed.

Lemma pairs_keep tags : forall st,
  listed now x key t st ->
  listed now x key t (Redis.exec now (flat_map (tag_commands key x) tags) st).
Proof.
  induction tags as [|tag tags IH]; intros st Hl; [exact Hl|].
  cbn [flat_map]. rewrite exec_app. apply IH, pair_keeps, Hl.
Qed.

Lemma pairs_establish tags : forall st,
  t ∈ tags -> no_text now t st ->
  listed now x key t (Redis.exec now (flat_map (tag_commands key x) tags) st).
Proof.
  induction tags as [|tag tags IH]; intros st Hin Hq.
  { now apply elem_of_nil in Hin. }
  cbn [flat_map]. rewrite exec_app.
  destruct (decide (tag = t)) as [->|Hne].
  - apply pairs_keep, pair_establishes, Hq.
  - apply elem_of_cons in Hin as [Heq|Hin]; [congruence|].
    apply IH; [exact Hin|]. intros v d.
    rewrite (live_lookup _ _ _ _ (pair_other tag st Hne)). apply Hq.
Qed.

End TagSet.

Lemma exec_set_pipeline_tag now k serialized e t (st : gmap string Redis.slot) :
  t ∈ tags e -> 0 < expire e + 60 ->
  (forall s d, st !! (TAGS_PREFIX +:+ t) <> Some (Redis.Slot (Redis.VString s) d)) ->
  listed now (expire e + 60) (CACHE_PREFIX +:+ k) t
    (Redis.exec now (set_pipeline (CACHE_PREFIX +:+ k) serialized e) st).
Proof.
  intros Hin Hx Hst. rewrite set_pipeline_eq.
  match goal with
  | |- listed _ _ _ _ (Redis.exec _ (?c :: ?cs) _) =>
      change (Redis.exec now (c :: cs) st)
        with (Redis.exec now cs (Redis.apply now c st))
  end.
  apply (pairs_establish now (expire e + 60) (CACHE_PREFIX +:+ k) t Hx); [exact Hin|].
  intros v d. rewrite (live_lookup _ st).
  - unfold Redis.live. destruct (st !! (TAGS_PREFIX +:+ t)) as [[v' d']|] eqn:E;
      [|discriminate].
    specialize (Hst v d).
    cbn [Redis.deadline]. destruct d' as [d'|]; [destruct (_ <=? _); [discriminate|]|];
      congruence.
  - apply apply_lookup_ne. cbn [target]. apply cache_key_not_tag_key.
Qed.


Lemma run_get_absent k tags ls w :
  pendingSets w !! k = None ->
  store w !! (CACHE_PREFIX +:+ k) = None ->
  exists w' ls', run (get k tags) ls w = Some (inr None, w', ls').
Proof.
  intros Hp Hs. destruct (run_get_store k tags ls w Hp) as (w' & ls' & Hr & Hst & _).
  exists w', ls'. rewrite Hr. f_equal. f_equal. f_equal.
  unfold store_get. destruct (fails _); [reflexivity|].
  unfold Redis.get, Redis.live. now rewrite Hst, Hs.
Qed.


(** *** [getExpiration] as a maximum *)

Lemma max_timestamp_fold m tags : forall acc,
  0 <= acc ->
  fold_left
    (fun maxTimestamp tag =>
       let timestamp := default (Int 0) (m !! tag) in
       if gt timestamp maxTimestamp then
         match timestamp with Int z => z | NaN => maxTimestamp end
       else maxTimestamp)
    tags acc
  = fold_left (fun acc tag => Z.max acc (stamp_of m tag)) tags acc.
Proof.
  induction tags as [|t tags IH]; intros acc Hacc; [reflexivity|].
  cbn [fold_left]. unfold stamp_of at 2.
  destruct (m !! t) as [[|z]|];
    cbv beta iota zeta delta [default from_option id gt].
  - rewrite Z.max_l by lia. now apply IH.
  - destruct (Z.gtb_spec z acc).
    + rewrite Z.max_r by lia. apply IH. lia.
    + rewrite Z.max_l by lia. now apply IH.
  - destruct (Z.gtb_spec 0 acc); [lia|]. rewrite Z.max_l by lia. now apply IH.
Qed.

Lemma fold_max_ge m tags : forall acc,
  acc <= fold_left (fun acc tag => Z.max acc (stamp_of m tag)) tags acc.
Proof.
  induction tags as [|t tags IH]; intros acc; cbn [fold_left]; [lia|].
  specialize (IH (Z.max acc (stamp_of m t))). lia.
Qed.

Lemma fold_max_mono m tags : forall a b,
  a <= b ->
  fold_left (fun acc tag => Z.max acc (stamp_of m tag)) tags a
  <= fold_left (fun acc tag => Z.max acc (stamp_of m tag)) tags b.
Proof.
  induction tags as [|t tags IH]; intros a b Hab; cbn [fold_left]; [exact Hab|].
  apply IH. lia.
Qed.

Lemma fold_max_elem m tags : forall acc t,
  t ∈ tags ->
  stamp_of m t <= fold_left (fun acc tag => Z.max acc (stamp_of m tag)) tags acc.
Proof.
  induction tags as [|x tags IH]; intros acc t Hin.
  { now apply elem_of_nil in Hin. }
  cbn [fold_left]. apply elem_of_cons in Hin as [->|Hin].
  - pose proof (fold_max_ge m tags (Z.max acc (stamp_of m x))). lia.
  - now apply IH.
Qed.

Lemma fold_max_attained m tags : forall acc,
  let z := fold_left (fun acc tag => Z.max acc (stamp_of m tag)) tags acc in
  z = acc \/ exists t, t ∈ tags /\ stamp_of m t = z.
Proof.
  induction tags as [|x tags IH]; intros acc; cbn [fold_left]; [now left|].
  destruct (IH (Z.max acc (stamp_of m x))) as [H|(t & Hin & Ht)].
  - cbv zeta in H. rewrite H.
    destruct (Z.max_spec acc (stamp_of m x)) as [[_ ->]|[_ ->]].
    + right. exists x. split; [apply elem_of_cons; now left|reflexivity].
    + now left.
  - right. exists t. split; [apply elem_of_cons; now right|exact Ht].
Qed.

Lemma fold_max_bound m tags b : forall acc,
  acc <= b -> (forall t, t ∈ tags -> stamp_of m t <= b) ->
  fold_left (fun acc tag => Z.max acc (stamp_of m tag)) tags acc <= b.
Proof.
  induction tags as [|x tags IH]; intros acc Hacc Hall; cbn [fold_left]; [exact Hacc|].
  apply IH.
  - specialize (Hall x). rewrite elem_of_cons in Hall. specialize (Hall (or_introl eq_refl)). lia.
  - intros t Ht. apply Hall, elem_of_cons. now right.
Qed.

Lemma expiration_max w tags :
  expiration w tags
  = fold_left (fun acc tag => Z.max acc (stamp_of (tagTimestamps w) tag)) tags 0.
Proof. unfold expiration, max_timestamp. now apply max_timestamp_fold. Qed.


(** *** [updateTags] when nothing fails *)

Lemma run_update_loop_batch now tags : forall pipeline ls w p w' ls',
  run (update_loop now tags pipeline) ls w = Some (inr p, w', ls') ->
  exists mss,
    Forall2 (fun t ms =>
               exists ts, clock w <= ts <= clock w' /\
                 Redis.smembers ts (store w) (TAGS_PREFIX +:+ t) = Redis.Ok ms)
            tags mss /\
    p = pipeline ++ concat (zip_with (invalidation now) tags mss).
Proof.
  induction tags as [|t rest IH]; intros pipeline ls w p w' ls'.
  - intros [= <- <- _]. exists []. split; [constructor|]. cbn. now rewrite app_nil_r.
  - cbn [update_loop]. rewrite run_bind, run_await. cbn [perform].
    set (wa := later (hd quiet ls) w).
    destruct (fails (hd quiet ls)); [discriminate|].
    destruct (Redis.smembers (clock wa) (store wa) (TAGS_PREFIX +:+ t))
      as [ms|] eqn:Es; cbn [of_reply]; [|discriminate].
    rewrite run_bind, run_write. intros Hr.
    destruct (run_update_loop _ _ _ _ _ _ _ _ Hr)
      as (_ & _ & _ & _ & (_ & _ & _ & Hck) & _).
    destruct (IH _ _ _ _ _ _ Hr) as (mss & Hmss & ->).
    cbn [clock store with_tagTimestamps] in Hmss, Hck.
    assert (Hw : clock w <= clock wa) by (cbn; lia).
    exists (ms :: mss). split.
    + constructor.
      * exists (clock wa). split; [lia|exact Es].
      * eapply Forall2_impl; [exact Hmss|].
        intros t' ms' (ts & Hts & Hsm). exists ts. split; [lia|exact Hsm].
    + cbn [zip_with concat]. unfold invalidation at 2. now rewrite <- !app_assoc.
Qed.

Lemma run_update_loop_labels now tags : forall pipeline ls w p w' ls',
  run (update_loop now tags pipeline) ls w = Some (inr p, w', ls') ->
  ls' = drop (length tags) ls.
Proof.
  induction tags as [|t rest IH]; intros pipeline ls w p w' ls'.
  - intros [= _ _ <-]. now rewrite drop_0.
  - cbn [update_loop]. rewrite run_bind, run_await. cbn [perform].
    destruct (if fails (hd quiet ls) then _ else _) as [e|ms]; [discriminate|].
    rewrite run_bind, run_write. intros Hr.
    rewrite (IH _ _ _ _ _ _ Hr). cbn [length].
    destruct ls; [cbn [tl]; now rewrite !drop_nil|reflexivity].
Qed.

(** The body of [updateTags] when it comes to its end: the batch it hands
    to the store, and the store it leaves, the batch having gone through
    or not. *)
Lemma run_updateTags_ok tags d ls w w' ls' :
  run (updateTags_try tags d) ls w = Some (inr tt, w', ls') ->
  exists now mss,
    clock w <= now <= clock w' /\
    Forall2 (fun t ms =>
               exists ts, now <= ts <= clock w' /\
                 Redis.smembers ts (store w) (TAGS_PREFIX +:+ t) = Redis.Ok ms)
            tags mss /\
    batches w' = batches w ++ [concat (zip_with (invalidation now) tags mss)] /\
    store w' =
      (if fails (hd quiet (drop (length tags) (after_connect ls w).2))
       then store w
       else Redis.exec (clock w')
              (concat (zip_with (invalidation now) tags mss)) (store w)) /\
    tagTimestamps w' = stamp now tags (tagTimestamps w) /\
    unchanged w w'.
Proof.
  unfold updateTags_try.
  rewrite run_settle, run_withSpan, run_bind, run_connect, run_bind, run_read.
  destruct (after_connect_frame ls w) as (Hts & Hp & Hs & Hn & Hst & Hb & Hc).
  set (w1 := (after_connect ls w).1) in *.
  set (ls1 := (after_connect ls w).2) in *.
  rewrite run_bind.
  destruct (run (update_loop (clock w1) tags []) ls1 w1)
    as [[[[e|pipeline] w2] ls2]|] eqn:El; [discriminate| |discriminate].
  destruct (run_update_loop _ _ _ _ _ _ _ _ El)
    as (done & _ & Hall & Hts2 & Hun2 & Hst2 & Hb2).
  destruct (run_update_loop_batch _ _ _ _ _ _ _ _ El) as (mss & Hmss & ->).
  rewrite (Hall _ eq_refl) in Hts2. cbn [app] in *.
  pose proof (run_exec (concat (zip_with (invalidation (clock w1)) tags mss)) ls2 w2)
    as Hx.
  cbv zeta in Hx. rewrite Hx. clear Hx.
  rewrite <- (run_update_loop_labels _ _ _ _ _ _ _ _ El).
  intros [= <- _]. exists (clock w1), mss.
  destruct Hun2 as (Hp2 & Hs2 & Hn2 & Hc2).
  destruct (fails (hd quiet ls2));
    cbn [clock store batches tagTimestamps with_store later with_clock
         with_batches];
    (split; [lia|]); (split;
      [eapply Forall2_impl; [exact Hmss|];
       intros t' ms' (ts & Hts' & Hsm); exists ts; split; [lia|];
       now rewrite <- Hst|]);
    (split; [now rewrite Hb2, Hb|]); (split; [now rewrite ?Hst2, Hst|]);
    (split; [now rewrite Hts2, Hts|]);
    unfold unchanged;
    cbn [pendingSets settled next_promise clock with_store later with_clock
         with_batches];
    repeat split; try congruence; lia.
Qed.

End StoreFacts.

(** ** Keys of timestamps, and [refreshTags] *)

Module TagFacts.

Import Handler Sched Notions RunFacts StoreFacts.

Local Open Scope Z_scope.

(** *** Prefixes, occurrences and the first occurrence *)

Lemma strip_prefix_app p : forall s, Json.strip_prefix p (p +:+ s) = Some s.
Proof.
  induction p as [|a p IH]; intros s; [reflexivity|].
  cbn. now rewrite Ascii.eqb_refl.
Qed.

Lemma strip_prefix_Some p : forall s r, Json.strip_prefix p s = Some r -> s = p +:+ r.
Proof.
  induction p as [|a p IH]; intros s r; cbn.
  - now intros [= ->].
  - destruct s as [|b s]; [discriminate|].
    destruct (Ascii.eqb_spec a b) as [->|]; [|discriminate].
    intros H. cbn. f_equal. now apply IH.
Qed.

(** A prefix of [m ++ q] lies within [m], or [m] is the start of it. *)
Lemma strip_prefix_split p : forall m q r,
  Json.strip_prefix p (m +:+ q) = Some r ->
  (exists m', m = p +:+ m' /\ r = m' +:+ q) \/
  (exists p2, p = m +:+ p2 /\ Json.strip_prefix p2 q = Some r).
Proof.
  induction p as [|a p IH]; intros m q r.
  - cbn. intros [= <-]. left. now exists m.
  - destruct m as [|b m].
    + intros H. right. now exists (String a p).
    + cbn. destruct (Ascii.eqb_spec a b) as [->|]; [|discriminate].
      intros H. destruct (IH _ _ _ H) as [(m' & -> & ->)|(p2 & -> & Hp)].
      * left. now exists m'.
      * right. now exists p2.
Qed.

Lemma remove_first_eq pat s :
  remove_first pat s =
  match Json.strip_prefix pat s with
  | Some rest => rest
  | None =>
      match s with
      | String c s' => String c (remove_first pat s')
      | EmptyString => EmptyString
      end
  end.
Proof. destruct s; reflexivity. Qed.

Lemma remove_first_prefix p s : remove_first p (p +:+ s) = s.
Proof. now rewrite remove_first_eq, strip_prefix_app. Qed.

Lemma has_eq pat s :
  has pat s =
  match Json.strip_prefix pat s with
  | Some _ => true
  | None =>
      match s with
      | String _ s' => has pat s'
      | EmptyString => false
      end
  end.
Proof. destruct s; reflexivity. Qed.

Lemma has_app_r pat : forall a, has pat (a +:+ pat) = true.
Proof.
  induction a as [|c a IH]; rewrite has_eq.
  - cbn [String.append]. replace pat with (pat +:+ "") at 2 by apply JsonFacts.append_nil_r.
    now rewrite strip_prefix_app.
  - cbn [String.append]. destruct (Json.strip_prefix _ _); [reflexivity|exact IH].
Qed.

(** No end of [":timestamp"] is a start of it. *)
Lemma timestamp_no_border m p2 :
  ":timestamp" = m +:+ p2 ->
  m = "" \/ p2 = "" \/ Json.strip_prefix p2 ":timestamp" = None.
Proof.
  intros H.
  repeat (destruct m as [|? m];
          [cbn in H; subst p2; first [now left | right; right; reflexivity]|];
          cbn in H; injection H as <- H).
  destruct m; [|discriminate]. cbn in H. subst p2. right. now left.
Qed.

Lemma timestamp_no_straddle m r :
  m <> "" ->
  Json.strip_prefix ":timestamp" (m +:+ ":timestamp") = Some r ->
  exists m', m = ":timestamp" +:+ m' /\ r = m' +:+ ":timestamp".
Proof.
  intros Hm H. destruct (strip_prefix_split _ _ _ _ H) as [Hl|(p2 & Hp & Hs)].
  - exact Hl.
  - destruct (timestamp_no_border m p2 Hp) as [->|[->|Hn]].
    + contradiction.
    + rewrite JsonFacts.append_nil_r in Hp. subst m. exists "". cbn in Hs.
      injection Hs as <-. now split.
    + congruence.
Qed.

(** The tag of a timestamp key: the first [":timestamp"] goes, which is
    the one at the end when the tag holds none. *)
Lemma remove_first_timestamp t :
  has ":timestamp" t = false -> remove_first ":timestamp" (t +:+ ":timestamp") = t.
Proof.
  induction t as [|c t IH]; [reflexivity|].
  rewrite has_eq. destruct (Json.strip_prefix ":timestamp" (String c t)) eqn:Es;
    [discriminate|].
  intros Ht. rewrite remove_first_eq.
  destruct (Json.strip_prefix ":timestamp" (String c t +:+ ":timestamp")) eqn:E.
  - apply timestamp_no_straddle in E as (m' & Hm & _); [|discriminate].
    rewrite Hm, strip_prefix_app in Es. discriminate.
  - cbn [String.append]. f_equal. now apply IH.
Qed.

Lemma remove_first_timestamp_inv m :
  has ":timestamp" (remove_first ":timestamp" (m +:+ ":timestamp")) = false ->
  remove_first ":timestamp" (m +:+ ":timestamp") = m.
Proof.
  induction m as [|c m IH]; [reflexivity|].
  rewrite remove_first_eq.
  destruct (Json.strip_prefix ":timestamp" (String c m +:+ ":timestamp")) eqn:E.
  - apply timestamp_no_straddle in E as (m' & Hm & ->); [|discriminate].
    now rewrite has_app_r.
  - cbn [String.append]. rewrite has_eq.
    destruct (Json.strip_prefix _ (String c _)); [discriminate|].
    intros H. f_equal. now apply IH.
Qed.


(** *** Patterns *)

Lemma glob_star p s :
  Redis.glob (String "*" p) s =
  Redis.glob p s || match s with
                    | String _ s' => Redis.glob (String "*" p) s'
                    | EmptyString => false
                    end.
Proof. destruct s; reflexivity. Qed.

Lemma glob_char c p s :
  Ascii.eqb c "*" = false ->
  Redis.glob (String c p) s =
  match s with
  | String d s' => Ascii.eqb c d && Redis.glob p s'
  | EmptyString => false
  end.
Proof. intros H. cbn [Redis.glob]. now rewrite H. Qed.

Lemma has_star_cons c p :
  has "*" (String c p) = false -> Ascii.eqb c "*" = false /\ has "*" p = false.
Proof.
  rewrite has_eq. cbn [Json.strip_prefix]. rewrite (Ascii.eqb_sym c).
  destruct (Ascii.eqb "*" c); [discriminate|]. now split.
Qed.

(** A pattern with no star matches itself only. *)
Lemma glob_plain p : forall s,
  has "*" p = false -> Redis.glob p s = true <-> s = p.
Proof.
  induction p as [|c p IH]; intros s Hp.
  - cbn. destruct s; split; congruence.
  - apply has_star_cons in Hp as [Hc Hp]. rewrite glob_char by exact Hc.
    destruct s as [|d s]; [split; discriminate|].
    rewrite andb_true_iff, (IH s Hp). split.
    + intros [Hcd ->]. apply Ascii.eqb_eq in Hcd. now subst.
    + intros [= -> ->]. split; [apply Ascii.eqb_refl|reflexivity].
Qed.

Lemma glob_app_plain p q : forall s,
  has "*" p = false ->
  Redis.glob (p +:+ q) s = true <-> exists r, s = p +:+ r /\ Redis.glob q r = true.
Proof.
  induction p as [|c p IH]; intros s Hp.
  - cbn [String.append]. split; [intros H; now exists s|now intros (r & -> & H)].
  - apply has_star_cons in Hp as [Hc Hp]. cbn [String.append].
    rewrite glob_char by exact Hc.
    destruct s as [|d s].
    + split; [discriminate|]. now intros (r & [=] & _).
    + rewrite andb_true_iff, (IH s Hp). split.
      * intros [Hcd (r & -> & Hr)]. apply Ascii.eqb_eq in Hcd. subst. now exists r.
      * intros (r & [= -> ->] & Hr). split; [apply Ascii.eqb_refl|now exists r].
Qed.

Lemma glob_star_plain p : forall s,
  has "*" p = false ->
  Redis.glob (String "*" p) s = true <-> exists m, s = m +:+ p.
Proof.
  intros s Hp. induction s as [|d s IH]; rewrite glob_star, orb_true_iff, glob_plain
    by exact Hp.
  - split.
    + intros [<-|]; [now exists ""|discriminate].
    + intros (m & Hm). left. destruct m; [exact Hm|discriminate].
  - rewrite IH. split.
    + intros [->|(m & ->)]; [now exists ""|now exists (String d m)].
    + intros (m & Hm). destruct m as [|c m]; [now left|].
      injection Hm as -> ->. right. now exists m.
Qed.

(** The keys that [refreshTags] asks for. *)
Lemma glob_timestamp_keys k :
  Redis.glob (TAGS_PREFIX +:+ "*:timestamp") k = true <->
  exists m, k = TAGS_PREFIX +:+ m +:+ ":timestamp".
Proof.
  rewrite (glob_app_plain TAGS_PREFIX) by reflexivity. split.
  - intros (r & -> & Hr). apply glob_star_plain in Hr as (m & ->); [|reflexivity].
    now exists m.
  - intros (m & ->). exists (m +:+ ":timestamp"). split; [reflexivity|].
    apply glob_star_plain; [reflexivity|now exists m].
Qed.

Lemma elem_of_keys now (st : gmap string Redis.slot) pattern k :
  k ∈ Redis.keys now st pattern <->
  is_Some (Redis.live now st k) /\ Redis.glob pattern k = true.
Proof.
  unfold Redis.keys. rewrite list_elem_of_filter, andb_true_iff, bool_decide_eq_true.
  rewrite elem_of_elements, elem_of_dom. split; [tauto|].
  intros [Hl Hg]. split; [now split|].
  unfold Redis.live in Hl. destruct (st !! k); [eauto|now destruct Hl].
Qed.

Lemma live_earlier t1 t2 (st : gmap string Redis.slot) k sl :
  t1 <= t2 -> Redis.live t2 st k = Some sl -> Redis.live t1 st k = Some sl.
Proof.
  unfold Redis.live. intros Ht. destruct (st !! k) as [[v [d|]]|];
    cbn [Redis.deadline]; [|trivial|trivial].
  destruct (Z.leb_spec d t2); [discriminate|].
  destruct (Z.leb_spec d t1); [lia|trivial].
Qed.


(** *** [refreshTags], run alone *)

Lemma untouched_refl w : untouched w w.
Proof. split; [|split]; try reflexivity. apply unchanged_refl. Qed.

Lemma untouched_trans w1 w2 w3 : untouched w1 w2 -> untouched w2 w3 -> untouched w1 w3.
Proof.
  intros (H1 & H2 & H3) (H4 & H5 & H6). repeat split; try congruence;
    eapply unchanged_trans; eassumption.
Qed.

Lemma untouched_later l w : untouched w (later l w).
Proof. split; [|split]; try reflexivity. apply unchanged_later. Qed.

Lemma untouched_tagTimestamps m w : untouched w (with_tagTimestamps m w).
Proof. split; [|split]; try reflexivity. unfold unchanged. cbn. repeat split; lia. Qed.

Lemma untouched_after_connect ls w : untouched w (after_connect ls w).1.
Proof.
  destruct (after_connect_frame ls w) as (_ & ? & ? & ? & ? & ? & ?).
  repeat split; assumption.
Qed.

Lemma run_refresh_loop_frame keys : forall ls w r w' ls',
  run (refresh_loop keys) ls w = Some (r, w', ls') -> untouched w w'.
Proof.
  induction keys as [|k rest IH]; intros ls w r w' ls'.
  - intros [= _ <- _]. apply untouched_refl.
  - cbn [refresh_loop]. rewrite run_bind, run_await. cbn [perform].
    set (wa := later (hd quiet ls) w).
    assert (Ha : untouched w wa) by apply untouched_later.
    destruct (if fails (hd quiet ls) then _ else _) as [e|o].
    + now intros [= _ <- _].
    + rewrite run_bind. destruct o as [[|c s]|]; cbn [run mret prog_ret].
      * intros H. eapply untouched_trans; [exact Ha|]. eapply IH, H.
      * unfold write. cbn [run]. intros H.
        eapply untouched_trans; [exact Ha|].
        eapply untouched_trans; [apply untouched_tagTimestamps|]. eapply IH, H.
      * intros H. eapply untouched_trans; [exact Ha|]. eapply IH, H.
Qed.

Section Refresh.

Variables (t v : string).
Hypothesis t_clean : has ":timestamp" t = false.
Hypothesis v_text : v <> "".

Let key := (TAGS_PREFIX +:+ t) +:+ ":timestamp".

Lemma tag_of_own_key :
  remove_first ":timestamp" (remove_first TAGS_PREFIX key) = t.
Proof.
  unfold key. rewrite JsonFacts.append_assoc, remove_first_prefix.
  now apply remove_first_timestamp.
Qed.

Lemma tag_of_other_key k :
  Redis.glob (TAGS_PREFIX +:+ "*:timestamp") k = true ->
  remove_first ":timestamp" (remove_first TAGS_PREFIX k) = t -> k = key.
Proof.
  intros (m & ->)%glob_timestamp_keys. rewrite remove_first_prefix. intros H.
  assert (Hm : remove_first ":timestamp" (m +:+ ":timestamp") = m).
  { apply remove_first_timestamp_inv. now rewrite H. }
  unfold key. rewrite JsonFacts.append_assoc. congruence.
Qed.

Lemma run_refresh_loop_reads keys : forall ls w w' ls',
  Forall (fun k => Redis.glob (TAGS_PREFIX +:+ "*:timestamp") k = true) keys ->
  run (refresh_loop keys) ls w = Some (inr tt, w', ls') ->
  Redis.get (clock w') (store w) key = Redis.Ok (Some v) ->
  key ∈ keys \/ tagTimestamps w !! t = Some (parseInt v) ->
  tagTimestamps w' !! t = Some (parseInt v).
Proof.
  induction keys as [|k rest IH]; intros ls w w' ls' Hk.
  - intros [= <- _] _ [H|H]; [now apply elem_of_nil in H|exact H].
  - apply Forall_cons in Hk as [Hk Hrest].
    cbn [refresh_loop]. rewrite run_bind, run_await. cbn [perform].
    set (wa := later (hd quiet ls) w).
    destruct (fails (hd quiet ls)); [discriminate|].
    destruct (Redis.get (clock wa) (store wa) k) as [o|] eqn:Eg; cbn [of_reply];
      [|discriminate].
    rewrite run_bind. intros Hr Hv Hin.
    assert (Hown : k = key -> o = Some v).
    { intros ->.
      assert (Hc : clock wa <= clock w').
      { destruct o as [[|c s]|]; cbn [run mret prog_ret write] in Hr;
          apply run_refresh_loop_frame in Hr as (_ & _ & _ & _ & _ & Hc);
          exact Hc. }
      change (store wa) with (store w) in Eg.
      unfold Redis.get in *.
      destruct (Redis.live (clock w') (store w) key) as [[[s|s] d]|] eqn:El;
        try discriminate.
      rewrite (live_earlier _ _ _ _ _ Hc El) in Eg. congruence. }
    destruct (decide (k = key)) as [Heq|Hne].
    + rewrite (Hown Heq) in Hr. destruct v as [|c s]; [contradiction|].
      cbn [run write mret prog_ret] in Hr.
      apply (IH _ _ _ _ Hrest Hr); [exact Hv|]. right.
      cbn [tagTimestamps with_tagTimestamps]. subst k.
      rewrite tag_of_own_key. apply lookup_insert_eq.
    + assert (Hin' : key ∈ rest \/ tagTimestamps w !! t = Some (parseInt v)).
      { destruct Hin as [Hin|Hin]; [|now right].
        apply elem_of_cons in Hin as [Hin|Hin]; [congruence|now left]. }
      destruct o as [[|c s]|]; cbn [run write mret prog_ret] in Hr.
      * apply (IH _ _ _ _ Hrest Hr); [exact Hv|exact Hin'].
      * apply (IH _ _ _ _ Hrest Hr); [exact Hv|].
        destruct Hin' as [Hin'|Hin']; [now left|right].
        cbn [tagTimestamps with_tagTimestamps].
        rewrite lookup_insert_ne; [exact Hin'|].
        intros Ht. apply Hne. now apply tag_of_other_key.
      * apply (IH _ _ _ _ Hrest Hr); [exact Hv|exact Hin'].
Qed.

Lemma run_refreshTags_reads ls w w' ls' :
  run refreshTags_try ls w = Some (inr tt, w', ls') ->
  Redis.get (clock w') (store w) key = Redis.Ok (Some v) ->
  tagTimestamps w' !! t = Some (parseInt v).
Proof.
  unfold refreshTags_try.
  rewrite run_settle, run_withSpan, run_bind, run_connect, run_bind, run_await.
  destruct (after_connect_frame ls w) as (_ & _ & _ & _ & Hst & _).
  set (w1 := (after_connect ls w).1) in *.
  set (ls1 := (after_connect ls w).2) in *.
  cbn [perform]. set (wk := later (hd quiet ls1) w1).
  destruct (fails (hd quiet ls1)); [discriminate|].
  destruct (run (refresh_loop _) (tl ls1) wk) as [[[[e|[]] w2] ls2]|] eqn:El;
    [discriminate| |discriminate].
  intros [= <- _] Hv.
  assert (Hs : store wk = store w) by exact Hst.
  rewrite <- Hs in Hv.
  apply (run_refresh_loop_reads _ _ _ _ _ ltac:(apply Forall_forall; intros k [_ Hk]%elem_of_keys; exact Hk) El Hv).
  left. apply elem_of_keys. split.
  - apply run_refresh_loop_frame in El as (_ & _ & _ & _ & _ & Hc).
    unfold Redis.get in Hv.
    destruct (Redis.live (clock w2) (store wk) key) as [sl|] eqn:E; [|discriminate].
    rewrite (live_earlier _ _ _ _ _ Hc E). eauto.
  - apply glob_timestamp_keys. exists t. unfold key. now rewrite JsonFacts.append_assoc.
Qed.

End Refresh.

Lemma digit_not_sign c :
  Decimal.is_digit c = true ->
  is_space c = false /\ Ascii.eqb c "-" = false /\ Ascii.eqb c "+" = false.
Proof.
  destruct c as [[] [] [] [] [] [] [] []]; intros H;
    first [discriminate H | repeat split; reflexivity].
Qed.

Lemma read_int_print_N n : read_int (Decimal.print_N n) = Some n.
Proof.
  unfold read_int.
  destruct (DecimalFacts.print_N_head n "") as (c & r & E & Hd & _).
  rewrite JsonFacts.append_nil_r in E.
  pose proof (DecimalFacts.read_digits_print_N n "" eq_refl) as Hr.
  rewrite JsonFacts.append_nil_r in Hr. rewrite Hr, E. cbn. now rewrite Hd.
Qed.

Lemma parseInt_print_N n : parseInt (Decimal.print_N n) = Int (Z.of_N n).
Proof.
  unfold parseInt. pose proof (read_int_print_N n) as Hr.
  destruct (DecimalFacts.print_N_head n "") as (c & r & E & Hd & _).
  rewrite JsonFacts.append_nil_r in E. rewrite E in *.
  destruct (digit_not_sign c Hd) as (Hs & Hm & Hp).
  cbn [trim_left]. now rewrite Hs, Hm, Hp, Hr.
Qed.

Lemma parseInt_print_Z z : parseInt (Decimal.print_Z z) = Int z.
Proof.
  destruct z as [|p|p].
  - reflexivity.
  - change (Decimal.print_Z (Z.pos p)) with (Decimal.print_N (N.pos p)).
    now rewrite parseInt_print_N.
  - unfold Decimal.print_Z, parseInt. cbn [trim_left is_space].
    change (is_space "-") with false. cbn iota.
    rewrite Ascii.eqb_refl, read_int_print_N. reflexivity.
Qed.

Lemma print_Z_text z : Decimal.print_Z z <> "".
Proof.
  destruct (JsonFacts.print_Z_head z "") as (c & r & E & _).
  rewrite JsonFacts.append_nil_r in E. now rewrite E.
Qed.


(** *** [get], whatever [pendingSets] holds *)

Lemma run_get_any k tags ls w :
  let w1 := (after_connect ls w).1 in
  let ls1 := after_promise (pendingSets w !! k) (after_connect ls w).2 in
  let w2 := later (hd quiet ls1) w1 in
  run (get k tags) ls w =
  match pendingSets w !! k with
  | Some p =>
      if bool_decide (p ∈ settled w) then
        Some (inr (get_outcome (store_get (hd quiet ls1) w2 (CACHE_PREFIX +:+ k))
                               (clock w2)), w2, tl (tl (tl ls1)))
      else None
  | None =>
      Some (inr (get_outcome (store_get (hd quiet ls1) w2 (CACHE_PREFIX +:+ k))
                             (clock w2)), w2, tl (tl (tl ls1)))
  end.
Proof.
  cbv zeta. destruct (pendingSets w !! k) as [p|] eqn:Hp.
  2: { exact (run_get k tags ls w Hp). }
  unfold get, get_try.
  rewrite run_try_catch, run_settle, run_withSpan, run_bind, run_connect.
  destruct (after_connect_frame ls w) as (_ & Hpend & Hset & _).
  set (w1 := (after_connect ls w).1) in *.
  set (ls0 := (after_connect ls w).2) in *.
  rewrite run_bind, run_read, Hpend, Hp, run_bind, run_await. cbn [perform].
  rewrite Hset. case_bool_decide; [|reflexivity].
  cbn [after_promise]. rewrite run_bind, run_await. cbn [perform]. unfold store_get.
  destruct (fails (hd quiet (tl ls0))); [reflexivity|].
  destruct (Redis.get _ _ _) as [[[|c s]|]|]; cbn [of_reply get_outcome];
    try reflexivity.
  destruct (deserialize (String c s)) as [d|]; [|reflexivity].
  rewrite run_bind, run_read.
  destruct (_ >? _); reflexivity.
Qed.

(** *** [set], whatever its entry does *)

Lemma run_set_undelivered k pe ls w :
  delivers pe = false ->
  let wr := (register k w).2 in
  exists ls',
    run (set k pe) ls w
    = Some (inr tt, release k (next_promise w) (after_connect ls wr).1, ls').
Proof.
  intros Hd. cbv zeta. unfold set. rewrite run_bind. cbn [run].
  destruct (register k w) as [p wr] eqn:Er.
  assert (Hp : p = next_promise w) by (now injection Er).
  subst p. cbn [snd].
  rewrite run_finally, run_try_catch. unfold set_try.
  rewrite run_settle, run_withSpan, run_bind, run_connect, run_bind.
  cbn [run perform]. destruct pe as [err|e]; cbn [run].
  - eexists. reflexivity.
  - cbn [delivers] in Hd. apply negb_false_iff in Hd.
    rewrite run_bind, run_read_chunks, Hd. eexists. reflexivity.
Qed.


(** *** What a batch of [updateTags] does not touch *)

Lemma invalidation_targets now tags mss key :
  Forall2 (fun t ms => (key ∉ ms) /\ key <> TAGS_PREFIX +:+ t /\
                       key <> (TAGS_PREFIX +:+ t) +:+ ":timestamp") tags mss ->
  Forall (fun c => target c <> key) (concat (zip_with (invalidation now) tags mss)).
Proof.
  induction 1 as [|t ms tags mss (Hms & Ht & Hts) _ IH]; [constructor|].
  cbn [zip_with concat]. apply Forall_app. split; [|exact IH].
  unfold invalidation. apply Forall_app. split.
  - apply Forall_fmap, Forall_forall. intros m Hm. cbn [compose target]. congruence.
  - repeat constructor; cbn [target]; congruence.
Qed.

Lemma smembers_of_set ts (st : gmap string Redis.slot) key ms x :
  Redis.smembers ts st key = Redis.Ok ms -> x ∈ ms ->
  exists s dl, st !! key = Some (Redis.Slot (Redis.VSet s) dl) /\ x ∈ s.
Proof.
  unfold Redis.smembers, Redis.live.
  destruct (st !! key) as [[[v|s] [d|]]|]; cbn [Redis.deadline];
    try destruct (_ <=? _); try discriminate;
    intros [= <-] Hx; try (now apply elem_of_nil in Hx);
    exists s; eexists; (split; [reflexivity|now apply elem_of_elements]).
Qed.


Lemma after_connect_tagTimestamps m ls w :
  after_connect ls (with_tagTimestamps m w)
  = (with_tagTimestamps m (after_connect ls w).1, (after_connect ls w).2).
Proof. unfold after_connect. cbn. now destruct (connected w). Qed.

(** Timestamps that [refresh_loop] does not write. *)
Lemma run_refresh_loop_others t keys : forall ls w r w' ls',
  Forall (fun k => tag_of k <> t) keys ->
  run (refresh_loop keys) ls w = Some (r, w', ls') ->
  tagTimestamps w' !! t = tagTimestamps w !! t.
Proof.
  induction keys as [|k rest IH]; intros ls w r w' ls' Hk.
  - now intros [= _ <- _].
  - apply Forall_cons in Hk as [Hk Hrest].
    cbn [refresh_loop]. rewrite run_bind, run_await. cbn [perform].
    destruct (if fails (hd quiet ls) then _ else _) as [e|o].
    + now intros [= _ <- _].
    + rewrite run_bind. destruct o as [[|c s]|]; cbn [run mret prog_ret write];
        intros H; rewrite (IH _ _ _ _ _ Hrest H); try reflexivity.
      cbn [tagTimestamps with_tagTimestamps]. now apply lookup_insert_ne.
Qed.

Lemma run_refresh_loop_grows t keys : forall ls w r w' ls',
  run (refresh_loop keys) ls w = Some (r, w', ls') ->
  is_Some (tagTimestamps w !! t) -> is_Some (tagTimestamps w' !! t).
Proof.
  induction keys as [|k rest IH]; intros ls w r w' ls'.
  - now intros [= _ <- _].
  - cbn [refresh_loop]. rewrite run_bind, run_await. cbn [perform].
    destruct (if fails (hd quiet ls) then _ else _) as [e|o].
    + now intros [= _ <- _].
    + rewrite run_bind. destruct o as [[|c s]|]; cbn [run mret prog_ret write];
        intros H Hs; apply (IH _ _ _ _ _ H); try exact Hs.
      cbn [tagTimestamps with_tagTimestamps].
      destruct (decide (tag_of k = t)) as [<-|Hne].
      * rewrite lookup_insert_eq. eauto.
      * now rewrite lookup_insert_ne.
Qed.


(** A batch of [updateTags] puts nothing under the key of an entry. *)
Lemma invalidation_adds_no_record at_ now tags k :
  forall mss (st : gmap string Redis.slot),
  let st' := Redis.exec at_ (concat (zip_with (invalidation now) tags mss)) st in
  st' !! (CACHE_PREFIX +:+ k) = None \/
  st' !! (CACHE_PREFIX +:+ k) = st !! (CACHE_PREFIX +:+ k).
Proof.
  assert (Hdel : forall ms (st : gmap string Redis.slot),
            let st' := Redis.exec at_ (map Redis.DEL ms) st in
            st' !! (CACHE_PREFIX +:+ k) = None \/
            st' !! (CACHE_PREFIX +:+ k) = st !! (CACHE_PREFIX +:+ k)).
  { induction ms as [|m ms IH]; intros st; cbv zeta; [now right|].
    cbn [map]. change (Redis.exec at_ (Redis.DEL m :: map Redis.DEL ms) st)
      with (Redis.exec at_ (map Redis.DEL ms) (delete m st)).
    destruct (IH (delete m st)) as [H|H]; [now left|]. cbv zeta in H.
    rewrite H, lookup_delete. case_decide; [now left|now right]. }
  induction tags as [|t tags IH]; intros mss st; cbv zeta; [now right|].
  destruct mss as [|ms mss]; [now right|].
  cbn [zip_with concat]. rewrite exec_app.
  set (st1 := Redis.exec at_ (invalidation now t ms) st).
  assert (H1 : st1 !! (CACHE_PREFIX +:+ k) = None \/
               st1 !! (CACHE_PREFIX +:+ k) = st !! (CACHE_PREFIX +:+ k)).
  { unfold st1, invalidation. rewrite exec_app.
    rewrite (exec_lookup_ne at_ [_; _]).
    - apply Hdel.
    - repeat constructor; cbn [target];
        auto using not_eq_sym, cache_key_not_tag_key, prefixed_key_not_timestamp. }
  destruct (IH mss st1) as [H|H]; [now left|]. cbv zeta in H. rewrite H. exact H1.
Qed.

Lemma run_updateTags_single t d ls w w1 ls1 :
  smooth ls ->
  run (updateTags_try [t] d) ls w = Some (inr tt, w1, ls1) ->
  exists now,
    clock w <= now <= clock w1 /\
    tagTimestamps w1 = <[t := Int now]> (tagTimestamps w) /\
    store w1 !! ((TAGS_PREFIX +:+ t) +:+ ":timestamp")
    = Some (Redis.Slot (Redis.VString (Decimal.print_Z now)) None) /\
    store w1 !! (TAGS_PREFIX +:+ t) = None.
Proof.
  intros Hls Hr. destruct (run_updateTags_ok _ _ _ _ _ _ Hr)
    as (now & mss & Hnow & Hmss & _ & Hst & Hts & _).
  rewrite (smooth_hd _ (smooth_drop _ _ (smooth_after_connect _ w Hls))) in Hst.
  exists now. split; [exact Hnow|]. split; [exact Hts|].
  apply Forall2_cons_inv_l in Hmss as (ms & mss' & _ & Hnil & ->).
  apply Forall2_nil_inv_l in Hnil as ->.
  cbn [zip_with concat] in Hst. rewrite app_nil_r in Hst. unfold invalidation in Hst.
  rewrite Hst, exec_app. unfold Redis.exec at 1 3. cbn [fold_left Redis.apply].
  split; [apply lookup_insert_eq|].
  rewrite lookup_insert_ne.
  - apply lookup_delete_eq.
  - intros H. apply (f_equal String.length) in H.
    rewrite JsonFacts.length_append in H. cbn in H. lia.
Qed.

(** [get] for a key whose record, if any, is past its deadline. *)
Lemma run_get_expired k tags ls w :
  pendingSets w !! k = None ->
  (forall sl, store w !! (CACHE_PREFIX +:+ k) = Some sl ->
     exists dl, Redis.deadline sl = Some dl /\ dl <= clock w) ->
  exists w' ls', run (get k tags) ls w = Some (inr None, w', ls').
Proof.
  intros Hp Hs. destruct (run_get_store k tags ls w Hp) as (w' & ls' & Hr & Hst & Hc & _).
  exists w', ls'. rewrite Hr. f_equal. f_equal. f_equal.
  unfold store_get. destruct (fails _); [reflexivity|].
  unfold Redis.get, Redis.live. rewrite Hst.
  destruct (store w !! (CACHE_PREFIX +:+ k)) as [sl|]; [|reflexivity].
  destruct (Hs sl eq_refl) as (dl & -> & Hdl).
  destruct (Z.leb_spec dl (clock w')); [reflexivity|lia].
Qed.

(** The commands of a listed tag within the batch of [updateTags]. *)
Lemma invalidation_of_listed {P : string -> list string -> Prop} now tags mss t :
  Forall2 P tags mss -> t ∈ tags ->
  exists ms before tags2 mss2,
    P t ms /\
    concat (zip_with (invalidation now) tags mss)
    = before ++ invalidation now t ms
      ++ concat (zip_with (invalidation now) tags2 mss2).
Proof.
  induction 1 as [|t' ms' tags mss Hp _ IH]; intros Hin.
  { now apply elem_of_nil in Hin. }
  destruct (decide (t' = t)) as [->|Hne].
  - exists ms', [], tags, mss. split; [exact Hp|reflexivity].
  - apply elem_of_cons in Hin as [Heq|Hin]; [congruence|].
    destruct (IH Hin) as (ms & before & tags2 & mss2 & Hms & Heq).
    exists ms, (invalidation now t' ms' ++ before), tags2, mss2.
    split; [exact Hms|]. cbn [zip_with concat]. now rewrite Heq, <- app_assoc.
Qed.

(** A key that was in the set of a listed tag is gone after the batch. *)
Lemma invalidation_deletes_listed at_ now t ms k
    (st : gmap string Redis.slot) before tags2 mss2 :
  CACHE_PREFIX +:+ k ∈ ms ->
  Redis.exec at_
    (before ++ invalidation now t ms
     ++ concat (zip_with (invalidation now) tags2 mss2)) st
  !! (CACHE_PREFIX +:+ k) = None.
Proof.
  intros Hk. rewrite !exec_app.
  destruct (invalidation_adds_no_record at_ now tags2 k mss2
              (Redis.exec at_ (invalidation now t ms) (Redis.exec at_ before st)))
    as [H|H]; cbv zeta in H; [exact H|].
  rewrite H. unfold invalidation. now apply invalidation_deletes.
Qed.

End TagFacts.

(** ** Reads that wait for a write *)

Module WaitFacts.

Import Handler Sched Notions RunFacts StoreFacts.

Section Wait.

Variables (J : World -> Prop) (p : positive).
Hypothesis J_steady : steady J.
Hypothesis J_unsettled : forall w, J w -> p ∉ settled w.

Lemma awaits_on_blocked {X} (op : io X) l w :
  awaits_on p op -> J w -> perform op l w = Blocked.
Proof.
  destruct op; cbn [awaits_on]; try contradiction.
  intros -> Hw. cbn [perform]. rewrite bool_decide_eq_false_2; [reflexivity|].
  now apply J_unsettled.
Qed.

Lemma blocks_run_among {A} (q : prog A) :
  blocks J p q -> forall ls w,
  J w -> Forall (fun lf => forall w0, J w0 -> J (lf.2 w0)) ls ->
  run_among q ls w = None.
Proof.
  induction q as [a|e|X g k IH|X op k IH]; cbn [blocks run_among];
    try contradiction.
  - intros Hb ls w Hw Hls. destruct (Hb w Hw) as [Hw1 Hb1].
    destruct (g w) as [x w1]. now apply IH.
  - intros Hb ls w Hw Hls.
    assert (Hhd : forall w0, J w0 -> J ((hd (quiet, id) ls).2 w0)).
    { destruct Hls as [|lf ls' H _]; [intros w0 H0; exact H0|exact H]. }
    assert (Htl : Forall (fun lf => forall w0, J w0 -> J (lf.2 w0)) (tl ls)).
    { destruct Hls as [|lf ls' _ H]; [constructor|exact H]. }
    destruct (hd (quiet, id) ls) as [l others]. cbn [snd] in Hhd.
    specialize (Hhd w Hw).
    destruct Hb as [Hb|[_ Hb]]; [now rewrite (awaits_on_blocked op l _ Hb Hhd)|].
    destruct (perform op l (others w)) as [|r w1] eqn:E; [reflexivity|].
    apply IH; [apply Hb|exact (J_steady _ _ _ _ _ _ Hhd E)|exact Htl].
Qed.

Lemma blocks_not_over {A} (q : prog A) : blocks J p q -> ~ over q.
Proof. destruct q; cbn; tauto. Qed.

Lemma blocks_start {A} (q : prog A) : forall w,
  blocks J p q -> J w -> blocks J p (start q w).1 /\ J (start q w).2.
Proof.
  induction q as [a|e|X g k IH|X op k IH]; intros w Hb Hw; cbn [start];
    try (now split).
  cbn [blocks] in Hb. destruct (Hb w Hw) as [Hw1 Hb1].
  destruct (g w) as [x w1]. now apply IH.
Qed.

Lemma blocks_resume {A} (q : prog A) l w q' w' :
  blocks J p q -> J w -> resume q l w = Some (q', w') ->
  blocks J p q' /\ J w' /\ at_off_store q.
Proof.
  destruct q as [a|e|X g k|X op k]; cbn [resume]; try discriminate.
  intros [Hb|[Hoff Hb]] Hw.
  - now rewrite (awaits_on_blocked op l w Hb Hw).
  - destruct (perform op l w) as [|r w1] eqn:E; [discriminate|].
    intros [= H].
    pose proof (blocks_start (k r) w1 (Hb r) (J_steady _ _ _ _ _ _ Hw E)) as Hs.
    rewrite H in Hs. destruct Hs as [Hq Hw'].
    split; [exact Hq|]. split; [exact Hw'|]. exact Hoff.
Qed.

Lemma safe_start {A} (q : prog A) : forall w,
  safe J q -> J w -> safe J (start q w).1 /\ J (start q w).2.
Proof.
  induction q as [a|e|X g k IH|X op k IH]; intros w Hb Hw; cbn [start];
    try (now split).
  cbn [safe] in Hb. destruct (Hb w Hw) as [Hw1 Hb1].
  destruct (g w) as [x w1]. now apply IH.
Qed.

Lemma safe_resume {A} (q : prog A) l w q' w' :
  safe J q -> J w -> resume q l w = Some (q', w') -> safe J q' /\ J w'.
Proof.
  destruct q as [a|e|X g k|X op k]; cbn [resume]; try discriminate.
  intros Hb Hw. destruct (perform op l w) as [|r w1] eqn:E; [discriminate|].
  intros [= H]. pose proof (safe_start (k r) w1 (Hb r) (J_steady _ _ _ _ _ _ Hw E)) as Hs.
  rewrite H in Hs. exact Hs.
Qed.

Lemma over_start {A} (q : prog A) w : over q -> start q w = (q, w).
Proof. destruct q; cbn; tauto. Qed.

Lemma closing_start {A} (q : prog A) : forall w,
  closing J q -> J w ->
  over (start q w).1 \/ (closing J (start q w).1 /\ J (start q w).2).
Proof.
  induction q as [a|e|X g k IH|X op k IH]; intros w Hb Hw; cbn [start];
    try (left; exact I); [|right; now split].
  cbn [closing] in Hb. destruct (Hb w Hw) as [[Hw1 Hb1]|Ho];
    destruct (g w) as [x w1]; cbn [fst snd] in *.
  - now apply IH.
  - left. now rewrite over_start.
Qed.

Lemma closing_resume {A} (q : prog A) l w q' w' :
  closing J q -> J w -> resume q l w = Some (q', w') ->
  over q' \/ (closing J q' /\ J w').
Proof.
  destruct q as [a|e|X g k|X op k]; cbn [resume]; try discriminate.
  intros Hb Hw. destruct (perform op l w) as [|r w1] eqn:E; [discriminate|].
  intros [= H].
  pose proof (closing_start (k r) w1 (Hb r) (J_steady _ _ _ _ _ _ Hw E)) as Hs.
  rewrite H in Hs. exact Hs.
Qed.

(** How the predicates go through the constructions. *)

Lemma safe_bind {A B} (q : prog A) (f : A -> prog B) :
  safe J q -> (forall a, safe J (f a)) -> safe J (q ≫= f).
Proof.
  unmonad. intros Hq Hf.
  induction q as [a|e|X g k IH|X op k IH]; cbn [bind safe] in *.
  - apply Hf.
  - exact I.
  - intros w Hw. destruct (Hq w Hw) as [H1 H2]. split; [exact H1|now apply IH].
  - intros r. apply IH, Hq.
Qed.

Lemma safe_try_catch {A} (q : prog A) h :
  safe J q -> (forall e, safe J (h e)) -> safe J (try_catch q h).
Proof.
  intros Hq Hh.
  induction q as [a|e|X g k IH|X op k IH]; cbn [try_catch safe] in *.
  - exact I.
  - apply Hh.
  - intros w Hw. destruct (Hq w Hw) as [H1 H2]. split; [exact H1|now apply IH].
  - intros r. apply IH, Hq.
Qed.

Lemma safe_finally {A} (q : prog A) c :
  safe J q -> (forall w, J w -> J (c w)) -> safe J (finally q c).
Proof.
  intros Hq Hc.
  induction q as [a|e|X g k IH|X op k IH]; cbn [finally safe] in *.
  - intros w Hw. split; [now apply Hc|exact I].
  - intros w Hw. split; [now apply Hc|exact I].
  - intros w Hw. destruct (Hq w Hw) as [H1 H2]. split; [exact H1|now apply IH].
  - intros r. apply IH, Hq.
Qed.

Lemma safe_settle {A} (q : prog A) : safe J q -> safe J (settle q).
Proof.
  intros Hq.
  induction q as [a|e|X g k IH|X op k IH]; cbn [settle safe] in *.
  - intros r. exact I.
  - intros r. exact I.
  - intros w Hw. destruct (Hq w Hw) as [H1 H2]. split; [exact H1|now apply IH].
  - intros r. apply IH, Hq.
Qed.

Lemma safe_withSpan {A} name (q : prog A) : safe J q -> safe J (withSpan name q).
Proof.
  intros Hq. apply safe_try_catch; [now apply safe_settle|]. intros e. exact I.
Qed.

Lemma safe_await {X} (op : io X) : safe J (await op).
Proof. intros [e|x]; exact I. Qed.

Lemma safe_read {X} (f : World -> X) : safe J (read f).
Proof. intros w Hw. now split. Qed.

Lemma safe_write (f : World -> World) : (forall w, J w -> J (f w)) -> safe J (write f).
Proof. intros Hf w Hw. split; [now apply Hf|exact I]. Qed.

Lemma safe_passes {A} (q : prog A) : passes J q -> safe J q.
Proof.
  induction q as [a|e|X g k IH|X op k IH]; cbn [passes safe].
  - trivial.
  - trivial.
  - intros Hq w Hw. destruct (Hq w Hw) as [H1 H2]. split; [exact H1|now apply IH].
  - intros [_ Hq] r. apply IH, Hq.
Qed.

Lemma passes_settle {A} (q : prog A) : passes J q -> passes J (settle q).
Proof.
  intros Hq.
  induction q as [a|e|X g k IH|X op k IH]; cbn [settle passes] in *.
  - split; [reflexivity|]. intros r. exact I.
  - contradiction.
  - intros w Hw. destruct (Hq w Hw) as [H1 H2]. split; [exact H1|now apply IH].
  - destruct Hq as [Hoff Hq]. split; [exact Hoff|]. intros r. apply IH, Hq.
Qed.

Lemma blocks_bind {A B} (q : prog A) (f : A -> prog B) :
  passes J q -> (forall a, blocks J p (f a)) -> blocks J p (q ≫= f).
Proof.
  unmonad. intros Hq Hf.
  induction q as [a|e|X g k IH|X op k IH]; cbn [bind blocks passes] in *.
  - apply Hf.
  - contradiction.
  - intros w Hw. destruct (Hq w Hw) as [H1 H2]. split; [exact H1|now apply IH].
  - destruct Hq as [Hoff Hq]. right. split; [exact Hoff|]. intros r. apply IH, Hq.
Qed.

Lemma blocks_bind_l {A B} (q : prog A) (f : A -> prog B) :
  blocks J p q -> blocks J p (q ≫= f).
Proof.
  unmonad. intros Hq.
  induction q as [a|e|X g k IH|X op k IH]; cbn [bind blocks] in *.
  - contradiction.
  - contradiction.
  - intros w Hw. destruct (Hq w Hw) as [H1 H2]. split; [exact H1|now apply IH].
  - destruct Hq as [Hq|[Hoff Hq]]; [now left|right].
    split; [exact Hoff|]. intros r. apply IH, Hq.
Qed.

Lemma blocks_try_catch {A} (q : prog A) h :
  blocks J p q -> blocks J p (try_catch q h).
Proof.
  intros Hq.
  induction q as [a|e|X g k IH|X op k IH]; cbn [try_catch blocks] in *.
  - contradiction.
  - contradiction.
  - intros w Hw. destruct (Hq w Hw) as [H1 H2]. split; [exact H1|now apply IH].
  - destruct Hq as [Hq|[Hoff Hq]]; [now left|right].
    split; [exact Hoff|]. intros r. apply IH, Hq.
Qed.

Lemma blocks_settle {A} (q : prog A) : blocks J p q -> blocks J p (settle q).
Proof.
  intros Hq.
  induction q as [a|e|X g k IH|X op k IH]; cbn [settle blocks] in *.
  - contradiction.
  - contradiction.
  - intros w Hw. destruct (Hq w Hw) as [H1 H2]. split; [exact H1|now apply IH].
  - destruct Hq as [Hq|[Hoff Hq]]; [now left|right].
    split; [exact Hoff|]. intros r. apply IH, Hq.
Qed.

Lemma blocks_withSpan {A} name (q : prog A) :
  blocks J p q -> blocks J p (withSpan name q).
Proof. intros Hq. now apply blocks_try_catch, blocks_settle. Qed.

(** A [try]/[finally] that is the whole of a function: its clean-up is a
    last step. *)
Lemma closing_finally {A B} (q : prog A) c (b : B) :
  safe J q -> closing J (finally q c ≫= fun _ => mret b).
Proof.
  unmonad. intros Hq.
  induction q as [a|e|X g k IH|X op k IH]; cbn [finally bind closing safe] in *.
  - intros w Hw. right. exact I.
  - intros w Hw. right. exact I.
  - intros w Hw. destruct (Hq w Hw) as [H1 H2]. left. split; [exact H1|now apply IH].
  - intros r. apply IH, Hq.
Qed.

End Wait.


(** Breaks a [safe] goal down along the program. *)
Ltac safe_step :=
  match goal with
  | |- safe _ (match ?x with _ => _ end) => destruct x
  | |- safe _ (if ?x then _ else _) => destruct x
  | |- safe _ (_ ≫= _) => apply safe_bind
  | |- safe _ (try_catch _ _) => apply safe_try_catch
  | |- safe _ (settle _) => apply safe_settle
  | |- safe _ (withSpan _ _) => apply safe_withSpan
  | |- safe _ (read _) => apply safe_read
  | |- safe _ (write _) => apply safe_write
  | |- safe _ (await _) => apply safe_await
  | |- safe _ (mret _) => exact I
  | |- safe _ (Ret _) => exact I
  | |- safe _ (Throw _) => exact I
  | |- safe _ (Await _ _) => intros ?
  | |- forall _, _ => intro
  end.

(** Properties of [pendingSets], of the promises and of nothing else are
    kept by everything but the first and the last step of [set]. *)
Section Fields.

Variables (J : World -> Prop).
Hypothesis J_fields : forall w w',
  pendingSets w' = pendingSets w -> settled w' = settled w ->
  next_promise w' = next_promise w -> J w -> J w'.

Lemma promise_fields_steady : steady J.
Proof.
  intros X op l w r w' Hw.
  destruct op; cbn [perform]; try destruct (fails l); try case_bool_decide;
    intros [= <- <-] || discriminate; exact Hw || (revert Hw; now apply J_fields).
Qed.

Lemma passes_connect : passes J (settle ensureConnected).
Proof.
  unfold ensureConnected. unmonad. cbn [bind read settle passes].
  intros w Hw. split; [exact Hw|].
  destruct (connected w); cbn [bind write settle passes].
  - split; [reflexivity|]. intros r. exact I.
  - intros w1 Hw1. split; [revert Hw1; now apply J_fields|].
    split; [reflexivity|].
    intros [e|x]; cbn [bind write settle passes]; intros w2 Hw2;
      (split; [revert Hw2; now apply J_fields|split; [reflexivity|intros r; exact I]]).
Qed.

Lemma safe_read_chunks cs bad : forall acc, safe J (read_chunks cs bad acc).
Proof.
  induction cs as [|c cs IH]; intros acc; cbn [read_chunks safe]; intros r.
  - now destruct bad.
  - apply IH.
Qed.

Lemma safe_exec pipeline : safe J (exec pipeline).
Proof.
  unfold exec. repeat safe_step. revert H. now apply J_fields.
Qed.

Lemma safe_refresh_loop tagKeys : safe J (refresh_loop tagKeys).
Proof.
  induction tagKeys as [|tagKey rest IH]; cbn [refresh_loop]; repeat safe_step; auto.
  revert H. now apply J_fields.
Qed.

Lemma safe_update_loop now tags : forall pipeline,
  safe J (update_loop now tags pipeline).
Proof.
  induction tags as [|tag rest IH]; intros pipeline; cbn [update_loop];
    repeat safe_step; auto.
  revert H. now apply J_fields.
Qed.

Lemma safe_connect : safe J ensureConnected.
Proof.
  unfold ensureConnected. repeat safe_step; revert H; now apply J_fields.
Qed.

Lemma safe_get k tags : safe J (get k tags).
Proof.
  pose proof safe_connect.
  unfold get, get_try. repeat safe_step; auto.
Qed.

Lemma safe_set_try k pe : safe J (set_try k pe).
Proof.
  pose proof safe_connect. pose proof safe_read_chunks. pose proof safe_exec.
  unfold set_try. repeat safe_step; auto.
Qed.

Lemma safe_refreshTags : safe J refreshTags.
Proof.
  pose proof safe_connect. pose proof safe_refresh_loop.
  unfold refreshTags, refreshTags_try. repeat safe_step; auto.
Qed.

Lemma safe_getExpiration tags : safe J (getExpiration tags).
Proof. unfold getExpiration. repeat safe_step. Qed.

Lemma safe_updateTags tags d : safe J (updateTags tags d).
Proof.
  pose proof safe_connect. pose proof safe_update_loop. pose proof safe_exec.
  unfold updateTags, updateTags_try. repeat safe_step; auto.
Qed.

Lemma blocks_get k p tags :
  (forall w, J w -> pendingSets w !! k = Some p) ->
  blocks J p (get k tags).
Proof.
  intros Hk. unfold get, get_try.
  apply blocks_try_catch, blocks_settle, blocks_withSpan.
  apply blocks_bind; [apply passes_connect|]. intros _.
  unmonad. cbn [bind read blocks]. intros w Hw. split; [exact Hw|].
  rewrite (Hk w Hw). cbn [bind await blocks]. left. reflexivity.
Qed.

End Fields.


(** *** One write to a key, and a read of the key behind it *)

Section OneWriter.

Variables (k : string) (p : positive).

Let J := pending k p.

Lemma pending_fields w w' :
  pendingSets w' = pendingSets w -> settled w' = settled w ->
  next_promise w' = next_promise w -> J w -> J w'.
Proof. unfold J, pending, held. intros H1 H2 H3. now rewrite H1, H2, H3. Qed.

Lemma pending_steady : steady J.
Proof. apply promise_fields_steady, pending_fields. Qed.

Lemma pending_unsettled w : J w -> p ∉ settled w.
Proof. intros [[_ H] _]. exact H. Qed.

Lemma pending_register k' w : k' <> k -> J w -> J (register k' w).2.
Proof.
  intros Hne [[Hp Hs] Hn]. unfold J, pending, held. cbn.
  rewrite lookup_insert_ne by exact Hne. split_and!; try assumption. lia.
Qed.

Lemma pending_release k' p' w : k' <> k -> p' <> p -> J w -> J (release k' p' w).
Proof.
  intros Hne Hp' [[Hp Hs] Hn]. unfold J, pending, held. cbn.
  rewrite lookup_delete_ne by exact Hne. split_and!; try assumption.
  intros [H%elem_of_singleton|H]%elem_of_union; [congruence|contradiction].
Qed.

Lemma safe_set_other k' pe : k' <> k -> safe J (set k' pe).
Proof.
  intros Hne. unfold set. unmonad. cbn [bind safe].
  intros w Hw. split; [now apply pending_register|].
  apply safe_finally.
  - apply safe_try_catch; [apply safe_set_try, pending_fields|intros e; exact I].
  - intros w0. apply pending_release; [exact Hne|].
    cbn [register fst]. destruct Hw as [_ Hn]. lia.
Qed.

Lemma safe_body c : no_write_to k (Invoke c) -> safe J (body c).
Proof.
  intros Hc. destruct c as [k' ts|k' pe| |ts|ts d]; cbn [body];
    apply safe_bind; try (intros a; exact I).
  - apply safe_get, pending_fields.
  - now apply safe_set_other.
  - apply safe_refreshTags, pending_fields.
  - apply safe_getExpiration.
  - apply safe_updateTags, pending_fields.
Qed.

Lemma blocks_body tags : blocks J p (body (CallGet k tags)).
Proof.
  cbn [body]. apply blocks_bind_l, blocks_get; [apply pending_fields|].
  now intros w [[H _] _].
Qed.

Lemma step_keeps c ev :
  no_write_to k ev -> read_behind_write k p c -> read_behind_write k p (step c ev).
Proof.
  intros Hev (q0 & q1 & rest & Ht & Hinv). destruct ev as [cl|i l]; cbn [step].
  - destruct (start (body cl) (world c)) as [q w'] eqn:Es.
    exists q0, q1, (rest ++ [q]). cbn [tasks]. rewrite Ht. split; [reflexivity|].
    destruct Hinv as [Ho|(Hw & H0 & H1 & Hr)]; [now left|right].
    destruct (safe_start J (body cl) (world c) (safe_body cl Hev) Hw)
      as [Hq Hw'].
    rewrite Es in Hq, Hw'. cbn [world]. split_and!; try assumption.
    apply Forall_app. split; [exact Hr|]. now constructor.
  - rewrite Ht. destruct i as [|[|j]]; cbn [lookup list_lookup].
    + destruct (resume q0 l (world c)) as [[q0' w']|] eqn:Er.
      2: { exists q0, q1, rest. now split. }
      exists q0', q1, rest. cbn [tasks world]. split; [reflexivity|].
      destruct Hinv as [Ho|(Hw & H0 & H1 & Hr)].
      { destruct q0; cbn in Ho; try contradiction; discriminate Er. }
      destruct (closing_resume J pending_steady q0 l _ _ _ H0 Hw Er) as [Ho|[Hc Hw']];
        [now left|right]. now split_and!.
    + destruct (resume q1 l (world c)) as [[q1' w']|] eqn:Er.
      2: { exists q0, q1, rest. now split. }
      exists q0, q1', rest. cbn [tasks world]. split; [reflexivity|].
      destruct Hinv as [Ho|(Hw & H0 & H1 & Hr)]; [now left|right].
      destruct (blocks_resume J p pending_steady pending_unsettled q1 l _ _ _ H1 Hw Er)
        as (Hb & Hw' & _).
      now split_and!.
    + destruct (rest !! j) as [q|] eqn:Ej.
      2: { exists q0, q1, rest. now split. }
      destruct (resume q l (world c)) as [[q' w']|] eqn:Er.
      2: { exists q0, q1, rest. now split. }
      exists q0, q1, (<[j:=q']> rest). cbn [tasks world]. split; [reflexivity|].
      destruct Hinv as [Ho|(Hw & H0 & H1 & Hr)]; [now left|right].
      assert (Hq : safe J q) by (eapply Forall_lookup_1; eassumption).
      destruct (safe_resume J pending_steady q l _ _ _ Hq Hw Er) as [Hq' Hw'].
      split_and!; try assumption. now apply Forall_insert.
Qed.

Lemma steps_keep evs : forall c,
  Forall (no_write_to k) evs ->
  read_behind_write k p c -> read_behind_write k p (steps c evs).
Proof.
  induction evs as [|ev evs IH]; intros c Hevs Hc; [exact Hc|].
  apply Forall_cons in Hevs as [Hev Hevs].
  cbn [steps fold_left]. apply IH; [exact Hevs|]. now apply step_keeps.
Qed.

End OneWriter.

Lemma write_then_read k pe tags w :
  next_promise w ∉ settled w ->
  read_behind_write k (next_promise w)
    (steps (Config w []) [Invoke (CallSet k pe); Invoke (CallGet k tags)]).
Proof.
  intros Hfresh. set (p := next_promise w). set (J := pending k p).
  cbn [steps fold_left step world tasks app].
  assert (Hreg : J (register k w).2).
  { unfold J, pending, held. cbn. rewrite lookup_insert_eq.
    split_and!; [reflexivity|exact Hfresh|unfold p; lia]. }
  assert (Hset : forall q0 w1,
            start (body (CallSet k pe)) w = (q0, w1) ->
            over q0 \/ (closing J q0 /\ J w1)).
  { intros q0 w1. cbn [body]. unfold set. unmonad. cbn [bind start].
    destruct (register k w) as [x wr] eqn:Er. cbn [bind snd] in *.
    intros Hs.
    pose proof (closing_start J
                  (bind (finally (try_catch (set_try k pe) (fun _ => Ret tt))
                                 (release k x))
                        (fun _ => Ret AUnit)) wr) as Hc.
    rewrite Hs in Hc. apply Hc; [|exact Hreg].
    apply (closing_finally J (try_catch (set_try k pe) (fun _ => Ret tt))
             (release k x) AUnit).
    apply safe_try_catch; [apply safe_set_try, pending_fields|intros e; exact I]. }
  destruct (start (body (CallSet k pe)) w) as [q0 w1] eqn:E0.
  cbn [world tasks app].
  destruct (start (body (CallGet k tags)) w1) as [q1 w2] eqn:E1.
  exists q0, q1, []. split; [reflexivity|].
  destruct (Hset q0 w1 eq_refl) as [Ho|[Hc Hw1]]; [now left|right].
  destruct (blocks_start J p (body (CallGet k tags)) w1 (blocks_body k p tags) Hw1)
    as [Hb Hw2].
  rewrite E1 in Hb, Hw2. cbn [world]. now split_and!.
Qed.

End WaitFacts.


(** ** A read behind a write: what it finds in the store *)

Module OrderFacts.
Import Handler Sched Notions RunFacts StoreFacts TagFacts WaitFacts.
Local Open Scope Z_scope.

Lemma off_store_keeps {X} (op : io X) l w r w' :
  off_store op = true -> perform op l w = Settled r w' -> store w' = store w.
Proof.
  destruct op; cbn [off_store perform]; try discriminate; intros _.
  - now intros [= _ <-].
  - now intros [= _ <-].
  - case_bool_decide; [|discriminate]. now intros [= _ <-].
Qed.

(** Onlookers. *)

Lemma spares_apply key text now c (st : gmap string Redis.slot) :
  spares key c -> recorded_in key text st ->
  recorded_in key text (Redis.apply now c st).
Proof.
  intros Hc Hst. unfold recorded_in.
  destruct (decide (target c = key)) as [Heq|Hne].
  - destruct c; cbn [spares target] in Hc, Heq; try contradiction.
    subst. cbn [Redis.apply]. left. apply lookup_delete_eq.
  - now rewrite apply_lookup_ne.
Qed.

Lemma spares_exec key text now cs : forall (st : gmap string Redis.slot),
  Forall (spares key) cs -> recorded_in key text st ->
  recorded_in key text (Redis.exec now cs st).
Proof.
  induction cs as [|c cs IH]; intros st Hcs Hst; [exact Hst|].
  apply Forall_cons in Hcs as [Hc Hcs].
  change (Redis.exec now (c :: cs) st)
    with (Redis.exec now cs (Redis.apply now c st)).
  apply IH; [exact Hcs|]. now apply spares_apply.
Qed.

Section Onlookers.

Variable key : string.

Lemma onlooker_start {A} (q : prog A) : forall w,
  onlooker key q ->
  onlooker key (start q w).1 /\ store (start q w).2 = store w.
Proof.
  induction q as [a|e|X g k IH|X op k IH]; intros w Hq; cbn [start];
    try (now split).
  cbn [onlooker] in Hq. destruct (Hq w) as [Hs Hk].
  destruct (g w) as [x w1]. cbn [fst snd] in *.
  destruct (IH x w1 Hk) as [H1 H2]. split; [exact H1|congruence].
Qed.

Lemma onlooker_resume text {A} (q : prog A) l w q' w' :
  onlooker key q -> resume q l w = Some (q', w') ->
  onlooker key q' /\ (recorded key text w -> recorded key text w').
Proof.
  destruct q as [a|e|X g k|X op k]; cbn [resume]; try discriminate.
  intros [Hop Hq].
  destruct (perform op l w) as [|r w1] eqn:E; [discriminate|].
  intros [= H].
  destruct (onlooker_start (k r) w1 (Hq r)) as [H1 H2].
  rewrite H in H1, H2. cbn [fst snd] in *. split; [exact H1|].
  unfold recorded. rewrite H2. clear H H1 H2 Hq.
  destruct op; cbn [perform batch_spares] in *;
    try destruct (fails l); try case_bool_decide;
    try (injection E as <- <-); try discriminate E; cbn; trivial.
  now apply spares_exec.
Qed.

Lemma onlooker_bind {A B} (q : prog A) (f : A -> prog B) :
  onlooker key q -> (forall a, onlooker key (f a)) -> onlooker key (q ≫= f).
Proof.
  unmonad. intros Hq Hf.
  induction q as [a|e|X g k IH|X op k IH]; cbn [bind onlooker] in *.
  - apply Hf.
  - exact I.
  - intros w. destruct (Hq w) as [H1 H2]. split; [exact H1|now apply IH].
  - destruct Hq as [Hop Hq]. split; [exact Hop|]. intros r. apply IH, Hq.
Qed.

Lemma onlooker_try_catch {A} (q : prog A) h :
  onlooker key q -> (forall e, onlooker key (h e)) ->
  onlooker key (try_catch q h).
Proof.
  intros Hq Hh.
  induction q as [a|e|X g k IH|X op k IH]; cbn [try_catch onlooker] in *.
  - exact I.
  - apply Hh.
  - intros w. destruct (Hq w) as [H1 H2]. split; [exact H1|now apply IH].
  - destruct Hq as [Hop Hq]. split; [exact Hop|]. intros r. apply IH, Hq.
Qed.

Lemma onlooker_finally {A} (q : prog A) c :
  onlooker key q -> (forall w, store (c w) = store w) ->
  onlooker key (finally q c).
Proof.
  intros Hq Hc.
  induction q as [a|e|X g k IH|X op k IH]; cbn [finally onlooker] in *.
  - intros w. split; [apply Hc|exact I].
  - intros w. split; [apply Hc|exact I].
  - intros w. destruct (Hq w) as [H1 H2]. split; [exact H1|now apply IH].
  - destruct Hq as [Hop Hq]. split; [exact Hop|]. intros r. apply IH, Hq.
Qed.

Lemma onlooker_settle {A} (q : prog A) :
  onlooker key q -> onlooker key (settle q).
Proof.
  intros Hq.
  induction q as [a|e|X g k IH|X op k IH]; cbn [settle onlooker] in *.
  - split; [exact I|]. intros r. exact I.
  - split; [exact I|]. intros r. exact I.
  - intros w. destruct (Hq w) as [H1 H2]. split; [exact H1|now apply IH].
  - destruct Hq as [Hop Hq]. split; [exact Hop|]. intros r. apply IH, Hq.
Qed.

Lemma onlooker_withSpan {A} name (q : prog A) :
  onlooker key q -> onlooker key (withSpan name q).
Proof.
  intros Hq. apply onlooker_try_catch; [now apply onlooker_settle|].
  intros e. exact I.
Qed.

Lemma onlooker_await {X} (op : io X) :
  batch_spares key op -> onlooker key (await op).
Proof. intros Hop. split; [exact Hop|]. intros [e|x]; exact I. Qed.

Lemma onlooker_read {X} (f : World -> X) : onlooker key (read f).
Proof. intros w. now split. Qed.

Lemma onlooker_write (f : World -> World) :
  (forall w, store (f w) = store w) -> onlooker key (write f).
Proof. intros Hf w. split; [apply Hf|exact I]. Qed.

End Onlookers.

(** Breaks an [onlooker] goal down along the program. *)
Ltac onlooker_step :=
  match goal with
  | |- onlooker _ (match ?x with _ => _ end) => destruct x
  | |- onlooker _ (if ?x then _ else _) => destruct x
  | |- onlooker _ (_ ≫= _) => apply onlooker_bind
  | |- onlooker _ (try_catch _ _) => apply onlooker_try_catch
  | |- onlooker _ (settle _) => apply onlooker_settle
  | |- onlooker _ (withSpan _ _) => apply onlooker_withSpan
  | |- onlooker _ (read _) => apply onlooker_read
  | |- onlooker _ (write _) => apply onlooker_write; intros ?; reflexivity
  | |- onlooker _ (await _) => apply onlooker_await; exact I
  | |- onlooker _ (mret _) => exact I
  | |- onlooker _ (Ret _) => exact I
  | |- onlooker _ (Throw _) => exact I
  | |- onlooker _ (Await _ _) => split; [exact I|intros ?]
  | |- forall _, _ => intro
  end.

Section OnlookerBodies.

Variable k : string.

Let key := CACHE_PREFIX +:+ k.

Lemma onlooker_connect : onlooker key ensureConnected.
Proof. unfold ensureConnected. repeat onlooker_step. Qed.

Lemma onlooker_read_chunks cs bad : forall acc,
  onlooker key (read_chunks cs bad acc).
Proof.
  induction cs as [|c cs IH]; intros acc; cbn [read_chunks onlooker];
    (split; [exact I|intros r]).
  - now destruct bad.
  - apply IH.
Qed.

Lemma onlooker_exec pipeline :
  Forall (spares key) pipeline -> onlooker key (exec pipeline).
Proof.
  intros Hp. unfold exec. apply onlooker_bind; [repeat onlooker_step|].
  intros _. now apply onlooker_await.
Qed.

Lemma onlooker_refresh_loop tagKeys : onlooker key (refresh_loop tagKeys).
Proof.
  induction tagKeys as [|tagKey rest IH]; cbn [refresh_loop];
    repeat onlooker_step; auto.
Qed.

Lemma onlooker_update_loop {A} now tags (f : list Redis.command -> prog A) :
  forall pipeline,
  Forall (spares key) pipeline ->
  (forall pl, Forall (spares key) pl -> onlooker key (f pl)) ->
  onlooker key (update_loop now tags pipeline ≫= f).
Proof.
  unmonad.
  induction tags as [|tag rest IH]; intros pipeline Hp Hf; cbn [update_loop bind].
  - now apply Hf.
  - unmonad. cbn [await bind onlooker]. split; [exact I|].
    intros [e|cacheKeys]; cbn [bind onlooker]; [exact I|].
    intros w. split; [reflexivity|]. apply IH; [|exact Hf].
    apply Forall_app. split; [exact Hp|]. apply Forall_app. split.
    + apply Forall_forall. intros c [x [-> _]]%list_elem_of_fmap. exact I.
    + repeat constructor. cbn [spares target]. unfold key.
      apply not_eq_sym, prefixed_key_not_timestamp.
Qed.

Lemma onlooker_get k' tags : onlooker key (get k' tags).
Proof.
  pose proof onlooker_connect.
  unfold get, get_try. repeat onlooker_step; auto.
Qed.

Lemma onlooker_set k' pe : k' <> k -> onlooker key (set k' pe).
Proof.
  intros Hne. pose proof onlooker_connect. pose proof onlooker_read_chunks.
  unfold set. unmonad. cbn [bind onlooker]. intros w. split; [reflexivity|].
  apply onlooker_finally; [|intros w0; reflexivity].
  unfold set_try. repeat onlooker_step; auto.
  apply onlooker_exec.
  eapply Forall_impl; [apply (set_pipeline_targets _ _ _ k)|].
  - intros Heq. apply Hne. now apply cache_key_inj.
  - intros c Hc. destruct c; cbn [spares]; trivial.
Qed.

Lemma onlooker_refreshTags : onlooker key refreshTags.
Proof.
  pose proof onlooker_connect. pose proof onlooker_refresh_loop.
  unfold refreshTags, refreshTags_try. repeat onlooker_step; auto.
Qed.

Lemma onlooker_getExpiration tags : onlooker key (getExpiration tags).
Proof. unfold getExpiration. repeat onlooker_step. Qed.

Lemma onlooker_updateTags tags d : onlooker key (updateTags tags d).
Proof.
  pose proof onlooker_connect.
  unfold updateTags, updateTags_try.
  apply onlooker_try_catch; [|intros e; exact I].
  apply onlooker_settle, onlooker_withSpan.
  apply onlooker_bind; [now apply onlooker_settle|]. intros _.
  apply onlooker_bind; [apply onlooker_read|]. intros now.
  apply onlooker_update_loop; [constructor|]. apply onlooker_exec.
Qed.

Lemma onlooker_body c : no_write_to k (Invoke c) -> onlooker key (body c).
Proof.
  intros Hc. destruct c as [k' ts|k' pe| |ts|ts d]; cbn [body];
    apply onlooker_bind; try (intros a; exact I).
  - apply onlooker_get.
  - now apply onlooker_set.
  - apply onlooker_refreshTags.
  - apply onlooker_getExpiration.
  - apply onlooker_updateTags.
Qed.

End OnlookerBodies.

Section Predicates.

Variables (J : World -> Prop).
Hypothesis J_steady : steady J.

Variables (R : World -> Prop).
Hypothesis R_store : forall w w', store w' = store w -> R w -> R w'.

(** Readers. *)

Lemma reader_start {A} (post : error + A -> Prop) (q : prog A) : forall w,
  reader R post q ->
  reader R post (start q w).1 /\ store (start q w).2 = store w.
Proof.
  induction q as [a|e|X g k IH|X op k IH]; intros w Hq; cbn [start];
    try (now split).
  cbn [reader] in Hq. destruct (Hq w) as [Hs Hk].
  destruct (g w) as [x w1]. cbn [fst snd] in *.
  destruct (IH x w1 Hk) as [H1 H2]. split; [exact H1|congruence].
Qed.

Lemma reader_resume {A} (post : error + A -> Prop) (q : prog A) l w q' w' :
  reader R post q ->
  R w \/ at_off_store q ->
  resume q l w = Some (q', w') ->
  reader R post q' /\ store w' = store w.
Proof.
  destruct q as [a|e|X g k|X op k]; cbn [resume]; try discriminate.
  intros Hq Hw. cbn [reader] in Hq.
  destruct (perform op l w) as [|r w1] eqn:E; [discriminate|].
  intros [= H].
  assert (Hr : reader R post (k r) /\ store w1 = store w).
  { destruct (off_store op) eqn:Hoff.
    - split; [apply Hq|]. exact (off_store_keeps op l w r w1 Hoff E).
    - destruct Hw as [Hw|Hoff'].
      + destruct (Hq l w r w1 Hw E) as [H1 H2]. now split.
      + cbn [at_off_store] in Hoff'. congruence. }
  destruct Hr as [Hr Hs].
  destruct (reader_start post (k r) w1 Hr) as [H1 H2].
  rewrite H in H1, H2. cbn [fst snd] in *. split; [exact H1|congruence].
Qed.

(** What is left of a write once its batch went through. *)

Lemma finisher_start {A} (q : prog A) : forall w,
  finisher J q -> J w ->
  finisher J (start q w).1 /\ store (start q w).2 = store w /\
  (over (start q w).1 \/ J (start q w).2).
Proof.
  induction q as [a|e|X g k IH|X op k IH]; intros w Hq Hw; cbn [start].
  - split; [exact I|]. split; [reflexivity|]. left. exact I.
  - split; [exact I|]. split; [reflexivity|]. left. exact I.
  - cbn [finisher] in Hq. destruct (Hq w) as (Hs & Hj & Hk).
    specialize (Hj Hw). destruct (g w) as [x w1]. cbn [fst snd] in *.
    destruct Hj as [Hj|Ho].
    + destruct (IH x w1 Hk Hj) as (H1 & H2 & H3).
      split; [exact H1|]. split; [congruence|exact H3].
    + rewrite (over_start (k x) w1 Ho). cbn [fst snd].
      split; [exact Hk|]. split; [exact Hs|]. now left.
  - split; [exact Hq|]. split; [reflexivity|]. now right.
Qed.

Lemma finisher_resume {A} (q : prog A) l w q' w' :
  finisher J q -> J w -> resume q l w = Some (q', w') ->
  finisher J q' /\ store w' = store w /\ (over q' \/ J w').
Proof.
  destruct q as [a|e|X g k|X op k]; cbn [resume]; try discriminate.
  intros [Hoff Hq] Hw.
  destruct (perform op l w) as [|r w1] eqn:E; [discriminate|].
  intros [= H].
  pose proof (finisher_start (k r) w1 (Hq r) (J_steady _ _ _ _ _ _ Hw E)) as Hs.
  rewrite H in Hs. cbn [fst snd] in Hs. destruct Hs as (H1 & H2 & H3).
  split; [exact H1|]. split; [|exact H3].
  rewrite H2. exact (off_store_keeps op l w r w1 Hoff E).
Qed.

Lemma ticking_try_catch {A} (q : prog A) h :
  ticking J q -> (forall e, ticking J (h e)) -> ticking J (try_catch q h).
Proof.
  intros Hq Hh.
  induction q as [a|e|X g k IH|X op k IH]; cbn [try_catch ticking] in *.
  - exact I.
  - apply Hh.
  - intros w. destruct (Hq w) as (H1 & H2 & H3). split; [exact H1|].
    split; [exact H2|now apply IH].
  - destruct Hq as [Hoff Hq]. split; [exact Hoff|]. intros r. apply IH, Hq.
Qed.

Lemma ticking_settle {A} (q : prog A) : ticking J q -> ticking J (settle q).
Proof.
  intros Hq.
  induction q as [a|e|X g k IH|X op k IH]; cbn [settle ticking] in *.
  - split; [reflexivity|]. intros r. exact I.
  - split; [reflexivity|]. intros r. exact I.
  - intros w. destruct (Hq w) as (H1 & H2 & H3). split; [exact H1|].
    split; [exact H2|now apply IH].
  - destruct Hq as [Hoff Hq]. split; [exact Hoff|]. intros r. apply IH, Hq.
Qed.

(** A [try]/[finally] that is the whole of a function. *)
Lemma finisher_wrap {A B} (q : prog A) c (b : B) :
  ticking J q -> (forall w, store (c w) = store w) ->
  finisher J (finally q c ≫= fun _ => mret b).
Proof.
  unmonad. intros Hq Hc.
  induction q as [a|e|X g k IH|X op k IH]; cbn [finally bind finisher ticking] in *.
  - intros w. split; [apply Hc|]. split; [intros _; right; exact I|exact I].
  - intros w. split; [apply Hc|]. split; [intros _; right; exact I|exact I].
  - intros w. destruct (Hq w) as (H1 & H2 & H3). split; [exact H1|].
    split; [intros Hw; left; now apply H2|now apply IH].
  - destruct Hq as [Hoff Hq]. split; [exact Hoff|]. intros r. apply IH, Hq.
Qed.

(** Writes on their way to their batch. *)

Variables (key text : string).

Lemma writer_start fin {A} (q : prog A) : forall w,
  writer J key text fin q -> J w ->
  writer J key text fin (start q w).1 /\ J (start q w).2.
Proof.
  induction q as [a|e|X g k IH|X op k IH]; intros w Hq Hw; cbn [start];
    try (now split).
  cbn [writer] in Hq. destruct (Hq w Hw) as [Hw1 Hk].
  destruct (g w) as [x w1]. now apply IH.
Qed.

Lemma writer_bind fin {A B} (q : prog A) (f : A -> prog B) :
  passes J q -> (forall a, writer J key text fin (f a)) ->
  writer J key text fin (q ≫= f).
Proof.
  unmonad. intros Hq Hf.
  induction q as [a|e|X g k IH|X op k IH]; cbn [bind passes] in *.
  - apply Hf.
  - contradiction.
  - intros w Hw. destruct (Hq w Hw) as [H1 H2]. split; [exact H1|now apply IH].
  - destruct Hq as [Hoff Hq].
    destruct op; cbn [off_store] in Hoff; try discriminate Hoff; cbn [writer];
      intros r; apply IH, Hq.
Qed.

Lemma writer_try_catch (fin fin' : forall A, prog A -> Prop) {A} (q : prog A) h :
  (forall q', fin A q' -> fin' A (try_catch q' h)) ->
  writer J key text fin q -> writer J key text fin' (try_catch q h).
Proof.
  intros Hfin Hq.
  induction q as [a|e|X g k IH|X op k IH]; cbn [try_catch writer] in *;
    try contradiction.
  - intros w Hw. destruct (Hq w Hw) as [H1 H2]. split; [exact H1|now apply IH].
  - destruct op; cbn [writer] in *; try contradiction;
      try (intros r; apply IH, Hq).
    destruct Hq as [Hr Hf]. split; [exact Hr|now apply Hfin].
Qed.

Lemma writer_settle (fin fin' : forall A, prog A -> Prop) {A} (q : prog A) :
  (forall q', fin A q' -> fin' A (settle q')) ->
  writer J key text fin q -> writer J key text fin' (settle q).
Proof.
  intros Hfin Hq.
  induction q as [a|e|X g k IH|X op k IH]; cbn [settle writer] in *;
    try contradiction.
  - intros w Hw. destruct (Hq w Hw) as [H1 H2]. split; [exact H1|now apply IH].
  - destruct op; cbn [writer] in *; try contradiction;
      try (intros r; apply IH, Hq).
    destruct Hq as [Hr Hf]. split; [exact Hr|now apply Hfin].
Qed.

Lemma writer_wrap (fin fin' : forall A, prog A -> Prop) {A B} (q : prog A) c
    (g : A -> prog B) :
  (forall q', fin A q' -> fin' B (finally q' c ≫= g)) ->
  writer J key text fin q -> writer J key text fin' (finally q c ≫= g).
Proof.
  unmonad. intros Hfin Hq.
  induction q as [a|e|X f k IH|X op k IH]; cbn [finally bind writer] in *;
    try contradiction.
  - intros w Hw. destruct (Hq w Hw) as [H1 H2]. split; [exact H1|now apply IH].
  - destruct op; cbn [writer] in *; try contradiction;
      try (intros r; apply IH, Hq).
    destruct Hq as [Hr Hf]. split; [exact Hr|now apply Hfin].
Qed.

Lemma writer_resume {A} (q : prog A) l w q' w' :
  (forall cs now w, records key text cs ->
     R (with_store (Redis.exec now cs (store w)) w)) ->
  writer J key text (fun A => @finisher J A) q -> J w -> fails l = false ->
  resume q l w = Some (q', w') ->
  (writer J key text (fun A => @finisher J A) q' /\ J w') \/
  (R w' /\ finisher J q' /\ (over q' \/ J w')).
Proof.
  intros HR.
  destruct q as [a|e|X g k|X op k]; cbn [resume]; try discriminate.
  intros Hq Hw Hl.
  destruct (perform op l w) as [|r w1] eqn:E; [discriminate|].
  intros [= H].
  pose proof (J_steady _ _ _ _ _ _ Hw E) as Hw1.
  destruct op; cbn [writer] in Hq; try contradiction.
  - left. pose proof (writer_start _ (k r) w1 (Hq r) Hw1) as Hs.
    now rewrite H in Hs.
  - left. pose proof (writer_start _ (k r) w1 (Hq r) Hw1) as Hs.
    now rewrite H in Hs.
  - right. destruct Hq as [Hrec Hfin]. cbn [perform] in E. rewrite Hl in E.
    injection E as <- <-.
    pose proof (finisher_start (k (inr tt)) _ Hfin Hw1) as Hs.
    rewrite H in Hs. cbn [fst snd] in Hs. destruct Hs as (H1 & H2 & H3).
    split; [|now split].
    eapply R_store; [exact H2|]. apply (HR cs _ (later l w) Hrec).
  - left. pose proof (writer_start _ (k r) w1 (Hq r) Hw1) as Hs.
    now rewrite H in Hs.
Qed.

(** How the predicates go through the constructions. *)

Lemma reader_mono {A} (post post' : error + A -> Prop) (q : prog A) :
  (forall r, post r -> post' r) -> reader R post q -> reader R post' q.
Proof.
  intros Hpost.
  induction q as [a|e|X g k IH|X op k IH]; cbn [reader].
  - apply Hpost.
  - apply Hpost.
  - intros Hq w. destruct (Hq w) as [H1 H2]. split; [exact H1|now apply IH].
  - destruct (off_store op).
    + intros Hq r. apply IH, Hq.
    + intros Hq l w r w' Hw E. destruct (Hq l w r w' Hw E) as [H1 H2].
      split; [exact H1|now apply IH].
Qed.

Lemma reader_bind {A B} (post : error + B -> Prop) (q : prog A)
    (f : A -> prog B) :
  reader R (fun r => match r with
                     | inl e => post (inl e)
                     | inr a => reader R post (f a)
                     end) q ->
  reader R post (q ≫= f).
Proof.
  unmonad.
  induction q as [a|e|X g k IH|X op k IH]; cbn [bind reader].
  - trivial.
  - trivial.
  - intros Hq w. destruct (Hq w) as [H1 H2]. split; [exact H1|now apply IH].
  - destruct (off_store op).
    + intros Hq r. apply IH, Hq.
    + intros Hq l w r w' Hw E. destruct (Hq l w r w' Hw E) as [H1 H2].
      split; [exact H1|now apply IH].
Qed.

Lemma reader_try_catch {A} (post : error + A -> Prop) (q : prog A) h :
  reader R (fun r => match r with
                     | inl e => reader R post (h e)
                     | inr a => post (inr a)
                     end) q ->
  reader R post (try_catch q h).
Proof.
  induction q as [a|e|X g k IH|X op k IH]; cbn [try_catch reader].
  - trivial.
  - trivial.
  - intros Hq w. destruct (Hq w) as [H1 H2]. split; [exact H1|now apply IH].
  - destruct (off_store op).
    + intros Hq r. apply IH, Hq.
    + intros Hq l w r w' Hw E. destruct (Hq l w r w' Hw E) as [H1 H2].
      split; [exact H1|now apply IH].
Qed.

Lemma reader_settle {A} (post : error + A -> Prop) (q : prog A) :
  reader R post q -> reader R post (settle q).
Proof.
  induction q as [a|e|X g k IH|X op k IH]; cbn [settle reader off_store].
  - intros Hq r. exact Hq.
  - intros Hq r. exact Hq.
  - intros Hq w. destruct (Hq w) as [H1 H2]. split; [exact H1|now apply IH].
  - destruct (off_store op).
    + intros Hq r. apply IH, Hq.
    + intros Hq l w r w' Hw E. destruct (Hq l w r w' Hw E) as [H1 H2].
      split; [exact H1|now apply IH].
Qed.

Lemma reader_withSpan {A} (post : error + A -> Prop) name (q : prog A) :
  reader R post q -> reader R post (withSpan name q).
Proof.
  intros Hq. apply reader_try_catch, reader_settle.
  revert Hq. apply reader_mono. now intros [e|a].
Qed.

Lemma reader_connect (post : error + unit -> Prop) :
  post (inr tt) -> reader R post (settle ensureConnected).
Proof.
  intros Hpost. unfold ensureConnected. unmonad. cbn [bind read settle reader].
  intros w. split; [reflexivity|].
  destruct (connected w); cbn [bind write settle reader off_store].
  - intros r. exact Hpost.
  - intros w1. split; [reflexivity|].
    intros [e|x]; cbn [bind write settle reader off_store]; intros w2;
      (split; [reflexivity|intros r; exact Hpost]).
Qed.

End Predicates.

Section Written.

Variables (J : World -> Prop).
Hypothesis J_fields : forall w w',
  pendingSets w' = pendingSets w -> settled w' = settled w ->
  next_promise w' = next_promise w -> J w -> J w'.

Variables (k : string) (e : entry).
Hypothesis e_closes : errored (value e) = false.
Hypothesis e_expire : 0 < expire e.

Let key := CACHE_PREFIX +:+ k.
Let text := serialize (data_of e (concat (chunks (value e)))).

Lemma writer_read_chunks fin {A} cs (f : list (list byte) -> prog A) :
  forall acc,
  writer J key text fin (f (acc ++ cs)) ->
  writer J key text fin (read_chunks cs false acc ≫= f).
Proof.
  unmonad.
  induction cs as [|c cs IH]; intros acc Hf; cbn [read_chunks bind writer];
    intros r.
  - now rewrite app_nil_r in Hf.
  - apply IH. now rewrite <- app_assoc.
Qed.

Lemma records_set_pipeline : records key text (set_pipeline key text e).
Proof.
  intros now st. eexists. apply exec_set_pipeline_entry, e_expire.
Qed.

Lemma writer_set_try :
  writer J key text (fun A => @ticking J A) (set_try k (inr e)).
Proof.
  unfold set_try.
  apply (writer_settle J key text (fun A => @ticking J A));
    [intros q'; apply ticking_settle|].
  apply (writer_try_catch J key text (fun A => @ticking J A));
    [intros q' Hq'; apply ticking_try_catch; [exact Hq'|intros e0; exact I]|].
  apply (writer_settle J key text (fun A => @ticking J A));
    [intros q'; apply ticking_settle|].
  apply writer_bind; [exact (passes_connect J J_fields)|]. intros _.
  unmonad. cbn [bind writer]. intros _. rewrite e_closes.
  apply (writer_read_chunks _ (chunks (value e)) _ []). cbn [app].
  unfold exec. unmonad. cbn [bind write await writer].
  intros w Hw. split; [revert Hw; now apply J_fields|].
  split; [apply records_set_pipeline|exact I].
Qed.

Lemma writer_set_body c :
  (forall w, store (c w) = store w) ->
  writer J key text (fun A => @finisher J A)
    (finally (try_catch (set_try k (inr e)) (fun _ => mret tt)) c
       ≫= fun _ => mret AUnit).
Proof.
  intros Hc.
  apply (writer_wrap J key text (fun A => @ticking J A));
    [intros q' Hq'; now apply finisher_wrap|].
  apply (writer_try_catch J key text (fun A => @ticking J A));
    [intros q' Hq'; apply ticking_try_catch; [exact Hq'|intros e0; exact I]|].
  apply writer_set_try.
Qed.

Lemma recorded_store w w' :
  store w' = store w -> recorded key text w -> recorded key text w'.
Proof. unfold recorded. now intros ->. Qed.

Lemma recorded_exec cs now w :
  records key text cs ->
  recorded key text (with_store (Redis.exec now cs (store w)) w).
Proof. intros Hcs. right. cbn [store with_store]. apply Hcs. Qed.

(** What [get] answers once the record is in the store. *)
Lemma reader_get tags :
  reader (recorded key text)
    (answers (entry_of (data_of e (concat (chunks (value e))))))
    (body (CallGet k tags)).
Proof.
  set (R := recorded key text).
  set (ent := entry_of (data_of e (concat (chunks (value e))))).
  set (post := fun r : error + option entry =>
                 match r with
                 | inl _ => True
                 | inr o => o = None \/ o = Some ent
                 end).
  cbn [body]. apply reader_bind. unfold get.
  apply reader_try_catch.
  apply (reader_mono R post).
  { intros [err|o]; cbn [reader]; unfold answers.
    - intros _. now left.
    - intros [->| ->]; [now left|now right]. }
  unfold get_try. apply reader_settle, reader_withSpan.
  apply reader_bind, reader_connect.
  apply reader_bind. unmonad. cbn [read reader]. intros w.
  split; [reflexivity|].
  apply reader_bind.
  assert (Hget : reader R post
            (bind (await (StoreGet key))
               (fun stored =>
                  match stored with
                  | None => Ret None
                  | Some EmptyString => Ret None
                  | Some stored =>
                      match deserialize stored with
                      | None => Throw SyntaxError
                      | Some d =>
                          bind (read clock) (fun now =>
                            if now >? d_timestamp d + d_revalidate d * 1000
                            then Ret None else Ret (Some (entry_of d)))
                      end
                  end))).
  { cbn [await bind reader off_store]. intros l w0 r w1 Hw0.
    cbn [perform]. intros [= <- <-]. split; [reflexivity|].
    destruct (fails l); [exact I|].
    unfold Redis.get, Redis.live. cbn [store later with_clock].
    destruct Hw0 as [Hn|[dl Hs]].
    - rewrite Hn. cbn. now left.
    - rewrite Hs.
      assert (Hlive : reader R post
                (bind (Ret (Some text) : prog (option string))
                   (fun stored =>
                      match stored with
                      | None => Ret None
                      | Some EmptyString => Ret None
                      | Some stored =>
                          match deserialize stored with
                          | None => Throw SyntaxError
                          | Some d =>
                              bind (read clock) (fun now =>
                                if now >? d_timestamp d + d_revalidate d * 1000
                                then Ret None else Ret (Some (entry_of d)))
                          end
                      end))).
      { cbn [bind]. destruct text as [|c s] eqn:Et; [now left|].
        rewrite <- Et. unfold text. rewrite deserialize_serialize.
        cbn [read bind reader]. intros w2. split; [reflexivity|].
        destruct (_ >? _); [now left|now right]. }
      destruct dl as [d|]; cbn [Redis.deadline];
        [destruct (Z.leb d _)|]; cbn [of_reply bind reader];
        first [exact Hlive | now left]. }
  destruct (pendingSets w !! k) as [p|]; cbn [reader await off_store].
  - intros [err|[]]; cbn [reader]; [exact I|exact Hget].
  - exact Hget.
Qed.

End Written.

Section WriteThenRead.

Variables (k : string) (p : positive) (e : entry).
Hypothesis e_closes : errored (value e) = false.
Hypothesis e_expire : 0 < expire e.

Let J := pending k p.
Let key := CACHE_PREFIX +:+ k.
Let text := serialize (data_of e (concat (chunks (value e)))).
Let ent := entry_of (data_of e (concat (chunks (value e)))).

Lemma step_sees c ev :
  no_write_to k ev -> first_unfailed ev ->
  read_sees_write k p key text ent c ->
  read_sees_write k p key text ent (step c ev).
Proof.
  intros Hnw Hev (q0 & q1 & rest & Ht & Hrd & Hon & Hinv).
  destruct ev as [cl|i l]; cbn [step].
  - destruct (start (body cl) (world c)) as [q w'] eqn:Es.
    exists q0, q1, (rest ++ [q]). cbn [tasks world]. rewrite Ht.
    split; [reflexivity|]. split; [exact Hrd|].
    destruct (onlooker_start key (body cl) (world c) (onlooker_body k cl Hnw))
      as [Hq Hs].
    rewrite Es in Hq, Hs. cbn [fst snd] in Hq, Hs.
    split; [apply Forall_app; split; [exact Hon|now constructor]|].
    destruct Hinv as [(Hw & H0 & H1 & Hr)|[(Hw & HR & H0 & H1 & Hr)|[Ho HR]]].
    + destruct (safe_start J (body cl) (world c) (safe_body k p cl Hnw) Hw)
        as [Hsq Hw'].
      rewrite Es in Hsq, Hw'. left. split_and!; try assumption.
      apply Forall_app. split; [exact Hr|now constructor].
    + destruct (safe_start J (body cl) (world c) (safe_body k p cl Hnw) Hw)
        as [Hsq Hw'].
      rewrite Es in Hsq, Hw'. right. left. split_and!; try assumption.
      * exact (recorded_store k e _ _ Hs HR).
      * apply Forall_app. split; [exact Hr|now constructor].
    + right. right. split; [exact Ho|]. exact (recorded_store k e _ _ Hs HR).
  - rewrite Ht. destruct i as [|[|j]]; cbn [lookup list_lookup].
    + cbn [first_unfailed] in Hev.
      destruct (resume q0 l (world c)) as [[q0' w']|] eqn:Er.
      2: { exists q0, q1, rest. now split_and!. }
      exists q0', q1, rest. cbn [tasks world]. split; [reflexivity|].
      split; [exact Hrd|]. split; [exact Hon|].
      destruct Hinv as [(Hw & H0 & H1 & Hr)|[(Hw & HR & H0 & H1 & Hr)|[Ho _]]].
      * destruct (writer_resume J (pending_steady k p) (recorded key text)
                    (recorded_store k e) key text q0 l _ _ _
                    (fun cs now w => recorded_exec k e cs now w) H0 Hw Hev Er)
          as [[H0' Hw']|(HR' & H0' & [Ho|Hw'])].
        -- left. now split_and!.
        -- right. right. now split.
        -- right. left. now split_and!.
      * destruct (finisher_resume J (pending_steady k p) q0 l _ _ _ H0 Hw Er)
          as (H0' & Hs & [Ho|Hw']).
        -- right. right. split; [exact Ho|].
           exact (recorded_store k e _ _ Hs HR).
        -- right. left. split_and!; try assumption.
           exact (recorded_store k e _ _ Hs HR).
      * destruct q0; cbn in Ho; try contradiction; discriminate Er.
    + destruct (resume q1 l (world c)) as [[q1' w']|] eqn:Er.
      2: { exists q0, q1, rest. now split_and!. }
      exists q0, q1', rest. cbn [tasks world]. split; [reflexivity|].
      destruct Hinv as [(Hw & H0 & H1 & Hr)|[(Hw & HR & H0 & H1 & Hr)|[Ho HR]]].
      * destruct (blocks_resume J p (pending_steady k p) (pending_unsettled k p)
                    q1 l _ _ _ H1 Hw Er) as (H1' & Hw' & Hoff).
        destruct (reader_resume (recorded key text) _ q1 l _ _ _ Hrd
                    (or_intror Hoff) Er) as [Hrd' _].
        split; [exact Hrd'|]. split; [exact Hon|]. left. now split_and!.
      * destruct (blocks_resume J p (pending_steady k p) (pending_unsettled k p)
                    q1 l _ _ _ H1 Hw Er) as (H1' & Hw' & Hoff).
        destruct (reader_resume (recorded key text) _ q1 l _ _ _ Hrd
                    (or_intror Hoff) Er) as [Hrd' Hs].
        split; [exact Hrd'|]. split; [exact Hon|].
        right. left. split_and!; try assumption.
        exact (recorded_store k e _ _ Hs HR).
      * destruct (reader_resume (recorded key text) _ q1 l _ _ _ Hrd
                    (or_introl HR) Er) as [Hrd' Hs].
        split; [exact Hrd'|]. split; [exact Hon|].
        right. right. split; [exact Ho|].
        exact (recorded_store k e _ _ Hs HR).
    + destruct (rest !! j) as [q|] eqn:Ej.
      2: { exists q0, q1, rest. now split_and!. }
      destruct (resume q l (world c)) as [[q' w']|] eqn:Er.
      2: { exists q0, q1, rest. now split_and!. }
      exists q0, q1, (<[j:=q']> rest). cbn [tasks world].
      split; [reflexivity|]. split; [exact Hrd|].
      assert (Hq : onlooker key q) by (eapply Forall_lookup_1; eassumption).
      destruct (onlooker_resume key text q l _ _ _ Hq Er) as [Hq' HR'].
      split; [now apply Forall_insert|].
      destruct Hinv as [(Hw & H0 & H1 & Hr)|[(Hw & HR & H0 & H1 & Hr)|[Ho HR]]].
      * assert (Hsq : safe J q) by (eapply Forall_lookup_1; eassumption).
        destruct (safe_resume J (pending_steady k p) q l _ _ _ Hsq Hw Er)
          as [Hsq' Hw'].
        left. split_and!; try assumption. now apply Forall_insert.
      * assert (Hsq : safe J q) by (eapply Forall_lookup_1; eassumption).
        destruct (safe_resume J (pending_steady k p) q l _ _ _ Hsq Hw Er)
          as [Hsq' Hw'].
        right. left. split_and!; try assumption; [now apply HR'|].
        now apply Forall_insert.
      * right. right. split; [exact Ho|]. now apply HR'.
Qed.

Lemma steps_see evs : forall c,
  Forall (no_write_to k) evs -> Forall first_unfailed evs ->
  read_sees_write k p key text ent c ->
  read_sees_write k p key text ent (steps c evs).
Proof.
  induction evs as [|ev evs IH]; intros c Hnw Hevs Hc; [exact Hc|].
  apply Forall_cons in Hnw as [Hnw1 Hnw]. apply Forall_cons in Hevs as [Hev Hevs].
  cbn [steps fold_left]. apply IH; [exact Hnw|exact Hevs|]. now apply step_sees.
Qed.

End WriteThenRead.

Lemma write_then_read_sees k e tags w :
  errored (value e) = false -> 0 < expire e ->
  next_promise w ∉ settled w ->
  read_sees_write k (next_promise w) (CACHE_PREFIX +:+ k)
    (serialize (data_of e (concat (chunks (value e)))))
    (entry_of (data_of e (concat (chunks (value e)))))
    (steps (Config w []) [Invoke (CallSet k (inr e)); Invoke (CallGet k tags)]).
Proof.
  intros Hcl Hex Hfresh. set (p := next_promise w). set (J := pending k p).
  cbn [steps fold_left step world tasks app].
  assert (Hreg : J (register k w).2).
  { unfold J, pending, held. cbn. rewrite lookup_insert_eq.
    split_and!; [reflexivity|exact Hfresh|unfold p; lia]. }
  assert (Hset : forall q0 w1,
            start (body (CallSet k (inr e))) w = (q0, w1) ->
            writer J (CACHE_PREFIX +:+ k)
              (serialize (data_of e (concat (chunks (value e)))))
              (fun A => @finisher J A) q0 /\ J w1).
  { intros q0 w1. cbn [body]. unfold set. unmonad. cbn [bind start].
    destruct (register k w) as [x wr] eqn:Er. cbn [bind snd] in *.
    intros Hs.
    pose proof (writer_start J (CACHE_PREFIX +:+ k)
                  (serialize (data_of e (concat (chunks (value e)))))
                  (fun A => @finisher J A)
                  (bind (finally (try_catch (set_try k (inr e)) (fun _ => Ret tt))
                                 (release k x))
                        (fun _ => Ret AUnit)) wr) as Hc.
    rewrite Hs in Hc. apply Hc; [|exact Hreg].
    apply (writer_set_body J (pending_fields k p) k e Hcl Hex (release k x)).
    intros w0. reflexivity. }
  destruct (start (body (CallSet k (inr e))) w) as [q0 w1] eqn:E0.
  cbn [world tasks app].
  destruct (start (body (CallGet k tags)) w1) as [q1 w2] eqn:E1.
  exists q0, q1, []. split; [reflexivity|].
  destruct (Hset q0 w1 eq_refl) as [H0 Hw1].
  assert (Hb : blocks J p (body (CallGet k tags))).
  { cbn [body]. apply blocks_bind_l, blocks_get; [apply pending_fields|].
    now intros w0 [[H _] _]. }
  destruct (blocks_start J p (body (CallGet k tags)) w1 Hb Hw1) as [Hb' Hw2].
  destruct (reader_start _ _ (body (CallGet k tags)) w1 (reader_get k e tags))
    as [Hrd _].
  rewrite E1 in Hb', Hw2, Hrd. cbn [world fst snd] in *.
  split; [exact Hrd|]. split; [constructor|]. left. split_and!; try assumption.
  constructor.
Qed.

End OrderFacts.

(** ** The claims *)

Module Claims.

Import Handler Sched Notions Samples RunFacts StoreFacts.

Local Open Scope Z_scope.

(** C1, as the handler has it.  With no write to the key in flight, [get]
    comes to an end; when the store then holds a record for the key and the
    round trips did not fail, the answer is [undefined] exactly when the
    time of the reply is past [timestamp + revalidate * 1000], and
    otherwise the stored fields as they are, [stale] included. *)
Theorem get_misses_past_revalidate k tags ls w :
  pendingSets w !! k = None ->
  Forall (fun l => fails l = false) ls ->
  exists o w' ls',
    run (get k tags) ls w = Some (inr o, w', ls') /\
    forall stored d,
      Redis.get (clock w') (store w') (CACHE_PREFIX +:+ k)
      = Redis.Ok (Some stored) ->
      deserialize stored = Some d ->
      o = if clock w' >? d_timestamp d + d_revalidate d * 1000 then None
          else Some (Entry (Stream [Base64.decode (d_value d)] false)
                           (d_tags d) (d_stale d) (d_timestamp d)
                           (d_expire d) (d_revalidate d)).
Proof.
  intros Hp Hls. pose proof (run_get k tags ls w Hp) as Hr. cbv zeta in Hr.
  eexists _, _, _. split; [exact Hr|].
  intros stored d Hs Hd. unfold store_get.
  assert (Hf : fails (hd quiet (after_connect ls w).2) = false).
  { unfold after_connect. destruct (connected w); cbn [snd].
    - destruct Hls as [|l1 ls1 H1 Hls]; [reflexivity|].
      destruct Hls; [reflexivity|assumption].
    - destruct Hls as [|l1 ls1 H1 Hls]; [reflexivity|].
      destruct Hls as [|l2 ls2 H2 Hls]; [reflexivity|].
      destruct Hls; [reflexivity|assumption]. }
  rewrite Hf, Hs. cbn [of_reply get_outcome].
  destruct stored as [|c s]; [now rewrite deserialize_empty in Hd|].
  now rewrite Hd.
Qed.

(** The theorem at the record of the counterexample below. *)
Lemma get_misses_past_revalidate_witness :
  pendingSets w_soft !! "k" = None /\
  Forall (fun l => fails l = false) [] /\
  exists o w' ls',
    run (get "k" ["wines"]) [] w_soft = Some (inr o, w', ls') /\
    forall stored d,
      Redis.get (clock w') (store w') (CACHE_PREFIX +:+ "k")
      = Redis.Ok (Some stored) ->
      deserialize stored = Some d ->
      o = if clock w' >? d_timestamp d + d_revalidate d * 1000 then None
          else Some (Entry (Stream [Base64.decode (d_value d)] false)
                           (d_tags d) (d_stale d) (d_timestamp d)
                           (d_expire d) (d_revalidate d)).
Proof.
  split; [vm_compute; reflexivity|]. split; [constructor|].
  apply get_misses_past_revalidate; [vm_compute; reflexivity|constructor].
Defined.

(** C1 as stated fails: a record that is five seconds old, with ten
    seconds to live and a soft window of one second, is in the store and
    within its lifetime, and [get] answers [undefined]. *)
Lemma get_misses_within_ttl :
  Redis.get 5000 (store w_soft) "nextjs:cache:k"
  = Redis.Ok (Some (serialize d_soft)) /\
  deserialize (serialize d_soft) = Some d_soft /\
  5000 <= d_timestamp d_soft + d_expire d_soft * 1000 /\
  run (get "k" ["wines"]) [] w_soft = Some (inr None, w_soft, []).
Proof.
  split; [vm_compute; reflexivity|]. split; [vm_compute; reflexivity|].
  split; [cbn; lia|]. vm_compute. reflexivity.
Qed.

(** C2, as the handler has it.  When [updateTags([t])] went through and
    none of its round trips failed, a [get] for a key that was in the set
    of [t] when the batch ran answers [undefined]: the batch deleted the
    key's record. *)
Theorem invalidated_member_misses t d k tags ls w w1 ls1 members ls2 idle :
  Forall (fun l => fails l = false) ls ->
  run (updateTags_try [t] d) ls w = Some (inr tt, w1, ls1) ->
  Redis.smembers (clock w1) (store w) (TAGS_PREFIX +:+ t) = Redis.Ok members ->
  CACHE_PREFIX +:+ k ∈ members ->
  pendingSets w !! k = None ->
  run (updateTags [t] d) ls w = Some (inr tt, w1, ls1) /\
  store w1 !! (CACHE_PREFIX +:+ k) = None /\
  exists w2 ls3,
    run (get k tags) ls2 (later (Label false idle) w1) = Some (inr None, w2, ls3).
Proof.
  intros Hls Hrun Hsm Hin Hp.
  destruct (run_updateTags_one t d ls w w1 ls1 Hrun)
    as (ts & ms & v & Hts & Hms & Hst & Hpend).
  rewrite (smooth_hd _ (smooth_tl _ (smooth_after_connect _ w Hls))) in Hst.
  assert (Hgone : store w1 !! (CACHE_PREFIX +:+ k) = None).
  { rewrite Hst. apply invalidation_deletes.
    exact (smembers_earlier _ _ _ _ _ _ _ Hts Hms Hsm Hin). }
  split; [unfold updateTags; now rewrite run_try_catch, Hrun|].
  split; [exact Hgone|].
  assert (Hp2 : pendingSets (later (Label false idle) w1) !! k = None)
    by (cbn; now rewrite Hpend).
  pose proof (run_get k tags ls2 _ Hp2) as Hr. cbv zeta in Hr.
  rewrite Hr. eexists _, _. f_equal. f_equal. f_equal.
  destruct (after_connect_frame ls2 (later (Label false idle) w1))
    as (_ & _ & _ & _ & Hst2 & _).
  unfold store_get. destruct (fails _); [reflexivity|].
  unfold Redis.get, Redis.live. cbn [later with_clock store].
  rewrite Hst2. cbn [later with_clock store]. now rewrite Hgone.
Qed.

(** The theorem at a store that holds the record [w1] and the tag [wines]. *)
Lemma invalidated_member_misses_witness :
  let w1 := final (run (updateTags_try ["wines"] None) [] w_tagged) w_tagged in
  Forall (fun l => fails l = false) [] /\
  run (updateTags_try ["wines"] None) [] w_tagged = Some (inr tt, w1, []) /\
  Redis.smembers (clock w1) (store w_tagged) (TAGS_PREFIX +:+ "wines")
  = Redis.Ok ["nextjs:cache:w1"] /\
  CACHE_PREFIX +:+ "w1" ∈ ["nextjs:cache:w1"] /\
  pendingSets w_tagged !! "w1" = None /\
  run (updateTags ["wines"] None) [] w_tagged = Some (inr tt, w1, []) /\
  store w1 !! (CACHE_PREFIX +:+ "w1") = None /\
  exists w2 ls3,
    run (get "w1" ["wines"]) [] (later (Label false 0) w1)
    = Some (inr None, w2, ls3).
Proof.
  cbv zeta.
  assert (H0 : Forall (fun l => fails l = false) []) by constructor.
  assert (H1 : run (updateTags_try ["wines"] None) [] w_tagged
               = Some (inr tt,
                       final (run (updateTags_try ["wines"] None) [] w_tagged)
                             w_tagged, []))
    by (vm_compute; reflexivity).
  assert (H2 : Redis.smembers
                 (clock (final (run (updateTags_try ["wines"] None) [] w_tagged)
                               w_tagged))
                 (store w_tagged) (TAGS_PREFIX +:+ "wines")
               = Redis.Ok ["nextjs:cache:w1"])
    by (vm_compute; reflexivity).
  assert (H3 : CACHE_PREFIX +:+ "w1" ∈ ["nextjs:cache:w1"])
    by (vm_compute; constructor).
  assert (H4 : pendingSets w_tagged !! "w1" = None) by (vm_compute; reflexivity).
  split; [exact H0|]. split; [exact H1|]. split; [exact H2|].
  split; [exact H3|]. split; [exact H4|].
  exact (invalidated_member_misses "wines" None "w1" ["wines"] [] w_tagged _ []
           ["nextjs:cache:w1"] [] 0%N H0 H1 H2 H3 H4).
Defined.

(** C2 as stated fails: the batch of [updateTags(["wines"])] does not reach
    the store, [exec()] resolves all the same and the call comes to its end
    with nothing thrown or caught; the key [w1], a member of the set of
    [wines], still has its record, and [get] answers it. *)
Lemma get_hits_after_failed_batch :
  exists w1 w2,
    run (updateTags_try ["wines"] None) ls_batch_fails w_tagged
    = Some (inr tt, w1, []) /\
    run (updateTags ["wines"] None) ls_batch_fails w_tagged
    = Some (inr tt, w1, []) /\
    Redis.smembers (clock w1) (store w_tagged) (TAGS_PREFIX +:+ "wines")
    = Redis.Ok ["nextjs:cache:w1"] /\
    pendingSets w_tagged !! "w1" = None /\
    run (get "w1" ["wines"]) [] (later (Label false 0) w1)
    = Some (inr (Some (entry_of d_soft)), w2, []).
Proof.
  eexists _, _. split; [vm_compute; reflexivity|].
  repeat split; vm_compute; reflexivity.
Qed.

(** C3. [get], [set], [refreshTags] and [updateTags] return normally
    whatever fails inside and whatever the rest of the process does:
    nothing is thrown to the caller.  When the body of [get] throws, [get]
    answers [undefined]; it does so for a stored text that does not parse. *)
Theorem public_operations_never_throw :
  (forall k tags ls w r w',
     run_among (get k tags) ls w = Some (r, w') -> exists o, r = inr o) /\
  (forall k tags ls w e w' ls',
     run (get_try k tags) ls w = Some (inl e, w', ls') ->
     run (get k tags) ls w = Some (inr None, w', ls')) /\
  (forall k tags ls w stored dl,
     pendingSets w !! k = None ->
     store w !! (CACHE_PREFIX +:+ k) = Some (Redis.Slot (Redis.VString stored) dl) ->
     deserialize stored = None ->
     exists w' ls', run (get k tags) ls w = Some (inr None, w', ls')) /\
  (forall k pendingEntry ls w,
     exists w', run_among (set k pendingEntry) ls w = Some (inr tt, w')) /\
  (forall ls w, exists w', run_among refreshTags ls w = Some (inr tt, w')) /\
  (forall tags durations ls w,
     exists w', run_among (updateTags tags durations) ls w = Some (inr tt, w')).
Proof.
  repeat split.
  - intros k tags ls w r w' Hr. unfold get in Hr. unmonad.
    apply (run_among_try_catch (get_try k tags) (fun _ => Ret None) ls w)
      with (w' := w'); [|exact Hr].
    intros e ls0 w0. now exists None.
  - intros k tags ls w e w' ls' Hr. unfold get. now rewrite run_try_catch, Hr.
  - intros k tags ls w stored dl Hp Hs Hd.
    pose proof (run_get k tags ls w Hp) as Hr. cbv zeta in Hr.
    rewrite Hr. eexists _, _. f_equal. f_equal. f_equal.
    destruct (after_connect_frame ls w) as (_ & _ & _ & _ & Hst & _).
    unfold store_get. destruct (fails _); [reflexivity|].
    unfold Redis.get, Redis.live. cbn [later with_clock store].
    rewrite Hst, Hs. cbn [Redis.deadline].
    destruct dl as [d|]; [destruct (d <=? _)|]; cbn [of_reply get_outcome];
      try reflexivity; destruct stored; try reflexivity; now rewrite Hd.
  - intros k pendingEntry ls w.
    destruct (run_among_set k pendingEntry ls w) as [w1 Hr]. eauto.
  - intros ls w.
    destruct (guarded_returns refreshTags_try tt ls w nonblocking_refreshTags_try)
      as ([] & w' & Hr). eauto.
  - intros tags durations ls w.
    destruct (guarded_returns (updateTags_try tags durations) tt ls w
                (nonblocking_updateTags_try tags durations))
      as ([] & w' & Hr). eauto.
Qed.

(** The third part of the theorem at a store that holds a garbled text. *)
Lemma public_operations_never_throw_witness :
  pendingSets w_garbled !! "k" = None /\
  store w_garbled !! (CACHE_PREFIX +:+ "k")
  = Some (Redis.Slot (Redis.VString "{value:") None) /\
  deserialize "{value:" = None /\
  exists w' ls', run (get "k" []) [] w_garbled = Some (inr None, w', ls').
Proof.
  assert (H1 : pendingSets w_garbled !! "k" = None) by (vm_compute; reflexivity).
  assert (H2 : store w_garbled !! (CACHE_PREFIX +:+ "k")
               = Some (Redis.Slot (Redis.VString "{value:") None))
    by (vm_compute; reflexivity).
  assert (H3 : deserialize "{value:" = None) by (vm_compute; reflexivity).
  split; [exact H1|]. split; [exact H2|]. split; [exact H3|].
  exact (proj1 (proj2 (proj2 public_operations_never_throw))
           "k" [] [] w_garbled "{value:" None H1 H2 H3).
Defined.

(** C4, as the handler has it.  The body of [updateTags] fails when the
    read of a member set fails, which makes it throw, or when its batch
    does not reach the store, which does not: [exec()] resolves.  Either
    way [updateTags] returns normally, and the store, [pendingSets] and the
    promises are as they were; but the map of timestamps is not: the tags
    whose member set had been read (all the tags when it is the batch that
    failed), and they alone, have the time at which the loop began as
    their timestamp. *)
Theorem failed_updateTags_keeps_its_stamps tags d ls w r w' ls' :
  run (updateTags_try tags d) ls w = Some (r, w', ls') ->
  let w0 := (after_connect ls w).1 in
  let reads := (after_connect ls w).2 in
  let done := read_before_failure tags reads w0 in
  (exists e, r = inl e) \/ fails (hd quiet (drop (length tags) reads)) = true ->
  run (updateTags tags d) ls w = Some (inr tt, w', ls') /\
  store w' = store w /\ pendingSets w' = pendingSets w /\
  settled w' = settled w /\
  clock w <= clock w0 <= clock w' /\
  match r with
  | inl _ => exists tag rest, tags = done ++ tag :: rest
  | inr _ => done = tags
  end /\
  forall t,
    tagTimestamps w' !! t =
    if bool_decide (t ∈ done) then Some (Int (clock w0))
    else tagTimestamps w !! t.
Proof.
  intros Hr. cbv zeta. intros Hfail.
  split; [unfold updateTags; rewrite run_try_catch, Hr; now destruct r as [e|[]]|].
  revert Hr. unfold updateTags_try.
  rewrite run_settle, run_withSpan, run_bind, run_connect, run_bind, run_read.
  destruct (after_connect_frame ls w) as (Hts & Hp & Hs & Hn & Hst & Hb & Hc).
  set (w1 := (after_connect ls w).1) in *.
  set (ls1 := (after_connect ls w).2) in *.
  rewrite run_bind.
  destruct (run (update_loop (clock w1) tags []) ls1 w1)
    as [[[[e1|pipeline] w2] ls2]|] eqn:El; [| |discriminate].
  - destruct (run_update_loop _ _ _ _ _ _ _ _ El)
      as (dn & _ & _ & _ & (Hp2 & Hs2 & _ & Hc2) & Hst2 & Hb2).
    destruct (run_update_loop_stamps _ _ _ _ _ _ _ _ El) as (Hts2 & Hsplit & _).
    intros [= <- <- _].
    split; [congruence|]. split; [congruence|]. split; [congruence|].
    split; [lia|]. split; [now apply (Hsplit e1)|].
    intros t. rewrite Hts2, Hts. apply stamp_lookup.
  - destruct (run_update_loop _ _ _ _ _ _ _ _ El)
      as (dn & _ & _ & _ & (Hp2 & Hs2 & _ & Hc2) & Hst2 & Hb2).
    destruct (run_update_loop_stamps _ _ _ _ _ _ _ _ El) as (Hts2 & _ & Hall).
    pose proof (run_exec pipeline ls2 w2) as Hx. cbv zeta in Hx. rewrite Hx.
    intros [= <- <- _].
    destruct Hfail as [[e He]|Hfail]; [discriminate He|].
    rewrite <- (run_update_loop_labels _ _ _ _ _ _ _ _ El) in Hfail.
    rewrite Hfail.
    cbn [store pendingSets settled clock tagTimestamps later with_clock
         with_batches].
    split; [congruence|]. split; [congruence|]. split; [congruence|].
    split; [lia|]. split; [now apply (Hall pipeline)|].
    intros t. rewrite Hts2, Hts. apply stamp_lookup.
Qed.

(** The theorem at the first call of the counterexample below: the read of
    the second member set fails, and the first tag is the one that was
    read. *)
Lemma failed_updateTags_keeps_its_stamps_witness :
  let w' := final (run (updateTags_try ["a"; "b"] None) ls_read_fails w_idle)
                  w_idle in
  let w0 := (after_connect ls_read_fails w_idle).1 in
  let reads := (after_connect ls_read_fails w_idle).2 in
  let done := read_before_failure ["a"; "b"] reads w0 in
  run (updateTags_try ["a"; "b"] None) ls_read_fails w_idle
  = Some (inl StoreError, w', []) /\
  done = ["a"] /\
  run (updateTags ["a"; "b"] None) ls_read_fails w_idle = Some (inr tt, w', []) /\
  store w' = store w_idle /\ pendingSets w' = pendingSets w_idle /\
  settled w' = settled w_idle /\
  clock w_idle <= clock w0 <= clock w' /\
  (exists tag rest, ["a"; "b"] = done ++ tag :: rest) /\
  forall t,
    tagTimestamps w' !! t =
    if bool_decide (t ∈ done) then Some (Int (clock w0))
    else tagTimestamps w_idle !! t.
Proof.
  cbv zeta.
  assert (H1 : run (updateTags_try ["a"; "b"] None) ls_read_fails w_idle
               = Some (inl StoreError,
                       final (run (updateTags_try ["a"; "b"] None)
                                ls_read_fails w_idle) w_idle, []))
    by (vm_compute; reflexivity).
  split; [exact H1|]. split; [vm_compute; reflexivity|].
  exact (failed_updateTags_keeps_its_stamps ["a"; "b"] None ls_read_fails w_idle
           (inl StoreError) _ [] H1 (or_introl (ex_intro _ StoreError eq_refl))).
Defined.

(** C4 as stated fails.  In [updateTags(["a"; "b"])] the read of the member
    set of [b] fails: the call returns normally with the store as it was,
    and the timestamp of [a] has moved all the same.  In [updateTags(["a"])]
    the batch fails: nothing is thrown, the store is as it was, and the
    timestamp of [a] has moved. *)
Lemma failed_updateTags_moves_timestamp :
  exists w' w'',
    run (updateTags_try ["a"; "b"] None) ls_read_fails w_idle
    = Some (inl StoreError, w', []) /\
    run (updateTags ["a"; "b"] None) ls_read_fails w_idle
    = Some (inr tt, w', []) /\
    store w' = store w_idle /\
    run (getExpiration ["a"]) [] w_idle = Some (inr 0, w_idle, []) /\
    run (getExpiration ["a"]) [] w' = Some (inr 100, w', []) /\
    run (updateTags_try ["a"] None) ls_batch_fails w_idle
    = Some (inr tt, w'', []) /\
    store w'' = store w_idle /\
    run (getExpiration ["a"]) [] w'' = Some (inr 100, w'', []).
Proof.
  eexists _, _. split; [vm_compute; reflexivity|].
  split; [vm_compute; reflexivity|]. split; [vm_compute; reflexivity|].
  split; [vm_compute; reflexivity|]. split; [vm_compute; reflexivity|].
  split; [vm_compute; reflexivity|]. split; vm_compute; reflexivity.
Qed.

(** C5. For an entry whose producer and stream deliver, [set] hands the
    store one batch: the serialized entry under the prefixed key with a
    lifetime of [expire] seconds, then for every tag of the entry the
    prefixed key added to the tag's set and the set's lifetime put to
    [expire + 60] seconds. *)
Theorem set_sends_one_batch k e ls w :
  errored (value e) = false ->
  exists w' ls',
    run (set k (inr e)) ls w = Some (inr tt, w', ls') /\
    batches w' =
    batches w ++
    [Redis.SETEX (CACHE_PREFIX +:+ k) (expire e)
       (serialize (data_of e (concat (chunks (value e))))) ::
     flat_map (fun tag =>
                 [Redis.SADD (TAGS_PREFIX +:+ tag) (CACHE_PREFIX +:+ k);
                  Redis.EXPIRE (TAGS_PREFIX +:+ tag) (expire e + 60)])
              (tags e)].
Proof.
  intros He. pose proof (run_set k e ls w He) as Hr. cbv zeta in Hr.
  eexists _, _. split; [exact Hr|].
  rewrite <- set_pipeline_eq.
  destruct (after_connect_frame ls (register k w).2)
    as (_ & _ & _ & _ & _ & Hb & _).
  destruct (fails _);
    cbn [batches release with_pendingSets with_settled with_store later
         with_clock with_batches];
    now rewrite Hb.
Qed.

(** The theorem at an entry of two chunks and one tag. *)
Lemma set_sends_one_batch_witness :
  exists w' ls',
    run (set "w1" (inr (Entry (Stream [[x61]; [x62; x63]] false) ["wines"]
                              false 1000 3600 3600))) [] (initial ∅ 1000)
    = Some (inr tt, w', ls') /\
    batches w' =
    [[Redis.SETEX "nextjs:cache:w1" 3600
        (serialize (Data "YWJj" ["wines"] false 1000 3600 3600));
      Redis.SADD "nextjs:tags:wines" "nextjs:cache:w1";
      Redis.EXPIRE "nextjs:tags:wines" 3660]].
Proof.
  exact (set_sends_one_batch "w1"
           (Entry (Stream [[x61]; [x62; x63]] false) ["wines"] false 1000 3600 3600)
           [] (initial ∅ 1000) eq_refl).
Defined.

(** C6. Every call [set(key, pendingEntry)] comes to an end, whether its
    write went through, was refused or never started, and whatever the rest
    of the process did meanwhile; when it does, [pendingSets] has no entry
    for [key] and the promise the call had registered is settled. *)
Theorem set_releases_its_slot key pendingEntry ls w :
  exists w',
    run_among (set key pendingEntry) ls w = Some (inr tt, w') /\
    pendingSets w' !! key = None /\
    (register key w).1 ∈ settled w'.
Proof.
  destruct (run_among_set key pendingEntry ls w) as [w1 Hr].
  eexists. split; [exact Hr|]. unfold release. cbn. split.
  - apply lookup_delete_eq.
  - set_solver.
Qed.

(** C7, as the handler has it.  Calls of [updateTags] made one after
    another, from a state where the timestamp of [t] is not in the future,
    all come to an end and never lower what [getExpiration([t])] answers. *)
Theorem expiration_grows_under_updateTags t calls : forall w,
  Forall (fun c => exists tags d, c.1.1 = CallUpdateTags tags d) calls ->
  (forall z, tagTimestamps w !! t = Some (Int z) -> z <= clock w) ->
  exists w',
    session calls w = Some w' /\
    expiration w [t] <= expiration w' [t] /\
    (forall z, tagTimestamps w' !! t = Some (Int z) -> z <= clock w').
Proof.
  induction calls as [|[[c ls] idle] rest IH]; intros w Hcalls Hw.
  { exists w. split; [reflexivity|]. split; [lia|exact Hw]. }
  apply Forall_cons in Hcalls as [(tags & d & Hc) Hrest].
  cbn [fst] in Hc. subst c. cbn [session body].
  set (w0 := later (Label false idle) w).
  destruct (run_updateTags tags d ls w0) as (r0 & w1 & ls1 & Htry & Hrun).
  rewrite run_bind, Hrun. cbn [run mret prog_ret].
  destruct (run_updateTags_try tags d ls w0 _ _ _ Htry)
    as (now & done & H1 & H2 & _ & _ & Hts & (_ & _ & _ & Hck) & _).
  assert (Hlook := stamp_lookup now done (tagTimestamps w) t).
  change (tagTimestamps w0) with (tagTimestamps w) in Hts.
  rewrite <- Hts in Hlook.
  assert (Hc0 : clock w <= clock w0) by (cbn; lia).
  assert (Hw1 : forall z, tagTimestamps w1 !! t = Some (Int z) -> z <= clock w1).
  { intros z. rewrite Hlook. case_bool_decide.
    - intros [= <-]. lia.
    - intros Hz. specialize (Hw z Hz). lia. }
  destruct (IH w1 Hrest Hw1) as (w' & Hs & Hle & Hw').
  exists w'. split; [exact Hs|]. split; [|exact Hw'].
  etransitivity; [|exact Hle]. rewrite !expiration_one, Hlook.
  case_bool_decide.
  - destruct (tagTimestamps w !! t) as [[|z]|] eqn:Ez; try lia.
    specialize (Hw z eq_refl). lia.
  - reflexivity.
Qed.

(** The theorem at two invalidations of one tag, the second of which
    fails. *)
Lemma expiration_grows_under_updateTags_witness :
  let calls := [(CallUpdateTags ["a"] None, [], 0%N);
                (CallUpdateTags ["a"] None, ls_batch_fails, 100%N)] in
  Forall (fun c => exists tags d, c.1.1 = CallUpdateTags tags d) calls /\
  (forall z, tagTimestamps w_idle !! "a" = Some (Int z) -> z <= clock w_idle) /\
  exists w',
    session calls w_idle = Some w' /\
    expiration w_idle ["a"] <= expiration w' ["a"] /\
    (forall z, tagTimestamps w' !! "a" = Some (Int z) -> z <= clock w').
Proof.
  cbv zeta.
  assert (H1 : Forall (fun c : call * list label * N =>
                         exists tags d, c.1.1 = CallUpdateTags tags d)
                 [(CallUpdateTags ["a"] None, [], 0%N);
                  (CallUpdateTags ["a"] None, ls_batch_fails, 100%N)])
    by (repeat constructor; eexists _, _; reflexivity).
  assert (H2 : forall z, tagTimestamps w_idle !! "a" = Some (Int z) ->
                         z <= clock w_idle)
    by (intros z Hz; vm_compute in Hz; discriminate Hz).
  split; [exact H1|]. split; [exact H2|].
  exact (expiration_grows_under_updateTags "a" _ w_idle H1 H2).
Defined.

(** C7 as stated fails: after an [updateTags(["a"])] at time 100 and a
    second one at time 200 whose batch fails, [getExpiration(["a"])]
    answers 200; [refreshTags] then reads 100 back from the store, and the
    answer drops to 100. *)
Lemma refreshTags_lowers_expiration :
  exists w2 w3 ls3,
    session [(CallUpdateTags ["a"] None, [], 0%N);
             (CallUpdateTags ["a"] None, ls_batch_fails, 100%N)] w_idle
    = Some w2 /\
    run (getExpiration ["a"]) [] w2 = Some (inr 200, w2, []) /\
    run refreshTags [] w2 = Some (inr tt, w3, ls3) /\
    run (getExpiration ["a"]) [] w3 = Some (inr 100, w3, []).
Proof.
  eexists _, _, _. split; [vm_compute; reflexivity|].
  split; [vm_compute; reflexivity|].
  split; [vm_compute; reflexivity|]. vm_compute; reflexivity.
Qed.

(** C8. A payload written by [set] and read back by [get].  For an entry
    whose producer and stream deliver, whatever bytes its chunks hold,
    [set] leaves under the prefixed key the JSON text of a record whose
    value is the base64 text of the chunks joined; the [get] that follows,
    made while the record is in the store and within its window, answers
    an entry whose value is a stream of one chunk: those bytes. *)
Theorem payload_round_trip k e softTags ls ls2 idle w :
  errored (value e) = false ->
  0 < expire e ->
  smooth ls -> smooth ls2 ->
  let bytes := concat (chunks (value e)) in
  exists w1 ls1 o w2 ls3 dl,
    run (set k (inr e)) ls w = Some (inr tt, w1, ls1) /\
    store w1 !! (CACHE_PREFIX +:+ k)
    = Some (Redis.Slot
              (Redis.VString
                 (serialize (Data (Base64.encode bytes) (tags e) (stale e)
                                  (timestamp e) (expire e) (revalidate e))))
              dl) /\
    run (get k softTags) ls2 (later (Label false idle) w1) = Some (inr o, w2, ls3) /\
    (clock w2 <= timestamp e + revalidate e * 1000 ->
     clock w2 < clock w1 + expire e * 1000 ->
     exists ent, o = Some ent /\ value ent = Stream [bytes] false).
Proof.
  intros He Hx Hls Hls2. cbv zeta.
  destruct (run_set_smooth k e ls w He Hls) as (w1 & ls1 & Hset & Hst & _ & Hp & _).
  set (w1' := later (Label false idle) w1).
  assert (Hp' : pendingSets w1' !! k = None) by exact Hp.
  destruct (run_get_store k softTags ls2 w1' Hp')
    as (w2 & ls3 & Hget & Hst2 & Hc2 & _).
  assert (Hrec : store w1 !! (CACHE_PREFIX +:+ k)
                 = Some (Redis.Slot
                           (Redis.VString
                              (serialize (data_of e (concat (chunks (value e))))))
                           (Some (clock w1 + expire e * 1000))))
    by (rewrite Hst; now apply exec_set_pipeline_entry).
  exists w1, ls1. eexists _, w2, ls3, _.
  split; [exact Hset|]. split; [exact Hrec|]. split; [exact Hget|].
  intros Hfresh Hlive.
  unfold store_get. rewrite (smooth_hd _ (smooth_after_connect _ _ Hls2)).
  unfold Redis.get, Redis.live. rewrite Hst2. change (store w1') with (store w1).
  rewrite Hrec. cbn [Redis.deadline].
  destruct (Z.leb_spec (clock w1 + expire e * 1000) (clock w2)) as [Hle|_]; [lia|].
  cbn [of_reply get_outcome].
  destruct (serialize_nonempty (data_of e (concat (chunks (value e))))) as (c & s & Hs).
  rewrite Hs, <- Hs, deserialize_serialize.
  cbn [d_timestamp d_revalidate data_of].
  destruct (Z.gtb_spec (clock w2) (timestamp e + revalidate e * 1000)) as [Hgt|_];
    [lia|].
  eexists. split; [reflexivity|].
  unfold entry_of. cbn [value d_value data_of].
  now rewrite Base64Facts.decode_encode.
Qed.

(** The theorem at the entry [e_binary], read right after it was
    written. *)
Lemma payload_round_trip_witness :
  let bytes := concat (chunks (value e_binary)) in
  errored (value e_binary) = false /\ 0 < expire e_binary /\
  smooth [] /\
  exists w1 ls1 o w2 ls3 dl,
    run (set "k" (inr e_binary)) [] (initial ∅ 1000) = Some (inr tt, w1, ls1) /\
    store w1 !! (CACHE_PREFIX +:+ "k")
    = Some (Redis.Slot
              (Redis.VString
                 (serialize (Data (Base64.encode bytes) (tags e_binary)
                                  (stale e_binary) (timestamp e_binary)
                                  (expire e_binary) (revalidate e_binary))))
              dl) /\
    run (get "k" []) [] (later (Label false 0) w1) = Some (inr o, w2, ls3) /\
    (clock w2 <= timestamp e_binary + revalidate e_binary * 1000 ->
     clock w2 < clock w1 + expire e_binary * 1000 ->
     exists ent, o = Some ent /\ value ent = Stream [bytes] false).
Proof.
  cbv zeta. split; [reflexivity|]. split; [reflexivity|]. split; [constructor|].
  exact (payload_round_trip "k" e_binary [] [] [] 0%N (initial ∅ 1000)
           eq_refl eq_refl ltac:(constructor) ltac:(constructor)).
Defined.

(** C9, at the input where the handler misses it.  With two calls of [set]
    for one key in flight, the first to finish removes the promise of the
    second from [pendingSets]; a [get] made then finds no promise, does not
    wait, and reads the store while the second write is still in flight.
    With one call of [set] in flight the same [get] stays blocked. *)
Theorem get_does_not_wait_for_second_writer :
  let c := steps (Config w_idle []) (two_writers ++ [Invoke (CallGet "k" [])]) in
  map status_of (tasks c) = [Returned AUnit; Waiting; Waiting] /\
  pendingSets (world c) !! "k" = None /\
  map status_of (tasks (steps c (repeat (Resume 2 quiet) 4)))
  = [Returned AUnit; Waiting;
     Returned (AEntry (Some (entry_of (data_of e_first [x61]))))] /\
  map status_of
    (tasks (steps (Config w_idle [])
              ([Invoke (CallSet "k" (inr e_first)); Invoke (CallGet "k" [])]
               ++ repeat (Resume 1 quiet) 4)))
  = [Waiting; Waiting].
Proof. cbv zeta. repeat split; vm_compute; reflexivity. Qed.

(** C10, as the handler has it.  [ensureConnected] always comes to an end
    with the flag set, also when the connection attempt failed; a call made
    once the flag is set makes no attempt and leaves the flag set; calls
    made one after another from the start of the process make one attempt
    at most; and in any run of the event loop from the start of the
    process, once the flag is set it stays set and no further attempt is
    made, by the calls in flight or by later ones. *)
Theorem connects_at_most_once :
  (forall ls w, exists w' ls',
     run ensureConnected ls w = Some (inr tt, w', ls') /\ connected w' = true) /\
  (forall c ls w r w' ls',
     connected w = true -> run (body c) ls w = Some (r, w', ls') ->
     connected w' = true /\ connects w' = connects w) /\
  (forall calls st t w',
     session calls (initial st t) = Some w' -> (connects w' <= 1)%nat) /\
  (forall evs evs' st t,
     let c := steps (Config (initial st t) []) evs in
     connected (world c) = true ->
     connected (world (steps c evs')) = true /\
     connects (world (steps c evs')) = connects (world c)).
Proof.
  split; [|split; [|split]].
  - intros ls w. rewrite run_ensureConnected.
    destruct (connected w) eqn:Hc; eauto.
  - intros c ls w r w' ls' Hc Hr.
    eapply (keeps_linked_body (connects w) c); [|exact Hr]. now split.
  - intros calls st t.
    assert (H : forall w w', connected_once w -> session calls w = Some w' ->
                             connected_once w').
    { induction calls as [|[[c ls] idle] rest IH]; intros w w' Hw; cbn [session].
      - now intros [= <-].
      - destruct (run (body c) ls _) as [[[r w1] ls1]|] eqn:E; [|discriminate].
        apply IH. eapply (keeps_connected_once_body c); [|exact E].
        exact Hw. }
    intros w' Hs.
    assert (H0 : connected_once (initial st t)) by (now left).
    specialize (H _ _ H0 Hs).
    destruct H as [->|[-> _]]; lia.
  - intros evs evs' st t c Hc.
    assert (Hcalm : Forall calm (tasks c))
      by (apply LoopFacts.steps_calm; constructor).
    destruct (LoopFacts.steps_connection evs' c Hcalm Hc) as (_ & H1 & H2).
    now split.
Qed.

(** The third part of the theorem at three calls from the start of a
    process whose connection attempt fails. *)
Lemma connects_at_most_once_witness :
  let calls := [(CallGet "a" [], [Label true 7], 0%N);
                (CallSet "a" (inr e_first), [], 5%N);
                (CallUpdateTags ["wines"] None, [], 5%N)] in
  let w' := default (initial ∅ 0) (session calls (initial ∅ 0)) in
  session calls (initial ∅ 0) = Some w' /\
  connected w' = true /\ (connects w' <= 1)%nat.
Proof.
  cbv zeta.
  set (calls := [(CallGet "a" [], [Label true 7], 0%N);
                 (CallSet "a" (inr e_first), [], 5%N);
                 (CallUpdateTags ["wines"] None, [], 5%N)]).
  assert (H : session calls (initial ∅ 0)
              = Some (default (initial ∅ 0) (session calls (initial ∅ 0))))
    by (vm_compute; reflexivity).
  split; [exact H|]. split; [vm_compute; reflexivity|].
  exact (proj1 (proj2 (proj2 connects_at_most_once)) calls ∅ 0 _ H).
Defined.

(** C10 as stated fails for calls that overlap: two calls made before the
    first [ensureConnected] is over both find the flag unset, and both
    call [connect()]. *)
Lemma overlapping_first_calls_connect_twice :
  let c := steps (Config (initial ∅ 0) [])
             [Invoke (CallGet "a" []); Invoke (CallGet "b" [])] in
  connected (world c) = false /\ connects (world c) = 2%nat /\
  let c' := steps c (repeat (Resume 0 quiet) 5 ++ repeat (Resume 1 quiet) 5) in
  map status_of (tasks c') = [Returned (AEntry None); Returned (AEntry None)] /\
  connected (world c') = true /\ connects (world c') = 2%nat.
Proof. cbv zeta. repeat split; vm_compute; reflexivity. Qed.

(** ** The scenarios of the specification, run *)

(** A write, then a read of the same key: the payload comes back. *)
Example scenario_write_then_read :
  let e := Entry (Stream [[x61]; [x62; x63]] false) ["wines"] false 1000 3600 3600 in
  let w1 := final (run (set "w1" (inr e)) [] (initial ∅ 1000)) (initial ∅ 1000) in
  run (get "w1" ["wines"]) [] w1
  = Some (inr (Some (Entry (Stream [[x61; x62; x63]] false) ["wines"] false
                           1000 3600 3600)), w1, []).
Proof. vm_compute. reflexivity. Qed.

(** A write, an invalidation of its tag, then a read: a miss. *)
Example scenario_invalidate_then_read :
  let e := Entry (Stream [[x61]; [x62; x63]] false) ["wines"] false 1000 3600 3600 in
  let w1 := final (run (set "w1" (inr e)) [] (initial ∅ 1000)) (initial ∅ 1000) in
  let w2 := final (run (updateTags ["wines"] None) [] w1) w1 in
  store w2 !! "nextjs:tags:wines:timestamp"
  = Some (Redis.Slot (Redis.VString "1000") None) /\
  run (get "w1" ["wines"]) [] w2 = Some (inr None, w2, []).
Proof. cbv zeta. split; vm_compute; reflexivity. Qed.

(** A read made while the one write to its key is in flight does not
    return before the write is over, and then returns what was written. *)
Example scenario_read_waits_for_write :
  let c := steps (Config w_idle [])
             ([Invoke (CallSet "w2" (inr e_first)); Invoke (CallGet "w2" [])]
              ++ repeat (Resume 1 quiet) 9) in
  map status_of (tasks c) = [Waiting; Waiting] /\
  map status_of
    (tasks (steps c (repeat (Resume 0 quiet) 7 ++ repeat (Resume 1 quiet) 4)))
  = [Returned AUnit;
     Returned (AEntry (Some (entry_of (data_of e_first [x61]))))].
Proof. cbv zeta. split; vm_compute; reflexivity. Qed.

(** A payload of bytes that are no printable characters comes back as it
    was written, the two chunks joined. *)
Example scenario_binary_payload :
  let w1 := final (run (set "k" (inr e_binary)) [] (initial ∅ 1000))
                  (initial ∅ 1000) in
  exists w2 ent,
    run (get "k" []) [] (later (Label false 0) w1) = Some (inr (Some ent), w2, []) /\
    value ent = Stream [[x00; xff; x80; x0a; xfe]] false.
Proof. cbv zeta. eexists _, _. split; vm_compute; reflexivity. Qed.

(** A tag that was never invalidated has timestamp 0. *)
Example scenario_unknown_tag :
  run (getExpiration ["unknown-tag"]) [] w_idle = Some (inr 0, w_idle, []).
Proof. vm_compute. reflexivity. Qed.

(** A fresh process picks up, by [refreshTags], an invalidation that
    another process made at time 1234. *)
Example scenario_refresh_on_fresh_process :
  let st := store (final (run (updateTags ["wines"] None) [] (initial ∅ 1234))
                         (initial ∅ 1234)) in
  let w := final (run refreshTags [] (initial st 5000)) (initial st 5000) in
  run (getExpiration ["wines"]) [] w = Some (inr 1234, w, []).
Proof. vm_compute. reflexivity. Qed.

(** ** A batch of which the store refuses one command *)

(** The timestamp of a tag [x] is kept under the key of the member set of
    the tag [x:timestamp].  After [updateTags(["x"])], a [set] of an entry
    tagged [x:timestamp] has its [SADD] refused by the store (the key holds
    a string), while its [SETEX] is applied: [exec()] resolves, [get]
    returns the entry, and the entry is in no member set. *)
Example scenario_batch_applied_in_part :
  let e := Entry (Stream [[x61]] false) ["x:timestamp"] false 100 60 60 in
  let w1 := final (run (updateTags ["x"] None) [] w_idle) w_idle in
  let w2 := final (run (set "k" (inr e)) [] w1) w1 in
  run (get "k" []) [] w2 = Some (inr (Some e), w2, []) /\
  Redis.smembers (clock w2) (store w2) "nextjs:tags:x:timestamp" = Redis.WrongType /\
  Redis.get (clock w2) (store w2) "nextjs:tags:x:timestamp" = Redis.Ok (Some "100").
Proof. cbv zeta. repeat split; vm_compute; reflexivity. Qed.

End Claims.

(** ** Further properties of the handler *)

Module Properties.

Import Handler Sched Notions Samples RunFacts StoreFacts TagFacts WaitFacts
  OrderFacts.

Local Open Scope Z_scope.

(** *** Writes and reads *)

(** X1. A write followed by a read of the same key.  When the entry's
    producer and stream deliver, [expire] is positive and no round trip
    fails, [set] comes to an end, and the [get] that follows answers the
    entry that was written, its payload being the chunks joined in one,
    unless by then the time is past [timestamp + revalidate * 1000] or the
    record's lifetime of [expire] seconds in the store is over; in both
    cases it answers [undefined]. *)
Theorem get_returns_what_set_wrote k e softTags ls ls2 idle w :
  errored (value e) = false ->
  0 < expire e ->
  smooth ls -> smooth ls2 ->
  exists w1 ls1 o w2 ls3,
    run (set k (inr e)) ls w = Some (inr tt, w1, ls1) /\
    run (get k softTags) ls2 (later (Label false idle) w1) = Some (inr o, w2, ls3) /\
    o = if (clock w2 >? timestamp e + revalidate e * 1000)
           || (clock w1 + expire e * 1000 <=? clock w2)
        then None
        else Some (Entry (Stream [concat (chunks (value e))] false)
                         (tags e) (stale e) (timestamp e) (expire e) (revalidate e)).
Proof.
  intros He Hx Hls Hls2.
  destruct (run_set_smooth k e ls w He Hls) as (w1 & ls1 & Hset & Hst & _ & Hp & _).
  set (w1' := later (Label false idle) w1).
  assert (Hp' : pendingSets w1' !! k = None) by exact Hp.
  destruct (run_get_store k softTags ls2 w1' Hp')
    as (w2 & ls3 & Hget & Hst2 & Hc2 & _).
  exists w1, ls1. eexists _, w2, ls3. split; [exact Hset|]. split; [exact Hget|].
  unfold store_get. rewrite (smooth_hd _ (smooth_after_connect _ _ Hls2)).
  unfold Redis.get, Redis.live. rewrite Hst2. change (store w1') with (store w1).
  rewrite Hst, exec_set_pipeline_entry by exact Hx. cbn [Redis.deadline].
  destruct (clock w1 + expire e * 1000 <=? clock w2).
  { cbn [of_reply get_outcome]. now rewrite orb_true_r. }
  rewrite orb_false_r. cbn [of_reply get_outcome].
  destruct (serialize_nonempty (data_of e (concat (chunks (value e))))) as (c & s & Hs).
  rewrite Hs, <- Hs, deserialize_serialize.
  cbn [d_timestamp d_revalidate data_of].
  destruct (_ >? _); [reflexivity|].
  unfold entry_of. cbn [d_value d_tags d_stale d_timestamp d_expire d_revalidate data_of].
  now rewrite Base64Facts.decode_encode.
Qed.

(** The theorem at an entry of two chunks, read right after it was
    written. *)
Lemma get_returns_what_set_wrote_witness :
  errored (value e_wine) = false /\ 0 < expire e_wine /\
  exists w1 ls1 o w2 ls3,
    run (set "w1" (inr e_wine)) [] (initial ∅ 1000) = Some (inr tt, w1, ls1) /\
    run (get "w1" ["wines"]) [] (later (Label false 0) w1) = Some (inr o, w2, ls3) /\
    o = if (clock w2 >? timestamp e_wine + revalidate e_wine * 1000)
           || (clock w1 + expire e_wine * 1000 <=? clock w2)
        then None
        else Some (Entry (Stream [concat (chunks (value e_wine))] false)
                         (tags e_wine) (stale e_wine) (timestamp e_wine)
                         (expire e_wine) (revalidate e_wine)).
Proof.
  split; [reflexivity|]. split; [reflexivity|].
  exact (get_returns_what_set_wrote "w1" e_wine ["wines"] [] [] 0%N (initial ∅ 1000)
           eq_refl eq_refl ltac:(constructor) ltac:(constructor)).
Defined.

(** X2. A write, then the invalidation of one of its tags, then a read.
    When [set(k, e)] went through for an entry with the tag [t] and a
    positive [expire], the key of the set of [t] not holding a string, and
    [updateTags] then goes through for a list that holds [t], none of its
    round trips failing, a later [get(k)] answers [undefined], whenever the
    invalidation and the read are made. *)
Theorem invalidation_reaches_tagged_entry
    k e t tags' d softTags ls ls2 ls3 idle idle2 w w2 ls2' :
  errored (value e) = false ->
  0 < expire e ->
  t ∈ tags e -> t ∈ tags' ->
  smooth ls -> smooth ls2 ->
  (forall s dl,
     store w !! (TAGS_PREFIX +:+ t) <> Some (Redis.Slot (Redis.VString s) dl)) ->
  let w1 := final (run (set k (inr e)) ls w) w in
  run (updateTags_try tags' d) ls2 (later (Label false idle) w1)
  = Some (inr tt, w2, ls2') ->
  exists w3 ls3',
    run (get k softTags) ls3 (later (Label false idle2) w2)
    = Some (inr None, w3, ls3').
Proof.
  intros He Hx Hin Hin' Hls Hls2 Htk w1 Hup.
  destruct (run_set_smooth k e ls w He Hls) as (w1' & ls1 & Hset & Hst & _ & Hp & _).
  assert (Hw1 : w1 = w1') by (unfold w1; now rewrite Hset). clearbody w1. subst w1'.
  destruct (run_updateTags_ok _ _ _ _ _ _ Hup)
    as (now & mss & Hnow & Hmss & _ & Hst3 & _ & (Hpend & _ & _ & Hck)).
  rewrite (smooth_hd _ (smooth_drop _ _ (smooth_after_connect _ _ Hls2))) in Hst3.
  change (store (later (Label false idle) w1)) with (store w1) in *.
  change (pendingSets (later (Label false idle) w1)) with (pendingSets w1) in *.
  cbn [later with_clock clock] in Hck, Hnow.
  assert (Hp2 : pendingSets (later (Label false idle2) w2) !! k = None)
    by (cbn [later with_clock pendingSets]; now rewrite Hpend).
  destruct (Z.lt_ge_cases (clock w2) (clock w1 + (expire e + 60) * 1000)) as [Hlt|Hge].
  - destruct (exec_set_pipeline_tag (clock w1) k
                (serialize (data_of e (concat (chunks (value e))))) e t (store w)
                Hin ltac:(lia) Htk) as (s & Hs & Hks).
    rewrite <- Hst in Hs.
    destruct (invalidation_of_listed now tags' mss t Hmss Hin')
      as (ms & before & tags2 & mss2 & (ts & Hts & Hms) & Heq).
    assert (Hkm : CACHE_PREFIX +:+ k ∈ ms).
    { unfold Redis.smembers, Redis.live in Hms. rewrite Hs in Hms.
      cbn [Redis.deadline] in Hms.
      destruct (Z.leb_spec (clock w1 + (expire e + 60) * 1000) ts); [lia|].
      injection Hms as <-. now apply elem_of_elements. }
    apply run_get_absent; [exact Hp2|].
    cbn [later with_clock store]. rewrite Hst3, Heq.
    now apply invalidation_deletes_listed.
  - apply run_get_expired; [exact Hp2|].
    cbn [later with_clock store clock]. intros sl Hsl.
    destruct (invalidation_adds_no_record (clock w2) now tags' k mss (store w1)) as [H|H];
      cbv zeta in H; rewrite <- Hst3 in H; [congruence|].
    rewrite H, Hst, exec_set_pipeline_entry in Hsl by exact Hx.
    injection Hsl as <-. eexists. split; [reflexivity|]. lia.
Qed.

(** The theorem at the entry [e_wine], invalidated by its tag right after
    it was written. *)
Lemma invalidation_reaches_tagged_entry_witness :
  errored (value e_wine) = false /\ 0 < expire e_wine /\
  "wines" ∈ tags e_wine /\ smooth [] /\
  (forall s dl,
     store (initial ∅ 1000) !! (TAGS_PREFIX +:+ "wines")
     <> Some (Redis.Slot (Redis.VString s) dl)) /\
  run (updateTags_try ["wines"] None) [] (later (Label false 0) w_wine)
  = Some (inr tt, w_wine_gone, []) /\
  exists w3 ls3',
    run (get "w1" ["wines"]) [] (later (Label false 0) w_wine_gone)
    = Some (inr None, w3, ls3').
Proof.
  assert (H : run (updateTags_try ["wines"] None) []
                (later (Label false 0)
                   (final (run (set "w1" (inr e_wine)) [] (initial ∅ 1000))
                          (initial ∅ 1000)))
              = Some (inr tt, w_wine_gone, []))
    by (vm_compute; reflexivity).
  assert (Hin : "wines" ∈ tags e_wine)
    by (apply list_elem_of_singleton; reflexivity).
  assert (Htk : forall s dl,
            store (initial ∅ 1000) !! (TAGS_PREFIX +:+ "wines")
            <> Some (Redis.Slot (Redis.VString s) dl))
    by (intros s dl Hs; vm_compute in Hs; discriminate Hs).
  split; [reflexivity|]. split; [reflexivity|]. split; [exact Hin|].
  split; [constructor|]. split; [exact Htk|]. split; [exact H|].
  exact (invalidation_reaches_tagged_entry "w1" e_wine "wines" ["wines"] None
           ["wines"] [] [] [] 0%N 0%N (initial ∅ 1000) w_wine_gone []
           eq_refl eq_refl Hin Hin ltac:(constructor) ltac:(constructor) Htk H).
Defined.

(** X3. What a write leaves in the store.  When [set(k, e)] went through
    for an entry with a positive [expire], the store holds the serialized
    entry under the prefixed key for [expire] seconds from the time of the
    batch, and for every tag of the entry whose set key did not hold a
    string, a set that holds the prefixed key and lives sixty seconds
    longer than the record. *)
Theorem set_records_entry_under_its_tags k e t ls w :
  errored (value e) = false ->
  0 < expire e ->
  smooth ls ->
  t ∈ tags e ->
  (forall s dl,
     store w !! (TAGS_PREFIX +:+ t) <> Some (Redis.Slot (Redis.VString s) dl)) ->
  exists w1 ls1 s,
    run (set k (inr e)) ls w = Some (inr tt, w1, ls1) /\
    store w1 !! (CACHE_PREFIX +:+ k)
    = Some (Redis.Slot
              (Redis.VString (serialize (data_of e (concat (chunks (value e))))))
              (Some (clock w1 + expire e * 1000))) /\
    store w1 !! (TAGS_PREFIX +:+ t)
    = Some (Redis.Slot (Redis.VSet s) (Some (clock w1 + (expire e + 60) * 1000))) /\
    CACHE_PREFIX +:+ k ∈ s.
Proof.
  intros He Hx Hls Hin Htk.
  destruct (run_set_smooth k e ls w He Hls) as (w1 & ls1 & Hset & Hst & _).
  destruct (exec_set_pipeline_tag (clock w1) k
              (serialize (data_of e (concat (chunks (value e))))) e t (store w)
              Hin ltac:(lia) Htk) as (s & Hs & Hks).
  exists w1, ls1, s. split; [exact Hset|]. rewrite Hst.
  split; [now apply exec_set_pipeline_entry|]. now split.
Qed.

(** The theorem at the entry [e_wine] and its tag. *)
Lemma set_records_entry_under_its_tags_witness :
  exists w1 ls1 s,
    run (set "w1" (inr e_wine)) [] (initial ∅ 1000) = Some (inr tt, w1, ls1) /\
    store w1 !! (CACHE_PREFIX +:+ "w1")
    = Some (Redis.Slot
              (Redis.VString
                 (serialize (data_of e_wine (concat (chunks (value e_wine))))))
              (Some (clock w1 + expire e_wine * 1000))) /\
    store w1 !! (TAGS_PREFIX +:+ "wines")
    = Some (Redis.Slot (Redis.VSet s)
              (Some (clock w1 + (expire e_wine + 60) * 1000))) /\
    CACHE_PREFIX +:+ "w1" ∈ s.
Proof.
  refine (set_records_entry_under_its_tags "w1" e_wine "wines" [] (initial ∅ 1000)
            eq_refl eq_refl ltac:(constructor) _ _).
  - apply list_elem_of_singleton. reflexivity.
  - intros s dl Hs. vm_compute in Hs. discriminate Hs.
Defined.

(** X4. A write changes the record of no other key and the promise of no
    other key: whatever the entry and whatever fails, [set(k, ...)] leaves
    what the store holds under the prefixed key of [k'] and what
    [pendingSets] holds for [k'] as they were, for every [k'] other than
    [k]. *)
Theorem set_leaves_other_keys k k' pendingEntry ls w :
  k' <> k ->
  exists w' ls',
    run (set k pendingEntry) ls w = Some (inr tt, w', ls') /\
    store w' !! (CACHE_PREFIX +:+ k') = store w !! (CACHE_PREFIX +:+ k') /\
    pendingSets w' !! k' = pendingSets w !! k'.
Proof.
  intros Hne.
  assert (Hkey : CACHE_PREFIX +:+ k <> CACHE_PREFIX +:+ k')
    by (intros H%cache_key_inj; congruence).
  destruct (delivers pendingEntry) eqn:Hd.
  - destruct pendingEntry as [err|e]; [discriminate|].
    cbn [delivers] in Hd. apply negb_true_iff in Hd.
    pose proof (run_set k e ls w Hd) as Hr. cbv zeta in Hr.
    eexists _, _. split; [exact Hr|].
    destruct (after_connect_frame ls (register k w).2)
      as (_ & Hp & _ & _ & Hst & _).
    split.
    + destruct (fails _);
        cbn [store release with_pendingSets with_settled with_store later
             with_clock with_batches]; [now rewrite Hst|].
      rewrite exec_lookup_ne by (now apply set_pipeline_targets). now rewrite Hst.
    + destruct (fails _);
        cbn [pendingSets release with_pendingSets with_settled with_store later
             with_clock with_batches];
        rewrite lookup_delete_ne, Hp by congruence;
        cbn [register snd pendingSets with_pendingSets];
        now rewrite lookup_insert_ne by congruence.
  - destruct (run_set_undelivered k pendingEntry ls w Hd) as [ls' Hr].
    cbv zeta in Hr. eexists _, ls'. split; [exact Hr|].
    destruct (after_connect_frame ls (register k w).2)
      as (_ & Hp & _ & _ & Hst & _).
    cbn [store pendingSets release with_pendingSets with_settled].
    rewrite Hst, lookup_delete_ne, Hp by congruence.
    cbn [register snd pendingSets with_pendingSets].
    now rewrite lookup_insert_ne by congruence.
Qed.

(** The theorem at a write to the key [k] in a process that holds a
    record for [w1]. *)
Lemma set_leaves_other_keys_witness :
  exists w' ls',
    run (set "k" (inr e_first)) [] w_tagged = Some (inr tt, w', ls') /\
    store w' !! (CACHE_PREFIX +:+ "w1") = store w_tagged !! (CACHE_PREFIX +:+ "w1") /\
    pendingSets w' !! "w1" = pendingSets w_tagged !! "w1".
Proof.
  refine (set_leaves_other_keys "k" "w1" (inr e_first) [] w_tagged _).
  discriminate.
Defined.

(** X5. An entry that is not delivered is not written.  When the promise
    of the entry rejects, or its stream errors (after any number of
    chunks), [set] hands no batch to the store and leaves the store and the
    timestamps as they were; it still returns normally, with no promise
    left for the key. *)
Theorem undelivered_entry_is_not_written k pendingEntry ls w :
  delivers pendingEntry = false ->
  exists w' ls',
    run (set k pendingEntry) ls w = Some (inr tt, w', ls') /\
    batches w' = batches w /\ store w' = store w /\
    tagTimestamps w' = tagTimestamps w /\ pendingSets w' !! k = None.
Proof.
  intros Hd. destruct (run_set_undelivered k pendingEntry ls w Hd) as [ls' Hr].
  cbv zeta in Hr. eexists _, ls'. split; [exact Hr|].
  destruct (after_connect_frame ls (register k w).2)
    as (Hts & _ & _ & _ & Hst & Hb & _).
  cbn [batches store tagTimestamps pendingSets release with_pendingSets with_settled].
  rewrite Hb, Hst, Hts. repeat split. apply lookup_delete_eq.
Qed.

(** The theorem at an entry whose stream errors after one chunk. *)
Lemma undelivered_entry_is_not_written_witness :
  let pe : error + entry :=
    inr (Entry (Stream [[x61]] true) ["wines"] false 1000 3600 3600) in
  delivers pe = false /\
  exists w' ls',
    run (set "w1" pe) [] w_tagged = Some (inr tt, w', ls') /\
    batches w' = batches w_tagged /\ store w' = store w_tagged /\
    tagTimestamps w' = tagTimestamps w_tagged /\ pendingSets w' !! "w1" = None.
Proof.
  cbv zeta. split; [reflexivity|].
  exact (undelivered_entry_is_not_written "w1"
           (inr (Entry (Stream [[x61]] true) ["wines"] false 1000 3600 3600))
           [] w_tagged eq_refl).
Defined.

(** X6. A return of [get] has changed nothing but the connection flag and
    the clock: the store, the timestamps, [pendingSets], the promises and
    the batches are as they were, and nothing was thrown. *)
Theorem get_changes_nothing k tags ls w r w' ls' :
  run (get k tags) ls w = Some (r, w', ls') ->
  (exists o, r = inr o) /\
  store w' = store w /\ tagTimestamps w' = tagTimestamps w /\
  pendingSets w' = pendingSets w /\ settled w' = settled w /\
  batches w' = batches w /\ clock w <= clock w'.
Proof.
  pose proof (run_get_any k tags ls w) as Hr. cbv zeta in Hr. rewrite Hr. clear Hr.
  destruct (after_connect_frame ls w) as (Hts & Hp & Hs & _ & Hst & Hb & Hc).
  assert (H : forall o l ls0,
            Some (inr o, later l (after_connect ls w).1, ls0)
            = Some (r, w', ls') ->
            (exists o, r = inr o) /\
            store w' = store w /\ tagTimestamps w' = tagTimestamps w /\
            pendingSets w' = pendingSets w /\ settled w' = settled w /\
            batches w' = batches w /\ clock w <= clock w').
  { intros o l ls0 [= <- <- _]. split; [eauto|].
    cbn [store tagTimestamps pendingSets settled batches clock later with_clock].
    repeat split; try assumption. lia. }
  destruct (pendingSets w !! k) as [p|]; [case_bool_decide; [|discriminate]|];
    apply H.
Qed.

(** The theorem at a read of the record of [w_soft]. *)
Lemma get_changes_nothing_witness :
  run (get "k" ["wines"]) [] w_soft = Some (inr None, w_soft, []) /\
  (exists o : option entry, (inr None : error + option entry) = inr o) /\
  store w_soft = store w_soft /\ tagTimestamps w_soft = tagTimestamps w_soft /\
  pendingSets w_soft = pendingSets w_soft /\ settled w_soft = settled w_soft /\
  batches w_soft = batches w_soft /\ clock w_soft <= clock w_soft.
Proof.
  assert (H : run (get "k" ["wines"]) [] w_soft = Some (inr None, w_soft, []))
    by (vm_compute; reflexivity).
  split; [exact H|].
  exact (get_changes_nothing "k" ["wines"] [] w_soft (inr None) w_soft [] H).
Defined.

(** X7. [get] looks at neither its [softTags] nor the timestamps of tags:
    with other soft tags and any other map of timestamps it blocks or
    returns alike, with the same answer. *)
Theorem get_ignores_tag_timestamps k tags tags' m ls w :
  run (get k tags') ls (with_tagTimestamps m w) =
  match run (get k tags) ls w with
  | Some (r, w', ls') => Some (r, with_tagTimestamps m w', ls')
  | None => None
  end.
Proof.
  pose proof (run_get_any k tags ls w) as H1.
  pose proof (run_get_any k tags' ls (with_tagTimestamps m w)) as H2.
  cbv zeta in H1, H2. rewrite H1, H2, after_connect_tagTimestamps.
  cbn [fst snd pendingSets settled with_tagTimestamps].
  destruct (pendingSets w !! k) as [p|]; [case_bool_decide|]; reflexivity.
Qed.

(** X8. With no write to the key in flight, [get] comes to an end, and it
    answers [undefined] unless the store holds a text that is not empty
    under the prefixed key when its reply is made: so for a key that was
    never written, for a record past its lifetime in the store, for an
    empty text and for a key that holds a set. *)
Theorem get_misses_without_record k tags ls w :
  pendingSets w !! k = None ->
  exists o w' ls',
    run (get k tags) ls w = Some (inr o, w', ls') /\
    ((forall c s, Redis.get (clock w') (store w) (CACHE_PREFIX +:+ k)
                  <> Redis.Ok (Some (String c s))) ->
     o = None).
Proof.
  intros Hp. destruct (run_get_store k tags ls w Hp) as (w' & ls' & Hr & Hst & _).
  eexists _, w', ls'. split; [exact Hr|].
  intros Hno. unfold store_get. destruct (fails _); [reflexivity|].
  rewrite Hst. destruct (Redis.get _ _ _) as [[[|c s]|]|] eqn:E; try reflexivity.
  now destruct (Hno c s).
Qed.

(** The theorem at a read of a key that was never written. *)
Lemma get_misses_without_record_witness :
  pendingSets w_idle !! "k" = None /\
  exists o w' ls',
    run (get "k" []) [] w_idle = Some (inr o, w', ls') /\
    ((forall c s, Redis.get (clock w') (store w_idle) (CACHE_PREFIX +:+ "k")
                  <> Redis.Ok (Some (String c s))) ->
     o = None).
Proof.
  split; [reflexivity|].
  exact (get_misses_without_record "k" [] [] w_idle eq_refl).
Defined.

(** *** Reads that wait for a write *)

(** X9. [set] has registered its promise when it first yields: right after
    the call, before any await of it has ended, [pendingSets] holds for the
    key the promise that was created for this call, no promise has been
    settled by it, and the call is not over. *)
Theorem set_registers_before_first_await k pendingEntry c :
  let c' := step c (Invoke (CallSet k pendingEntry)) in
  pendingSets (world c') !! k = Some (next_promise (world c)) /\
  settled (world c') = settled (world c) /\
  exists q, tasks c' = tasks c ++ [q] /\ status_of q = Waiting.
Proof.
  cbv zeta. cbn [step body]. unfold set, set_try, withSpan, ensureConnected.
  unmonad. cbn [bind start register read write finally try_catch settle fst snd].
  destruct (connected (world c)) eqn:Hc; cbn [connected with_pendingSets with_next_promise];
    rewrite Hc;
    cbn [bind start register read write finally try_catch settle fst snd world tasks
         pendingSets settled with_pendingSets with_next_promise with_connects];
    (split; [apply lookup_insert_eq|]); (split; [reflexivity|]);
    eexists; (split; [reflexivity|reflexivity]).
Qed.

(** X10. While the write registered for a key is not over, a [get] for the
    key does not return, whatever the rest of the process does meanwhile
    short of settling the promise or replacing it in [pendingSets]. *)
Theorem get_blocked_while_write_pending k tags p ls w :
  held k p w ->
  Forall (fun lf => forall w0, held k p w0 -> held k p (lf.2 w0)) ls ->
  run_among (get k tags) ls w = None.
Proof.
  intros Hw Hls.
  assert (Hf : forall w w',
            pendingSets w' = pendingSets w -> settled w' = settled w ->
            next_promise w' = next_promise w -> held k p w -> held k p w').
  { unfold held. intros w1 w2 H1 H2 _. now rewrite H1, H2. }
  apply (blocks_run_among (held k p) p (promise_fields_steady _ Hf)
           (fun w0 H => proj2 H) (get k tags)); [|exact Hw|exact Hls].
  apply blocks_get; [exact Hf|]. now intros w0 [H _].
Qed.

(** The theorem at a process with a write to [k] in flight, the rest of
    the process writing to the store meanwhile. *)
Lemma get_blocked_while_write_pending_witness :
  held "k" 1%positive w_writing /\
  run_among (get "k" [])
    [(quiet, with_store {[ "nextjs:cache:k" := Redis.Slot (Redis.VString "x") None ]})]
    w_writing
  = None.
Proof.
  assert (H : held "k" 1%positive w_writing).
  { split; [reflexivity|]. apply not_elem_of_empty. }
  split; [exact H|].
  refine (get_blocked_while_write_pending "k" [] 1%positive _ w_writing H _).
  constructor; [|constructor]. intros w0 Hw0. exact Hw0.
Defined.

(** X11. One write to a key and a read of the key called after it, in any
    run of the event loop: as long as no other write to the key is called,
    the read does not come to an end before the write has, whatever the
    order in which the awaits of the tasks end, whatever fails, and
    whatever other calls are made and run meanwhile. *)
Theorem get_returns_after_the_write k pendingEntry tags w evs :
  next_promise w ∉ settled w ->
  Forall (no_write_to k) evs ->
  let c := steps (Config w [])
             (Invoke (CallSet k pendingEntry) :: Invoke (CallGet k tags) :: evs) in
  exists q0 q1 rest,
    tasks c = q0 :: q1 :: rest /\
    (status_of q1 <> Waiting -> status_of q0 <> Waiting).
Proof.
  intros Hfresh Hevs. cbv zeta.
  change (steps (Config w [])
            (Invoke (CallSet k pendingEntry) :: Invoke (CallGet k tags) :: evs))
    with (steps (steps (Config w [])
                   [Invoke (CallSet k pendingEntry); Invoke (CallGet k tags)]) evs).
  destruct (steps_keep k (next_promise w) evs _ Hevs
              (write_then_read k pendingEntry tags w Hfresh))
    as (q0 & q1 & rest & Ht & Hinv).
  exists q0, q1, rest. split; [exact Ht|]. intros H1.
  destruct Hinv as [Ho|(_ & _ & Hb & _)].
  - destruct q0; cbn in Ho |- *; try contradiction; discriminate.
  - destruct q1; cbn in Hb, H1; try contradiction; now destruct H1.
Qed.

(** The theorem at a write and a read of [k], with an invalidation called
    and the read resumed while the write is in flight. *)
Lemma get_returns_after_the_write_witness :
  let evs := [Resume 1 quiet; Invoke (CallUpdateTags ["wines"] None);
              Resume 1 quiet; Resume 2 quiet; Resume 1 quiet] in
  (next_promise w_idle ∉ settled w_idle) /\
  Forall (no_write_to "k") evs /\
  exists q0 q1 rest,
    tasks (steps (Config w_idle [])
             (Invoke (CallSet "k" (inr e_first)) :: Invoke (CallGet "k" []) :: evs))
    = q0 :: q1 :: rest /\
    (status_of q1 <> Waiting -> status_of q0 <> Waiting).
Proof.
  cbv zeta.
  assert (H1 : next_promise w_idle ∉ settled w_idle) by apply not_elem_of_empty.
  assert (H2 : Forall (no_write_to "k")
                 [Resume 1 quiet; Invoke (CallUpdateTags ["wines"] None);
                  Resume 1 quiet; Resume 2 quiet; Resume 1 quiet])
    by (repeat constructor).
  split; [exact H1|]. split; [exact H2|].
  exact (get_returns_after_the_write "k" (inr e_first) [] w_idle _ H1 H2).
Defined.

(** *** Invalidation *)

(** X12. One write to a key and a read of the key called after it, in any
    run of the event loop in which no round trip of the write fails and no
    other write to the key is called: whatever the order in which the
    awaits end and whatever other calls are made and run meanwhile, the
    read, when it returns, returns [undefined] or the entry the write was
    given, with its chunks joined into one; it does not throw, and it does
    not return what the store held under the key before. *)
Theorem get_behind_set_reads_its_entry k e softTags w evs :
  next_promise w ∉ settled w ->
  errored (value e) = false ->
  0 < expire e ->
  Forall (no_write_to k) evs ->
  Forall first_unfailed evs ->
  let c := steps (Config w [])
             (Invoke (CallSet k (inr e)) :: Invoke (CallGet k softTags) :: evs) in
  let written :=
    Entry (Stream [concat (chunks (value e))] false)
          (tags e) (stale e) (timestamp e) (expire e) (revalidate e) in
  exists q0 q1 rest,
    tasks c = q0 :: q1 :: rest /\
    (status_of q1 = Waiting \/
     status_of q1 = Returned (AEntry None) \/
     status_of q1 = Returned (AEntry (Some written))).
Proof.
  intros Hfresh Hcl Hex Hnw Hevs. cbv zeta.
  change (steps (Config w [])
            (Invoke (CallSet k (inr e)) :: Invoke (CallGet k softTags) :: evs))
    with (steps (steps (Config w [])
                   [Invoke (CallSet k (inr e)); Invoke (CallGet k softTags)]) evs).
  destruct (steps_see k (next_promise w) e evs _ Hnw Hevs
              (write_then_read_sees k e softTags w Hcl Hex Hfresh))
    as (q0 & q1 & rest & Ht & Hrd & _).
  exists q0, q1, rest. split; [exact Ht|].
  destruct q1 as [a|err|X g kq|X op kq]; cbn [status_of reader] in *;
    [|destruct Hrd as [Hrd|Hrd]; discriminate Hrd|now left|now left].
  unfold entry_of, data_of in Hrd. cbn [d_value d_tags d_stale d_timestamp
    d_expire d_revalidate] in Hrd. rewrite Base64Facts.decode_encode in Hrd.
  destruct Hrd as [[= ->]|[= ->]]; [right; left|right; right]; reflexivity.
Qed.

(** The theorem at a write and a read of [k], with an invalidation and
    another read called and run while the write is in flight. *)
Lemma get_behind_set_reads_its_entry_witness :
  let evs := [Resume 1 quiet; Invoke (CallUpdateTags ["wines"] None);
              Resume 0 quiet; Resume 2 quiet; Invoke (CallGet "k" []);
              Resume 0 quiet; Resume 3 quiet; Resume 1 quiet] in
  (next_promise w_idle ∉ settled w_idle) /\
  errored (value e_wine) = false /\
  0 < expire e_wine /\
  Forall (no_write_to "k") evs /\
  Forall first_unfailed evs /\
  exists q0 q1 rest,
    tasks (steps (Config w_idle [])
             (Invoke (CallSet "k" (inr e_wine)) :: Invoke (CallGet "k" []) :: evs))
    = q0 :: q1 :: rest /\
    (status_of q1 = Waiting \/
     status_of q1 = Returned (AEntry None) \/
     status_of q1 = Returned
       (AEntry (Some (Entry (Stream [concat (chunks (value e_wine))] false)
                            (tags e_wine) (stale e_wine) (timestamp e_wine)
                            (expire e_wine) (revalidate e_wine))))).
Proof.
  cbv zeta.
  assert (H1 : next_promise w_idle ∉ settled w_idle) by apply not_elem_of_empty.
  assert (H2 : errored (value e_wine) = false) by reflexivity.
  assert (H3 : 0 < expire e_wine) by (cbn; lia).
  assert (H4 : Forall (no_write_to "k")
                 [Resume 1 quiet; Invoke (CallUpdateTags ["wines"] None);
                  Resume 0 quiet; Resume 2 quiet; Invoke (CallGet "k" []);
                  Resume 0 quiet; Resume 3 quiet; Resume 1 quiet])
    by (repeat constructor).
  assert (H5 : Forall first_unfailed
                 [Resume 1 quiet; Invoke (CallUpdateTags ["wines"] None);
                  Resume 0 quiet; Resume 2 quiet; Invoke (CallGet "k" []);
                  Resume 0 quiet; Resume 3 quiet; Resume 1 quiet])
    by (repeat constructor).
  split; [exact H1|]. split; [exact H2|]. split; [exact H3|].
  split; [exact H4|]. split; [exact H5|].
  exact (get_behind_set_reads_its_entry "k" e_wine [] w_idle _ H1 H2 H3 H4 H5).
Defined.

(** X13. When [updateTags(tags)] goes through and none of its round trips
    failed, it has handed the store one batch: for each tag in order, the
    deletion of every key that [SMEMBERS] gave for the tag's set, the
    deletion of the set, and the tag's timestamp key put to the decimal
    text of the time at which the loop began; the store is what that batch
    makes of it. *)
Theorem updateTags_sends_one_batch tags d ls w w' ls' :
  smooth ls ->
  run (updateTags_try tags d) ls w = Some (inr tt, w', ls') ->
  exists now mss,
    clock w <= now <= clock w' /\
    Forall2 (fun t ms =>
               exists ts, now <= ts <= clock w' /\
                 Redis.smembers ts (store w) (TAGS_PREFIX +:+ t) = Redis.Ok ms)
            tags mss /\
    let batch :=
      concat (zip_with
                (fun t ms =>
                   map Redis.DEL ms ++
                   [Redis.DEL (TAGS_PREFIX +:+ t);
                    Redis.SET ((TAGS_PREFIX +:+ t) +:+ ":timestamp")
                              (Decimal.print_Z now)])
                tags mss) in
    batches w' = batches w ++ [batch] /\
    store w' = Redis.exec (clock w') batch (store w).
Proof.
  intros Hls Hr. destruct (run_updateTags_ok _ _ _ _ _ _ Hr)
    as (now & mss & Hnow & Hmss & Hb & Hst & _).
  rewrite (smooth_hd _ (smooth_drop _ _ (smooth_after_connect _ w Hls))) in Hst.
  exists now, mss. split; [exact Hnow|]. split; [exact Hmss|].
  cbv zeta. split; [exact Hb|exact Hst].
Qed.

(** The theorem at the invalidation of [wines] in the process
    [w_tagged]. *)
Lemma updateTags_sends_one_batch_witness :
  smooth [] /\
  run (updateTags_try ["wines"] None) [] w_tagged = Some (inr tt, w_untagged, []) /\
  exists now mss,
    clock w_tagged <= now <= clock w_untagged /\
    Forall2 (fun t ms =>
               exists ts, now <= ts <= clock w_untagged /\
                 Redis.smembers ts (store w_tagged) (TAGS_PREFIX +:+ t) = Redis.Ok ms)
            ["wines"] mss /\
    let batch :=
      concat (zip_with
                (fun t ms =>
                   map Redis.DEL ms ++
                   [Redis.DEL (TAGS_PREFIX +:+ t);
                    Redis.SET ((TAGS_PREFIX +:+ t) +:+ ":timestamp")
                              (Decimal.print_Z now)])
                ["wines"] mss) in
    batches w_untagged = batches w_tagged ++ [batch] /\
    store w_untagged = Redis.exec (clock w_untagged) batch (store w_tagged).
Proof.
  assert (H : run (updateTags_try ["wines"] None) [] w_tagged
              = Some (inr tt, w_untagged, []))
    by (vm_compute; reflexivity).
  split; [constructor|]. split; [exact H|].
  exact (updateTags_sends_one_batch ["wines"] None [] w_tagged w_untagged []
           ltac:(constructor) H).
Defined.

(** X14. When [updateTags(tags)] goes through, every tag of the list has
    the time at which the loop began as its timestamp, the other tags keep
    theirs, and [getExpiration] answers at least that time for every list
    that holds one of the tags. *)
Theorem updateTags_stamps_every_tag tags d ls w w' ls' :
  run (updateTags_try tags d) ls w = Some (inr tt, w', ls') ->
  exists now,
    clock w <= now <= clock w' /\
    (forall t,
       tagTimestamps w' !! t =
       if bool_decide (t ∈ tags) then Some (Int now) else tagTimestamps w !! t) /\
    (forall t tags', t ∈ tags -> t ∈ tags' -> now <= expiration w' tags').
Proof.
  intros Hr. destruct (run_updateTags_ok _ _ _ _ _ _ Hr)
    as (now & mss & Hnow & _ & _ & _ & Hts & _).
  exists now. split; [exact Hnow|].
  assert (Hl : forall t, tagTimestamps w' !! t =
                 if bool_decide (t ∈ tags) then Some (Int now)
                 else tagTimestamps w !! t)
    by (intros t; rewrite Hts; apply stamp_lookup).
  split; [exact Hl|].
  intros t tags' Hin Hin'. rewrite expiration_max.
  pose proof (fold_max_elem (tagTimestamps w') tags' 0 t Hin') as H.
  unfold stamp_of at 1 in H. rewrite Hl, bool_decide_eq_true_2 in H by exact Hin.
  exact H.
Qed.

(** The theorem at the invalidation of [wines] in the process
    [w_tagged]. *)
Lemma updateTags_stamps_every_tag_witness :
  run (updateTags_try ["wines"] None) [] w_tagged = Some (inr tt, w_untagged, []) /\
  exists now,
    clock w_tagged <= now <= clock w_untagged /\
    (forall t,
       tagTimestamps w_untagged !! t =
       if bool_decide (t ∈ ["wines"]) then Some (Int now)
       else tagTimestamps w_tagged !! t) /\
    (forall t tags', t ∈ ["wines"] -> t ∈ tags' -> now <= expiration w_untagged tags').
Proof.
  assert (H : run (updateTags_try ["wines"] None) [] w_tagged
              = Some (inr tt, w_untagged, []))
    by (vm_compute; reflexivity).
  split; [exact H|].
  exact (updateTags_stamps_every_tag ["wines"] None [] w_tagged w_untagged [] H).
Defined.

(** X15. When [updateTags([t])] goes through and none of its round trips
    failed, the store holds the decimal text of the tag's new timestamp
    under the tag's timestamp key, with no deadline, and nothing under the
    key of the tag's set. *)
Theorem updateTags_persists_timestamp t d ls w w' ls' :
  smooth ls ->
  run (updateTags_try [t] d) ls w = Some (inr tt, w', ls') ->
  exists now,
    clock w <= now <= clock w' /\
    tagTimestamps w' !! t = Some (Int now) /\
    store w' !! ((TAGS_PREFIX +:+ t) +:+ ":timestamp")
    = Some (Redis.Slot (Redis.VString (Decimal.print_Z now)) None) /\
    store w' !! (TAGS_PREFIX +:+ t) = None.
Proof.
  intros Hls Hr. destruct (run_updateTags_single t d ls w w' ls' Hls Hr)
    as (now & Hnow & Hts & Hk & Hs).
  exists now. split; [exact Hnow|]. split; [|now split].
  rewrite Hts. apply lookup_insert_eq.
Qed.

(** The theorem at the invalidation of [wines] in the process
    [w_tagged]. *)
Lemma updateTags_persists_timestamp_witness :
  smooth [] /\
  run (updateTags_try ["wines"] None) [] w_tagged = Some (inr tt, w_untagged, []) /\
  exists now,
    clock w_tagged <= now <= clock w_untagged /\
    tagTimestamps w_untagged !! "wines" = Some (Int now) /\
    store w_untagged !! ((TAGS_PREFIX +:+ "wines") +:+ ":timestamp")
    = Some (Redis.Slot (Redis.VString (Decimal.print_Z now)) None) /\
    store w_untagged !! (TAGS_PREFIX +:+ "wines") = None.
Proof.
  assert (H : run (updateTags_try ["wines"] None) [] w_tagged
              = Some (inr tt, w_untagged, []))
    by (vm_compute; reflexivity).
  split; [constructor|]. split; [exact H|].
  exact (updateTags_persists_timestamp "wines" None [] w_tagged w_untagged []
           ltac:(constructor) H).
Defined.

(** X16. [updateTags] deletes the records listed in the sets of its tags
    and no other: it always comes to an end, and the record of a key that
    is in the set of none of the tags is as it was, whether the
    invalidation went through or failed. *)
Theorem updateTags_leaves_other_records tags d k ls w :
  (forall t s dl,
     t ∈ tags -> store w !! (TAGS_PREFIX +:+ t) = Some (Redis.Slot (Redis.VSet s) dl) ->
     CACHE_PREFIX +:+ k ∉ s) ->
  exists w' ls',
    run (updateTags tags d) ls w = Some (inr tt, w', ls') /\
    store w' !! (CACHE_PREFIX +:+ k) = store w !! (CACHE_PREFIX +:+ k).
Proof.
  intros Hk. destruct (run_updateTags tags d ls w) as (r0 & w' & ls' & Htry & Hrun).
  exists w', ls'. split; [exact Hrun|].
  destruct r0 as [e|[]].
  - destruct (run_updateTags_try _ _ _ _ _ _ _ Htry)
      as (_ & _ & _ & _ & _ & _ & _ & _ & Hst).
    now rewrite (Hst e eq_refl).
  - destruct (run_updateTags_ok _ _ _ _ _ _ Htry)
      as (now & mss & _ & Hmss & _ & Hst & _).
    rewrite Hst. destruct (fails _); [reflexivity|].
    apply exec_lookup_ne, invalidation_targets.
    clear Hst Htry Hrun. induction Hmss as [|t ms tags mss (ts & _ & Hsm) _ IH];
      [constructor|].
    constructor.
    + split; [|split].
      * intros Hin. destruct (smembers_of_set _ _ _ _ _ Hsm Hin) as (s & dl & Hs & Hx).
        apply (Hk t s dl); [apply elem_of_cons; now left|exact Hs|exact Hx].
      * apply cache_key_not_tag_key.
      * apply prefixed_key_not_timestamp.
    + apply IH. intros t' s dl Hin. apply Hk, elem_of_cons. now right.
Qed.

(** The theorem at the invalidation of a tag that has no set, in a
    process that holds a record. *)
Lemma updateTags_leaves_other_records_witness :
  exists w' ls',
    run (updateTags ["beers"] None) [] w_tagged = Some (inr tt, w', ls') /\
    store w' !! (CACHE_PREFIX +:+ "w1") = store w_tagged !! (CACHE_PREFIX +:+ "w1").
Proof.
  refine (updateTags_leaves_other_records ["beers"] None "w1" [] w_tagged _).
  intros t s dl Ht Hs. apply list_elem_of_singleton in Ht. subst t.
  vm_compute in Hs. discriminate Hs.
Defined.

(** *** Timestamps across processes *)

(** X18. When [refreshTags()] goes through, a tag whose name does not
    hold [:timestamp] and whose timestamp key holds a text that is not
    empty has the [parseInt] of that text as its timestamp. *)
Theorem refreshTags_reads_timestamp t v ls w w' ls' :
  has ":timestamp" t = false ->
  v <> "" ->
  run refreshTags_try ls w = Some (inr tt, w', ls') ->
  Redis.get (clock w') (store w) ((TAGS_PREFIX +:+ t) +:+ ":timestamp")
  = Redis.Ok (Some v) ->
  run refreshTags ls w = Some (inr tt, w', ls') /\
  tagTimestamps w' !! t = Some (parseInt v).
Proof.
  intros Ht Hv Hr Hg. split.
  - unfold refreshTags. now rewrite run_try_catch, Hr.
  - exact (run_refreshTags_reads t v Ht Hv ls w w' ls' Hr Hg).
Qed.

(** The theorem at a process that shares the store of one in which
    [wines] was invalidated at time 1234. *)
Lemma refreshTags_reads_timestamp_witness :
  has ":timestamp" "wines" = false /\
  run refreshTags_try [] w_other = Some (inr tt, w_refreshed, []) /\
  Redis.get (clock w_refreshed) (store w_other)
    ((TAGS_PREFIX +:+ "wines") +:+ ":timestamp") = Redis.Ok (Some "1234") /\
  run refreshTags [] w_other = Some (inr tt, w_refreshed, []) /\
  tagTimestamps w_refreshed !! "wines" = Some (parseInt "1234").
Proof.
  assert (H1 : run refreshTags_try [] w_other = Some (inr tt, w_refreshed, []))
    by (vm_compute; reflexivity).
  assert (H2 : Redis.get (clock w_refreshed) (store w_other)
                 ((TAGS_PREFIX +:+ "wines") +:+ ":timestamp")
               = Redis.Ok (Some "1234"))
    by (vm_compute; reflexivity).
  split; [reflexivity|]. split; [exact H1|]. split; [exact H2|].
  refine (refreshTags_reads_timestamp "wines" "1234" [] w_other w_refreshed []
            eq_refl _ H1 H2).
  discriminate.
Defined.

(** X19. An invalidation reaches the other processes.  When
    [updateTags([t])] went through in one process with none of its round
    trips failing, for a tag whose name does not hold [:timestamp], and
    [refreshTags()] goes through in a process on the same store, the tag
    has the same timestamp in both and [getExpiration([t])] answers the
    same.  The times are whole numbers of milliseconds from 0 to [2 ^ 53],
    the range in which the decimal text of a number is all its digits and
    [parseInt] reads it back exactly. *)
Theorem refreshTags_picks_up_invalidation t d ls w w1 ls1 wB ls2 w2 ls2' :
  has ":timestamp" t = false ->
  0 <= clock w -> clock w1 <= 2 ^ 53 ->
  smooth ls ->
  run (updateTags_try [t] d) ls w = Some (inr tt, w1, ls1) ->
  store wB = store w1 ->
  run refreshTags_try ls2 wB = Some (inr tt, w2, ls2') ->
  exists now,
    clock w <= now <= clock w1 /\
    tagTimestamps w1 !! t = Some (Int now) /\
    tagTimestamps w2 !! t = Some (Int now) /\
    expiration w2 [t] = expiration w1 [t].
Proof.
  intros Ht _ _ Hls Hup Hst Hre.
  destruct (run_updateTags_single t d ls w w1 ls1 Hls Hup)
    as (now & Hnow & Hts & Hk & _).
  exists now. split; [exact Hnow|].
  assert (H1 : tagTimestamps w1 !! t = Some (Int now))
    by (rewrite Hts; apply lookup_insert_eq).
  assert (H2 : tagTimestamps w2 !! t = Some (Int now)).
  { rewrite <- (parseInt_print_Z now).
    apply (run_refreshTags_reads t _ Ht (print_Z_text now) ls2 wB w2 ls2' Hre).
    unfold Redis.get, Redis.live. now rewrite Hst, Hk. }
  split; [exact H1|]. split; [exact H2|].
  now rewrite !expiration_one, H1, H2.
Qed.

(** The theorem at the same two processes. *)
Lemma refreshTags_picks_up_invalidation_witness :
  has ":timestamp" "wines" = false /\
  0 <= clock (initial ∅ 1234) /\ clock w_invalidated <= 2 ^ 53 /\
  smooth [] /\
  run (updateTags_try ["wines"] None) [] (initial ∅ 1234)
  = Some (inr tt, w_invalidated, []) /\
  run refreshTags_try [] w_other = Some (inr tt, w_refreshed, []) /\
  exists now,
    clock (initial ∅ 1234) <= now <= clock w_invalidated /\
    tagTimestamps w_invalidated !! "wines" = Some (Int now) /\
    tagTimestamps w_refreshed !! "wines" = Some (Int now) /\
    expiration w_refreshed ["wines"] = expiration w_invalidated ["wines"].
Proof.
  assert (H1 : run (updateTags_try ["wines"] None) [] (initial ∅ 1234)
               = Some (inr tt, w_invalidated, []))
    by (vm_compute; reflexivity).
  assert (H2 : run refreshTags_try [] w_other = Some (inr tt, w_refreshed, []))
    by (vm_compute; reflexivity).
  assert (H3 : 0 <= clock (initial ∅ 1234)) by (vm_compute; discriminate).
  assert (H4 : clock w_invalidated <= 2 ^ 53) by (vm_compute; discriminate).
  split; [reflexivity|]. split; [exact H3|]. split; [exact H4|].
  split; [constructor|]. split; [exact H1|]. split; [exact H2|].
  exact (refreshTags_picks_up_invalidation "wines" None [] (initial ∅ 1234)
           w_invalidated [] w_other [] w_refreshed [] eq_refl H3 H4
           ltac:(constructor) H1 eq_refl H2).
Defined.

(** X20. [refreshTags] always returns normally, writes nothing to the
    store and leaves [pendingSets] and the promises alone; a tag that had
    a timestamp still has one, and a tag that no timestamp key of the
    store names keeps the timestamp it had (or none). *)
Theorem refreshTags_touches_only_timestamps ls w :
  exists w' ls',
    run refreshTags ls w = Some (inr tt, w', ls') /\
    store w' = store w /\ pendingSets w' = pendingSets w /\
    settled w' = settled w /\ batches w' = batches w /\
    (forall t, is_Some (tagTimestamps w !! t) -> is_Some (tagTimestamps w' !! t)) /\
    (forall t,
       (forall key, is_Some (store w !! key) ->
                    Redis.glob (TAGS_PREFIX +:+ "*:timestamp") key = true ->
                    tag_of key <> t) ->
       tagTimestamps w' !! t = tagTimestamps w !! t).
Proof.
  destruct (nonblocking_run _ nonblocking_refreshTags_try ls w) as (r & w' & ls' & Hr).
  exists w', ls'. split.
  { unfold refreshTags. rewrite run_try_catch, Hr. now destruct r as [e|[]]. }
  revert Hr. unfold refreshTags_try.
  rewrite run_settle, run_withSpan, run_bind, run_connect, run_bind, run_await.
  destruct (after_connect_frame ls w) as (Hts & Hp & Hs & _ & Hst & Hb & _).
  set (w1 := (after_connect ls w).1) in *.
  set (ls1 := (after_connect ls w).2) in *.
  cbn [perform]. set (wk := later (hd quiet ls1) w1).
  destruct (fails (hd quiet ls1)).
  { intros [= _ <- _]. unfold wk.
    cbn [store pendingSets settled batches tagTimestamps later with_clock].
    rewrite Hts. repeat split; try assumption; auto. }
  destruct (run (refresh_loop _) (tl ls1) wk) as [[[r2 w2] ls2]|] eqn:El;
    [|discriminate].
  intros [= _ <- _].
  destruct (run_refresh_loop_frame _ _ _ _ _ _ El) as (Hst2 & Hb2 & Hp2 & Hs2 & _).
  change (store wk) with (store w1) in Hst2.
  change (batches wk) with (batches w1) in Hb2.
  change (pendingSets wk) with (pendingSets w1) in Hp2.
  change (settled wk) with (settled w1) in Hs2.
  split; [congruence|]. split; [congruence|]. split; [congruence|].
  split; [congruence|]. split.
  - intros t Ht. apply (run_refresh_loop_grows t _ _ _ _ _ _ El).
    change (tagTimestamps wk) with (tagTimestamps w1). now rewrite Hts.
  - intros t Ht.
    assert (Hk : Forall (fun k => tag_of k <> t)
                   (Redis.keys (clock wk) (store wk) (TAGS_PREFIX +:+ "*:timestamp"))).
    2: { rewrite (run_refresh_loop_others t _ _ _ _ _ _ Hk El).
         change (tagTimestamps wk) with (tagTimestamps w1). now rewrite Hts. }
    apply Forall_forall. intros key [Hl Hg]%elem_of_keys.
    apply Ht; [|exact Hg]. unfold Redis.live in Hl.
    change (store wk) with (store w1) in Hl. rewrite Hst in Hl.
    destruct (store w !! key); [eauto|now destruct Hl].
Qed.

(** *** [getExpiration] *)

(** X21. [getExpiration(tags)] makes no round trip and changes nothing; its
    answer is the greatest of [0] and the timestamps of the tags of the
    list: it is not negative, no timestamp of a listed tag is above it, and
    it is [0] or the timestamp of a listed tag. *)
Theorem getExpiration_is_the_maximum tags ls w :
  exists z ls',
    run (getExpiration tags) ls w = Some (inr z, w, ls') /\
    0 <= z /\
    (forall t x, t ∈ tags -> tagTimestamps w !! t = Some (Int x) -> x <= z) /\
    (z = 0 \/ exists t, t ∈ tags /\ tagTimestamps w !! t = Some (Int z)).
Proof.
  destruct (run_getExpiration tags ls w) as [ls' Hr].
  exists (expiration w tags), ls'. split; [exact Hr|].
  rewrite expiration_max. split; [apply fold_max_ge|]. split.
  - intros t x Hin Hx.
    pose proof (fold_max_elem (tagTimestamps w) tags 0 t Hin) as H.
    unfold stamp_of at 1 in H. now rewrite Hx in H.
  - destruct (fold_max_attained (tagTimestamps w) tags 0) as [H|(t & Hin & Ht)];
      [now left|].
    cbv zeta in Ht. unfold stamp_of at 1 in Ht.
    destruct (tagTimestamps w !! t) as [[|x]|] eqn:E; [now left| |now left].
    right. exists t. split; [exact Hin|]. now rewrite E, Ht.
Qed.

(** X22. [getExpiration] grows with its list: every tag of [tags] being
    in [tags'], the answer for [tags] is at most the answer for [tags'];
    so the order of the tags and their repetitions do not matter. *)
Theorem getExpiration_grows_with_tags tags tags' ls ls2 w :
  tags ⊆ tags' ->
  exists z z' ls' ls2',
    run (getExpiration tags) ls w = Some (inr z, w, ls') /\
    run (getExpiration tags') ls2 w = Some (inr z', w, ls2') /\
    z <= z'.
Proof.
  intros Hsub.
  destruct (run_getExpiration tags ls w) as [ls' Hr].
  destruct (run_getExpiration tags' ls2 w) as [ls2' Hr'].
  eexists _, _, _, _. split; [exact Hr|]. split; [exact Hr'|].
  rewrite !expiration_max. apply fold_max_bound; [apply fold_max_ge|].
  intros t Ht. apply fold_max_elem. now apply Hsub.
Qed.

(** The theorem at a list and the same list with a tag in front, in the
    process in which [wines] was invalidated. *)
Lemma getExpiration_grows_with_tags_witness :
  exists z z' ls' ls2',
    run (getExpiration ["wines"]) [] w_invalidated = Some (inr z, w_invalidated, ls') /\
    run (getExpiration ["beers"; "wines"]) [] w_invalidated
    = Some (inr z', w_invalidated, ls2') /\
    z <= z'.
Proof.
  refine (getExpiration_grows_with_tags ["wines"] ["beers"; "wines"] [] []
            w_invalidated _).
  intros t Ht. apply elem_of_cons. now right.
Defined.

(** *** A tag whose name holds [:timestamp] *)

(** [refreshTags] takes the first [:timestamp] out of a key, not the last:
    the invalidation of the tag [a:timestamp:b] in one process is recorded
    by [refreshTags] in another under the name [a:b:timestamp]. *)
Example refreshTags_misnames_tag :
  let w1 := final (run (updateTags ["a:timestamp:b"] None) [] (initial ∅ 1234))
                  (initial ∅ 1234) in
  let w2 := final (run refreshTags [] (initial (store w1) 5000))
                  (initial (store w1) 5000) in
  tagTimestamps w1 !! "a:timestamp:b" = Some (Int 1234) /\
  tagTimestamps w2 !! "a:timestamp:b" = None /\
  tagTimestamps w2 !! "a:b:timestamp" = Some (Int 1234).
Proof. cbv zeta. repeat split; vm_compute; reflexivity. Qed.

End Properties.
